(** * MyRag: the retrieval core, embedded in Rocq

    A shallow embedding of the TypeScript sources of the repository:
    the text chunker ([lib/textChunker.ts]), the BM25 index
    ([lib/bm25.ts]), the cosine similarity ([lib/embeddings.ts]), the
    document store with its hybrid search ([lib/documentStore.ts]), the
    upload route ([api/upload/route.ts]) and the cancellation endpoint of
    the chat route ([api/chat/route.ts]).

    Conventions of the embedding.
    - A JavaScript number that holds a score is a [number]: an exact real,
      one of the two infinities, or NaN.  The operations follow IEEE 754
      on these values (0/0 is NaN, every comparison with NaN is false);
      rounding and the sign of zero are not modelled.
    - A JavaScript number that holds an index or a size is an integer [Z].
    - A string is a [string] of code units below 256.
    - A function that can throw returns a [result].
    - Mutable objects ([Map]s, the controllers) are explicit state.
    - The remote embedding service, and the regular-expression engine on
      patterns that have syntax characters, are parameters. *)

From Stdlib Require Import ZArith List String Ascii Reals Lra Lia Bool.
From Stdlib Require Import Permutation Sorted.
From stdpp Require Import gmap strings pretty.
Import ListNotations.

Local Open Scope Z_scope.

(** ** Results of functions that can throw *)

Inductive error : Type :=
| Error (message : string)
| SyntaxError (message : string).

Inductive result (A : Type) : Type :=
| Ok (value : A)
| Throw (e : error).

Arguments Ok {A} value.
Arguments Throw {A} e.

Definition bind {A B : Type} (m : result A) (k : A -> result B) : result B :=
  match m with
  | Ok a => k a
  | Throw e => Throw e
  end.

Notation "'let*' x ':=' m 'in' k" := (bind m (fun x => k))
  (at level 10, x name, m at level 100, k at level 200).

(** ** Numbers *)

Inductive number : Type :=
| Num (r : R)
| Infinity (negative : bool)
| NaN.

Declare Scope number_scope.
Delimit Scope number_scope with num.
Bind Scope number_scope with number.

Module Number.

Definition sign (r : R) : comparison :=
  if Rlt_dec r 0 then Lt else if Rlt_dec 0 r then Gt else Eq.

Definition of_Z (z : Z) : number := Num (IZR z).

Definition of_nat (n : nat) : number := Num (INR n).

Definition add (a b : number) : number :=
  match a, b with
  | NaN, _ | _, NaN => NaN
  | Num x, Num y => Num (x + y)
  | Infinity s, Infinity t => if Bool.eqb s t then Infinity s else NaN
  | Infinity s, Num _ | Num _, Infinity s => Infinity s
  end.

Definition sub (a b : number) : number :=
  match a, b with
  | NaN, _ | _, NaN => NaN
  | Num x, Num y => Num (x - y)
  | Infinity s, Infinity t => if Bool.eqb s t then NaN else Infinity s
  | Infinity s, Num _ => Infinity s
  | Num _, Infinity s => Infinity (negb s)
  end.

Definition mul (a b : number) : number :=
  match a, b with
  | NaN, _ | _, NaN => NaN
  | Num x, Num y => Num (x * y)
  | Infinity s, Infinity t => Infinity (xorb s t)
  | Infinity s, Num x | Num x, Infinity s =>
      match sign x with
      | Eq => NaN
      | Gt => Infinity s
      | Lt => Infinity (negb s)
      end
  end.

(** The zero divisors of the program are lengths and sums of squares:
    a zero divisor is read as +0. *)
Definition div (a b : number) : number :=
  match a, b with
  | NaN, _ | _, NaN => NaN
  | Num x, Num y =>
      if Req_dec_T y 0 then
        match sign x with
        | Eq => NaN
        | Gt => Infinity false
        | Lt => Infinity true
        end
      else Num (x / y)
  | Num _, Infinity _ => Num 0
  | Infinity s, Num y => if Rlt_dec y 0 then Infinity (negb s) else Infinity s
  | Infinity _, Infinity _ => NaN
  end.

Definition ltb (a b : number) : bool :=
  match a, b with
  | Num x, Num y => if Rlt_dec x y then true else false
  | Infinity true, Num _ | Num _, Infinity false => true
  | Infinity true, Infinity false => true
  | _, _ => false
  end.

Definition gtb (a b : number) : bool := ltb b a.

Definition leb (a b : number) : bool :=
  match a, b with
  | Num x, Num y => if Rle_dec x y then true else false
  | Infinity true, Num _ | Num _, Infinity false => true
  | Infinity s, Infinity t => implb t s
  | _, _ => false
  end.

Definition geb (a b : number) : bool := leb b a.

Definition isNaN (a : number) : bool :=
  match a with
  | NaN => true
  | _ => false
  end.

End Number.

Infix "+" := Number.add : number_scope.
Infix "-" := Number.sub : number_scope.
Infix "*" := Number.mul : number_scope.
Infix "/" := Number.div : number_scope.
Infix "<?" := Number.ltb : number_scope.
Infix ">?" := Number.gtb : number_scope.
Infix "<=?" := Number.leb : number_scope.
Infix ">=?" := Number.geb : number_scope.

Module Math.

Definition sqrt (a : number) : number :=
  match a with
  | Num x => if Rlt_dec x 0 then NaN else Num (R_sqrt.sqrt x)
  | Infinity false => Infinity false
  | Infinity true => NaN
  | NaN => NaN
  end.

Definition log (a : number) : number :=
  match a with
  | Num x =>
      if Rlt_dec x 0 then NaN
      else if Req_dec_T x 0 then Infinity true
      else Num (ln x)
  | Infinity false => Infinity false
  | Infinity true => NaN
  | NaN => NaN
  end.

Definition min (a b : number) : number :=
  match a, b with
  | NaN, _ | _, NaN => NaN
  | _, _ => if (a <=? b)%num then a else b
  end.

Definition max (a b : number) : number :=
  match a, b with
  | NaN, _ | _, NaN => NaN
  | _, _ => if (a <=? b)%num then b else a
  end.

End Math.

(** ** Strings *)

Module Str.

Definition code (c : ascii) : N := N_of_ascii c.

(** The class [\s], which is also what [trim] strips: TAB, LF, VT, FF,
    CR, SPACE and the no-break space. *)
Definition isWhiteSpace (c : ascii) : bool :=
  let n := code c in
  ((9 <=? n) && (n <=? 13) || (n =? 32) || (n =? 160))%N.

(** The class [\w]: letters, digits and the underscore. *)
Definition isWordChar (c : ascii) : bool :=
  let n := code c in
  ((48 <=? n) && (n <=? 57) || (65 <=? n) && (n <=? 90)
   || (n =? 95) || (97 <=? n) && (n <=? 122))%N.

Definition lowerChar (c : ascii) : ascii :=
  let n := code c in
  if ((65 <=? n) && (n <=? 90)
      || (192 <=? n) && (n <=? 222) && negb (n =? 215))%N
  then ascii_of_N (n + 32) else c.

Fixpoint map (f : ascii -> ascii) (s : string) : string :=
  match s with
  | EmptyString => EmptyString
  | String c s' => String (f c) (map f s')
  end.

Definition toLowerCase (s : string) : string := map lowerChar s.

Definition len (s : string) : Z := Z.of_nat (String.length s).

Fixpoint trimStart (s : string) : string :=
  match s with
  | EmptyString => EmptyString
  | String c s' => if isWhiteSpace c then trimStart s' else s
  end.

Fixpoint trimEnd (s : string) : string :=
  match s with
  | EmptyString => EmptyString
  | String c s' =>
      match trimEnd s' with
      | EmptyString => if isWhiteSpace c then EmptyString else String c EmptyString
      | r => String c r
      end
  end.

Definition trim (s : string) : string := trimEnd (trimStart s).

(** [s.replace(/\s+/g, ' ')] *)
Fixpoint replaceWhitespaceRuns (inRun : bool) (s : string) : string :=
  match s with
  | EmptyString => EmptyString
  | String c s' =>
      if isWhiteSpace c then
        if inRun then replaceWhitespaceRuns true s'
        else String " " (replaceWhitespaceRuns true s')
      else String c (replaceWhitespaceRuns false s')
  end.

(** [s.replace(/[^\w\s]/g, ' ')] *)
Definition replacePunctuation (s : string) : string :=
  map (fun c => if isWordChar c || isWhiteSpace c then c else " "%char) s.

(** [s.split(/\s+/)]: the pieces between the whitespace runs; a run at
    either end leaves an empty piece there, and the empty string has the
    one empty piece. *)
Fixpoint splitWhitespace (inRun : bool) (s : string) : list string :=
  match s with
  | EmptyString => [EmptyString]
  | String c s' =>
      if isWhiteSpace c then
        if inRun then splitWhitespace true s'
        else EmptyString :: splitWhitespace true s'
      else
        match splitWhitespace false s' with
        | piece :: pieces => String c piece :: pieces
        | [] => [String c EmptyString]
        end
  end.

(** [s.substring(a, b)]: both indices are clamped to the string and
    swapped when they come in the wrong order. *)
Definition substring (s : string) (a b : Z) : string :=
  let a' := Z.max 0 (Z.min a (len s)) in
  let b' := Z.max 0 (Z.min b (len s)) in
  let from := Z.min a' b' in
  let to := Z.max a' b' in
  String.substring (Z.to_nat from) (Z.to_nat (to - from)) s.

(** [s.lastIndexOf(pattern)], scanning from position [i] of the whole
    string: the largest index at which [pattern] occurs, or -1. *)
Fixpoint lastIndexOfFrom (i : Z) (s pattern : string) : Z :=
  match s with
  | EmptyString => if String.prefix pattern EmptyString then i else -1
  | String _ s' =>
      let later := lastIndexOfFrom (i + 1) s' pattern in
      if 0 <=? later then later
      else if String.prefix pattern s then i else -1
  end.

Definition lastIndexOf (s pattern : string) : Z := lastIndexOfFrom 0 s pattern.

(** [s.includes(pattern)] *)
Fixpoint includes (s pattern : string) : bool :=
  String.prefix pattern s ||
  match s with
  | EmptyString => false
  | String _ s' => includes s' pattern
  end.

(** The matches a global search for a literal pattern finds: it scans
    from the left and resumes after the end of each match, so the
    matches do not overlap.  [skip] counts the characters of the last
    match still to pass. *)
Fixpoint countMatchesFrom (skip : nat) (pattern s : string) : nat :=
  match s with
  | EmptyString =>
      match skip with
      | O => if String.prefix pattern EmptyString then 1%nat else 0%nat
      | S _ => 0%nat
      end
  | String _ s' =>
      match skip with
      | S k => countMatchesFrom k pattern s'
      | O =>
          if String.prefix pattern s
          then S (countMatchesFrom (String.length pattern - 1) pattern s')
          else countMatchesFrom 0 pattern s'
      end
  end.

Definition countMatches (pattern s : string) : nat := countMatchesFrom 0 pattern s.

Fixpoint join (sep : string) (l : list string) : string :=
  match l with
  | [] => EmptyString
  | [s] => s
  | s :: l' => String.append s (String.append sep (join sep l'))
  end.

(** [s.endsWith(suffix)] *)
Definition endsWith (s suffix : string) : bool :=
  let n := String.length s in
  let m := String.length suffix in
  (m <=? n)%nat && String.eqb (String.substring (n - m) m s) suffix.

Fixpoint all (p : ascii -> bool) (s : string) : bool :=
  match s with
  | EmptyString => true
  | String c s' => p c && all p s'
  end.

End Str.

(** ** The text chunker ([lib/textChunker.ts]) *)

Record ChunkOptions : Type := {
  maxChunkSize : option Z;
  overlapSize : option Z
}.

Definition defaultOptions : ChunkOptions :=
  {| maxChunkSize := None; overlapSize := None |}.

(** The end index of the chunk that starts at [startIndex]. *)
Definition chunkEnd (normalizedText : string) (maxChunkSize startIndex : Z) : Z :=
  let endIndex := startIndex + maxChunkSize in
  if endIndex <? Str.len normalizedText then
    let searchStart := Z.max startIndex (endIndex - 200) in
    let searchText := Str.substring normalizedText searchStart endIndex in
    let lastPeriod := Str.lastIndexOf searchText ". " in
    let lastExclamation := Str.lastIndexOf searchText "! " in
    let lastQuestion := Str.lastIndexOf searchText "? " in
    let lastSentenceEnd := Z.max (Z.max lastPeriod lastExclamation) lastQuestion in
    if 0 <? lastSentenceEnd then searchStart + lastSentenceEnd + 2
    else endIndex
  else Str.len normalizedText.

(** The start index of the next iteration. *)
Definition nextStartIndex (overlapSize startIndex endIndex : Z) : Z :=
  let nextStart := endIndex - overlapSize in
  if nextStart <=? startIndex then endIndex else nextStart.

(** One iteration of the [while] loop: the chunks pushed so far and the
    start index after it. *)
Definition chunkStep (normalizedText : string) (maxChunkSize overlapSize : Z)
  (startIndex : Z) (chunks : list string) : Z * list string :=
  let endIndex := chunkEnd normalizedText maxChunkSize startIndex in
  let chunk := Str.trim (Str.substring normalizedText startIndex endIndex) in
  let chunks' := if 0 <? Str.len chunk then chunks ++ [chunk] else chunks in
  (nextStartIndex overlapSize startIndex endIndex, chunks').

(** The [while] loop, run for at most [fuel] iterations; [None] when the
    fuel runs out before the loop condition fails. *)
Fixpoint chunkLoop (fuel : nat) (normalizedText : string)
  (maxChunkSize overlapSize : Z) (startIndex : Z) (chunks : list string)
  : option (list string) :=
  if startIndex <? Str.len normalizedText then
    match fuel with
    | O => None
    | S fuel' =>
        let '(startIndex', chunks') :=
          chunkStep normalizedText maxChunkSize overlapSize startIndex chunks in
        chunkLoop fuel' normalizedText maxChunkSize overlapSize startIndex' chunks'
    end
  else Some chunks.

Definition normalize (text : string) : string :=
  Str.trim (Str.replaceWhitespaceRuns false text).

Definition chunkTextWith (fuel : nat) (text : string) (options : ChunkOptions)
  : option (list string) :=
  let maxChunkSize := default 1000 (maxChunkSize options) in
  let overlapSize := default 200 (overlapSize options) in
  if String.eqb text EmptyString || (Str.len (Str.trim text) =? 0) then Some []
  else
    let normalizedText := normalize text in
    if Str.len normalizedText <=? maxChunkSize then Some [normalizedText]
    else chunkLoop fuel normalizedText maxChunkSize overlapSize 0 [].

(** [chunkText]: the loop is given one iteration per character of the
    normalized text, which is all it can use when [maxChunkSize] is
    positive (each iteration moves the start index forward). *)
Definition chunkText (text : string) (options : ChunkOptions) : option (list string) :=
  chunkTextWith (String.length (normalize text)) text options.

(** ** Arrays *)

Module Array.

(** [l.sort(compareFn)].  The sort is stable, and [compareFn a b > 0]
    puts [b] before [a]; a NaN from [compareFn] counts as 0.  For a
    comparator that orders the elements consistently every stable sort
    returns the same array; it is modelled by stable insertion. *)
Fixpoint insert {A : Type} (compareFn : A -> A -> number) (x : A) (l : list A) : list A :=
  match l with
  | [] => [x]
  | y :: l' =>
      if (compareFn x y >? Num 0)%num then y :: insert compareFn x l'
      else x :: y :: l'
  end.

Definition sort {A : Type} (compareFn : A -> A -> number) (l : list A) : list A :=
  fold_right (insert compareFn) [] l.

(** [l.slice(0, end)]: a negative [end] counts from the end of the array. *)
Definition slice0 {A : Type} (l : list A) (end_ : Z) : list A :=
  let len := Z.of_nat (length l) in
  let final := if end_ <? 0 then Z.max (len + end_) 0 else Z.min end_ len in
  firstn (Z.to_nat final) l.

End Array.

(** ** Embeddings ([lib/embeddings.ts]) *)

Definition cosineSimilarity (vecA vecB : list number) : result number :=
  if negb (length vecA =? length vecB)%nat then
    Throw (Error "Vectors must have the same length")
  else
    let '(dotProduct, normA, normB) :=
      fold_left
        (fun '(dotProduct, normA, normB) '(a, b) =>
           (dotProduct + a * b, normA + a * a, normB + b * b)%num)
        (combine vecA vecB) (Num 0, Num 0, Num 0) in
    Ok (dotProduct / (Math.sqrt normA * Math.sqrt normB))%num.

Section EmbeddingProvider.

(** The remote embedding service: [openai.embeddings.create] on a batch
    of inputs, read as the vectors of its response. *)
Variable embeddingsCreate : list string -> result (list (list number)).

(** The batches start at 0, 100, 200, ... below [texts.length]. *)
Definition generateEmbeddings (texts : list string) : result (list (list number)) :=
  let batchSize := 100%nat in
  let starts :=
    List.map (fun k => (k * batchSize)%nat)
      (seq 0 (Nat.div (length texts + batchSize - 1) batchSize)) in
  let run :=
    fold_left
      (fun acc i =>
         let* embeddings := acc in
         let batch := firstn batchSize (skipn i texts) in
         let* response := embeddingsCreate batch in
         Ok (embeddings ++ response))
      starts (Ok []) in
  match run with
  | Ok embeddings => Ok embeddings
  | Throw _ => Throw (Error "Failed to generate embeddings")
  end.

End EmbeddingProvider.

(** ** The BM25 index ([lib/bm25.ts]) *)

Module BM25.

Record BM25Document : Type := {
  id : string;
  content : string;
  tokens : list string
}.

Record BM25 : Type := {
  documents : list BM25Document;
  avgDocLength : number;
  docFrequencies : gmap string nat
}.

Definition k1 : number := Num 1.5.
Definition b : number := Num 0.75.

Definition tokenize (text : string) : list string :=
  List.filter (fun token => (2 <? String.length token)%nat)
    (Str.splitWhitespace false (Str.replacePunctuation (Str.toLowerCase text))).

(** [termDocCount.get(term).add(doc.id)], with the set created on the
    first use of the term. *)
Definition addTermDoc (docId : string) (termDocCount : gmap string (gset string))
  (term : string) : gmap string (gset string) :=
  <[term := {[docId]} ∪ default ∅ (termDocCount !! term)]> termDocCount.

Definition calculateDocFrequencies (docs : list BM25Document) : gmap string nat :=
  let termDocCount :=
    fold_left
      (fun termDocCount doc =>
         let uniqueTerms := remove_dups (tokens doc) in
         fold_left (addTermDoc (id doc)) uniqueTerms termDocCount)
      docs ∅ in
  size <$> termDocCount.

(** The constructor. *)
Definition new (docs : list (string * string)) : BM25 :=
  let documents :=
    List.map (fun doc => {| id := fst doc; content := snd doc;
                            tokens := tokenize (snd doc) |}) docs in
  let totalLength :=
    fold_left (fun sum doc => (sum + length (tokens doc))%nat) documents 0%nat in
  {| documents := documents;
     avgDocLength := (Number.of_nat totalLength / Number.of_nat (length documents))%num;
     docFrequencies := calculateDocFrequencies documents |}.

Definition idf (self : BM25) (term : string) : number :=
  let docFreq := default 0%nat (docFrequencies self !! term) in
  let N := length (documents self) in
  Math.log ((Number.of_nat N - Number.of_nat docFreq + Num 0.5)
            / (Number.of_nat docFreq + Num 0.5) + Num 1)%num.

Definition termFrequency (docTokens : list string) (queryTerm : string) : nat :=
  length (List.filter (fun t => String.eqb t queryTerm) docTokens).

(** What one query term adds to the score. *)
Definition termScore (self : BM25) (termFreq : nat) (queryTerm : string)
  (docLength : number) : number :=
  let idfScore := idf self queryTerm in
  let lengthNorm := (docLength / avgDocLength self)%num in
  let numerator := (Number.of_nat termFreq * (k1 + Num 1))%num in
  let denominator :=
    (Number.of_nat termFreq + k1 * (Num 1 - b + b * lengthNorm))%num in
  (idfScore * (numerator / denominator))%num.

Definition score (self : BM25) (docTokens queryTokens : list string)
  (docLength : number) : number :=
  fold_left
    (fun score queryTerm =>
       let termFreq := termFrequency docTokens queryTerm in
       if (termFreq =? 0)%nat then score
       else (score + termScore self termFreq queryTerm docLength)%num)
    queryTokens (Num 0).

(** [search]; [topK] is the caller's, 10 when the caller gives none. *)
Definition search (self : BM25) (query : string) (topK : Z) : list (string * number) :=
  let queryTokens := tokenize query in
  let scores :=
    List.map
      (fun doc => (id doc, score self (tokens doc) queryTokens
                             (Number.of_nat (length (tokens doc)))))
      (documents self) in
  List.filter (fun result => (snd result >? Num 0)%num)
    (Array.slice0
       (Array.sort (fun a b => (snd b - snd a)%num) scores) topK).

End BM25.

(** ** The document store ([lib/documentStore.ts]) *)

Module DocumentChunk.
Record DocumentChunk : Type := {
  id : string;
  documentId : string;
  documentTitle : string;
  content : string;
  embedding : list number;
  chunkIndex : Z
}.
End DocumentChunk.
Abbreviation DocumentChunk := DocumentChunk.DocumentChunk.

Module Document.
Record Document : Type := {
  id : string;
  title : string;
  content : string;
  fileType : string;
  uploadedAt : Z;
  chunks : list DocumentChunk
}.
End Document.
Abbreviation Document := Document.Document.

Record SearchResult : Type := {
  chunk : DocumentChunk;
  score : number;
  vectorScore : number;
  keywordScore : number;
  explanation : string
}.

(** A JavaScript [Map] with string keys: the entries in insertion order,
    no key twice. *)
Module JsMap.

Definition t (V : Type) : Type := list (string * V).

Fixpoint get {V : Type} (m : t V) (key : string) : option V :=
  match m with
  | [] => None
  | (k, v) :: m' => if String.eqb k key then Some v else get m' key
  end.

Definition has {V : Type} (m : t V) (key : string) : bool :=
  match get m key with
  | Some _ => true
  | None => false
  end.

(** [m.set(key, value)]: a key already there keeps its place. *)
Fixpoint set {V : Type} (m : t V) (key : string) (value : V) : t V :=
  match m with
  | [] => [(key, value)]
  | (k, v) :: m' =>
      if String.eqb k key then (k, value) :: m'
      else (k, v) :: set m' key value
  end.

(** [m.delete(key)]: the map without the key; the result of the call is
    [has m key]. *)
Fixpoint delete {V : Type} (m : t V) (key : string) : t V :=
  match m with
  | [] => []
  | (k, v) :: m' => if String.eqb k key then m' else (k, v) :: delete m' key
  end.

Definition values {V : Type} (m : t V) : list V := List.map snd m.

Definition size {V : Type} (m : t V) : nat := length m.

End JsMap.

(** The store: its document map, and the calls of [saveDocuments] it has
    made (the array each call was given, the latest first). *)
Record DocumentStore : Type := {
  documents : JsMap.t Document;
  saved : list (list Document)
}.

Module Store.

(** [saveDocuments(Array.from(this.documents.values()))]; a failure of
    the write is caught and logged inside [saveDocuments]. *)
Definition persist (self : DocumentStore) : DocumentStore :=
  {| documents := documents self;
     saved := JsMap.values (documents self) :: saved self |}.

(** [initialize], given what [loadDocuments] reads from the disk. *)
Definition initialize (self : DocumentStore) (loaded : list Document) : DocumentStore :=
  if (JsMap.size (documents self) =? 0)%nat then
    {| documents :=
         fold_left (fun m doc => JsMap.set m (Document.id doc) doc) loaded
           (documents self);
       saved := saved self |}
  else self.

Definition add (self : DocumentStore) (document : Document) : DocumentStore :=
  persist {| documents := JsMap.set (documents self) (Document.id document) document;
             saved := saved self |}.

Definition get (self : DocumentStore) (id : string) : option Document :=
  JsMap.get (documents self) id.

Definition getAll (self : DocumentStore) : list Document :=
  JsMap.values (documents self).

Definition getAllChunks (self : DocumentStore) : list DocumentChunk :=
  concat (List.map Document.chunks (JsMap.values (documents self))).

Definition delete (self : DocumentStore) (id : string) : bool * DocumentStore :=
  let result := JsMap.has (documents self) id in
  let self' := {| documents := JsMap.delete (documents self) id;
                  saved := saved self |} in
  if result then (result, persist self') else (result, self').

Definition clear (self : DocumentStore) : DocumentStore :=
  persist {| documents := []; saved := saved self |}.

Definition count (self : DocumentStore) : nat := JsMap.size (documents self).

(** The characters with a meaning in a regular expression. *)
Definition isSyntaxCharacter (c : ascii) : bool :=
  existsb (Ascii.eqb c)
    (list_ascii_of_string "\^$.*+?()[]{}|").

Definition isLiteralPattern (pattern : string) : bool :=
  Str.all (fun c => negb (isSyntaxCharacter c)) pattern.

Definition quote : string := String (ascii_of_N 34) EmptyString.

Section RegExp.

(** The regular-expression engine on a pattern that has syntax
    characters: the number of matches of [new RegExp(pattern, 'gi')] in
    the text, or the error of the constructor. *)
Variable regExpMatches : string -> string -> result nat.

(** [text.match(new RegExp(term, 'gi'))], read as the number of matches.
    A term without syntax characters matches itself; the term and the
    text are in lower case here, so the flag [i] adds nothing. *)
Definition matchCount (term textLower : string) : result nat :=
  if isLiteralPattern term then Ok (Str.countMatches term textLower)
  else regExpMatches term textLower.

(** The loop over the query terms, with its two accumulators. *)
Fixpoint keywordLoop (queryTerms : list string) (textLower : string)
  (score : number) (matchedTerms : nat) : result (number * nat) :=
  match queryTerms with
  | [] => Ok (score, matchedTerms)
  | term :: rest =>
      if (String.length term <? 3)%nat then
        keywordLoop rest textLower score matchedTerms
      else
        let* termFreq := matchCount term textLower in
        if (0 <? termFreq)%nat then
          keywordLoop rest textLower
            (score + Math.log (Num 1 + Number.of_nat termFreq))%num
            (S matchedTerms)
        else keywordLoop rest textLower score matchedTerms
  end.

Definition calculateKeywordScore (query text : string) : result number :=
  let queryTerms := Str.splitWhitespace false (Str.toLowerCase query) in
  let textLower := Str.toLowerCase text in
  let* counted := keywordLoop queryTerms textLower (Num 0) 0%nat in
  let '(score, matchedTerms) := counted in
  let coverage :=
    if (0 <? length queryTerms)%nat
    then (Number.of_nat matchedTerms / Number.of_nat (length queryTerms))%num
    else Num 0 in
  Ok (Math.min (Num 1)
        (score / Math.max (Num 1) (Number.of_nat (length queryTerms)) * Num 0.5
         + coverage * Num 0.5))%num.

Definition generateExplanation (vectorScore keywordScore : number)
  (query content : string) : string :=
  let reasons :=
    if (vectorScore >? Num 0.8)%num then ["Very high semantic match"%string]
    else if (vectorScore >? Num 0.6)%num then ["Good semantic relevance"%string]
    else if (vectorScore >? Num 0.4)%num then ["Moderate semantic relevance"%string]
    else [] in
  let reasons :=
    if (keywordScore >? Num 0.5)%num then
      let queryTerms :=
        List.filter (fun t => (3 <=? String.length t)%nat)
          (Str.splitWhitespace false (Str.toLowerCase query)) in
      let matchedTerms :=
        List.filter (fun term => Str.includes (Str.toLowerCase content) term)
          queryTerms in
      if (0 <? length matchedTerms)%nat then
        reasons ++
        [String.append "Contains: "
           (String.append quote
              (String.append
                 (Str.join (String.append quote (String.append ", " quote))
                    (Array.slice0 matchedTerms 2))
                 quote))]
      else reasons
    else reasons in
  if (0 <? length reasons)%nat then Str.join "; " reasons
  else "Related content"%string.

(** The body of the loop of [hybridSearch]: the result pushed for one chunk. *)
Definition scoreChunk (query : string) (queryEmbedding : list number)
  (chunk : DocumentChunk) : result SearchResult :=
  let* vectorScore := cosineSimilarity queryEmbedding (DocumentChunk.embedding chunk) in
  let* keywordScore := calculateKeywordScore query (DocumentChunk.content chunk) in
  let combinedScore := (Num 0.6 * vectorScore + Num 0.4 * keywordScore)%num in
  let explanation :=
    generateExplanation vectorScore keywordScore query (DocumentChunk.content chunk) in
  Ok {| chunk := chunk;
        score := combinedScore;
        vectorScore := vectorScore;
        keywordScore := keywordScore;
        explanation := explanation |}.

(** The loop of [hybridSearch]: it stops at the first chunk that throws. *)
Fixpoint scoreChunks (query : string) (queryEmbedding : list number)
  (allChunks : list DocumentChunk) : result (list SearchResult) :=
  match allChunks with
  | [] => Ok []
  | chunk :: rest =>
      let* r := scoreChunk query queryEmbedding chunk in
      let* results := scoreChunks query queryEmbedding rest in
      Ok (r :: results)
  end.

(** [hybridSearch]; [topK] is the caller's, 3 when the caller gives none. *)
Definition hybridSearch (self : DocumentStore) (query : string)
  (queryEmbedding : list number) (topK : Z) : result (list SearchResult) :=
  let allChunks := getAllChunks self in
  if (length allChunks =? 0)%nat then Ok []
  else
    let* results := scoreChunks query queryEmbedding allChunks in
    Ok (Array.slice0 (Array.sort (fun a b => (score b - score a)%num) results) topK).

End RegExp.

End Store.

(** ** The file parser ([lib/fileParser.ts]) *)

(** An uploaded file: its name, media type and size, and what the two
    readers give for its bytes ([file.text()], and the text [pdf-parse]
    extracts), each of which can fail. *)
Module File.
Record File : Type := {
  name : string;
  type : string;
  size : Z;
  text : result string;
  pdfText : result string
}.
End File.
Abbreviation File := File.File.

Definition parsePDF (file : File) : result string :=
  match File.pdfText file with
  | Ok data => Ok data
  | Throw _ => Throw (Error "Failed to parse PDF file")
  end.

Definition parseText (file : File) : result string :=
  match File.text file with
  | Ok data => Ok data
  | Throw _ => Throw (Error "Failed to parse text file")
  end.

Definition parseFile (file : File) : result string :=
  let fileType := File.type file in
  let fileName := Str.toLowerCase (File.name file) in
  if String.eqb fileType "application/pdf" || Str.endsWith fileName ".pdf" then
    parsePDF file
  else if String.eqb fileType "text/plain" || Str.endsWith fileName ".txt" then
    parseText file
  else if String.eqb fileType "text/markdown" || Str.endsWith fileName ".md" then
    parseText file
  else
    Throw (Error (String.append "Unsupported file type: "
                    (if String.eqb fileType EmptyString then fileName else fileType))).

Definition getFileType (file : File) : string :=
  let fileName := Str.toLowerCase (File.name file) in
  if Str.endsWith fileName ".pdf" then "PDF"%string
  else if Str.endsWith fileName ".txt" then "TXT"%string
  else if Str.endsWith fileName ".md" then "Markdown"%string
  else "Unknown"%string.

(** ** The upload route ([api/upload/route.ts]) *)

Module Upload.

Inductive Body : Type :=
| ErrorBody (error : string)
| DocumentBody (id title fileType : string) (uploadedAt : Z)
    (chunkCount contentLength : Z).

Record Response : Type := {
  status : Z;
  body : Body
}.

Definition errorMessage (e : error) : string :=
  match e with
  | Error message | SyntaxError message => message
  end.

(** The [catch] of the handler. *)
Definition caught (e : error) : Response :=
  {| status := 500;
     body := ErrorBody (if String.eqb (errorMessage e) EmptyString
                        then "Failed to process file"%string
                        else errorMessage e) |}.

Section Route.

Variable embeddingsCreate : list string -> result (list (list number)).

(** [POST]: the file of the form (if any), what [Date.now()],
    [Math.random()] (as the suffix of the document id) and [new Date()]
    give, and the store; [None] when the handler never answers.  Nothing
    throws after [documentStore.add], so a caught error leaves the store
    as it was. *)
Definition POST (formFile : option File) (now : Z) (random : string)
  (uploadedAt : Z) (store : DocumentStore) : option (Response * DocumentStore) :=
  match formFile with
  | None => Some ({| status := 400; body := ErrorBody "No file provided" |}, store)
  | Some file =>
      let maxSize := 10 * 1024 * 1024 in
      if maxSize <? File.size file then
        Some ({| status := 400;
                 body := ErrorBody "File too large. Maximum size is 10MB." |}, store)
      else
        match parseFile file with
        | Throw e => Some (caught e, store)
        | Ok content =>
            if String.eqb content EmptyString || (Str.len (Str.trim content) =? 0) then
              Some ({| status := 400;
                       body := ErrorBody "File appears to be empty or could not be parsed" |},
                    store)
            else
              match chunkText content defaultOptions with
              | None => None
              | Some textChunks =>
                  if (1000 <? length textChunks)%nat then
                    Some ({| status := 400;
                             body := ErrorBody
                               (String.append "File too large: generated "
                                  (String.append (pretty (length textChunks))
                                     " chunks (max 1000). Please upload a smaller file.")) |},
                          store)
                  else
                    let documentId :=
                      String.append "doc_"
                        (String.append (pretty now) (String.append "_" random)) in
                    match generateEmbeddings embeddingsCreate textChunks with
                    | Throw e => Some (caught e, store)
                    | Ok embeddings =>
                        let chunks :=
                          imap
                            (fun index text =>
                               {| DocumentChunk.id :=
                                    String.append documentId
                                      (String.append "_chunk_" (pretty index));
                                  DocumentChunk.documentId := documentId;
                                  DocumentChunk.documentTitle := File.name file;
                                  DocumentChunk.content := text;
                                  DocumentChunk.embedding := nth index embeddings [];
                                  DocumentChunk.chunkIndex := Z.of_nat index |})
                            textChunks in
                        let document :=
                          {| Document.id := documentId;
                             Document.title := File.name file;
                             Document.content := content;
                             Document.fileType := getFileType file;
                             Document.uploadedAt := uploadedAt;
                             Document.chunks := chunks |} in
                        Some ({| status := 200;
                                 body := DocumentBody documentId (File.name file)
                                           (getFileType file) uploadedAt
                                           (Z.of_nat (length chunks))
                                           (Str.len content) |},
                              Store.add store document)
                    end
              end
        end
  end.

End Route.

(** [GET]: the summaries of the stored documents, the [documents] of the
    answer. *)
Definition summary (doc : Document) : Upload.Body :=
  Upload.DocumentBody (Document.id doc) (Document.title doc) (Document.fileType doc)
    (Document.uploadedAt doc) (Z.of_nat (length (Document.chunks doc)))
    (Str.len (Document.content doc)).

Definition GET (store : DocumentStore) : list Upload.Body :=
  List.map summary (Store.getAll store).

End Upload.

(** ** The cancellation endpoint ([api/chat/route.ts]) *)

Module Chat.

(** The registry [activeRequests], and the controllers the server has
    created: a controller is an address, and [aborted] holds the state of
    its signal. *)
Record State : Type := {
  activeRequests : gmap string nat;
  aborted : gmap nat bool
}.

Record Response : Type := {
  body : string;
  status : Z
}.

(** The start of [POST]: [new AbortController()], registered when the
    request id is truthy. *)
Definition register (requestId : string) (st : State) : nat * State :=
  let controller := fresh (dom (aborted st)) in
  (controller,
   {| activeRequests :=
        if String.eqb requestId EmptyString then activeRequests st
        else <[requestId := controller]> (activeRequests st);
      aborted := <[controller := false]> (aborted st) |}).

(** The clean-up of the stream, at its end and at its cancellation by
    the client. *)
Definition cleanup (requestId : string) (st : State) : State :=
  if String.eqb requestId EmptyString then st
  else {| activeRequests := delete requestId (activeRequests st);
          aborted := aborted st |}.

Definition DELETE (requestId : string) (st : State) : Response * State :=
  match activeRequests st !! requestId with
  | Some controller =>
      ({| body := "Request cancelled"; status := 200 |},
       {| activeRequests := delete requestId (activeRequests st);
          aborted := <[controller := true]> (aborted st) |})
  | None => ({| body := "Request not found"; status := 404 |}, st)
  end.

End Chat.

(** * The vocabulary of the statements *)

(** ** Strings and lists *)

(** The string starts with a character that is not whitespace. *)
Definition startsWithText (s : string) : bool :=
  match s with
  | EmptyString => false
  | String c _ => negb (Str.isWhiteSpace c)
  end.

(** No character of the string is whitespace. *)
Definition hasNoWhiteSpace (s : string) : bool :=
  Str.all (fun c => negb (Str.isWhiteSpace c)) s.

(** A list in descending order of a key. *)
Definition descending {A : Type} (key : A -> number) (l : list A) : Prop :=
  StronglySorted (fun a b => (key a >=? key b)%num = true) l.

(** ** Errors and answers *)

(** The error [cosineSimilarity] throws. *)
Definition dimensionMismatch : error := Error "Vectors must have the same length".

(** The two answers of the cancellation endpoint. *)
Definition notFound : Chat.Response :=
  {| Chat.body := "Request not found"; Chat.status := 404 |}.

Definition cancelled : Chat.Response :=
  {| Chat.body := "Request cancelled"; Chat.status := 200 |}.

(** ** The keyword score as a formula *)

(** The terms of a query, as [calculateKeywordScore] splits them. *)
Definition queryTerms (query : string) : list string :=
  Str.splitWhitespace false (Str.toLowerCase query).

(** The matches counted for a term that has no syntax characters: a term
    shorter than 3 characters is skipped. *)
Definition termMatches (text term : string) : nat :=
  if (String.length term <? 3)%nat then 0%nat
  else Str.countMatches term (Str.toLowerCase text).

(** The terms that are compiled to a regular expression have no syntax
    characters. *)
Definition literalTerms (terms : list string) : Prop :=
  forall term, In term terms -> (3 <= String.length term)%nat ->
               Store.isLiteralPattern term = true.

Section Formulas.

Local Open Scope R_scope.

(** [ln(1 + freq)] summed over the frequencies. *)
Definition sumLog (freqs : list nat) : R :=
  fold_right (fun freq acc => ln (1 + INR freq) + acc) 0 freqs.

(** The number of frequencies that are not 0. *)
Definition countMatched (freqs : list nat) : nat :=
  length (List.filter (fun freq => (0 <? freq)%nat) freqs).

(** The keyword score of the code as a formula: [n] is the number of all
    the terms of the query. *)
Definition keywordFormula (query text : string) : R :=
  let freqs := List.map (termMatches text) (queryTerms query) in
  let n := INR (length (queryTerms query)) in
  Rmin 1 (sumLog freqs / Rmax 1 n * 0.5 + INR (countMatched freqs) / n * 0.5).

(** ** The BM25 score as a formula *)

(** What a query term with frequency [tf] adds to the score, in an index
    where the term has the inverse document frequency [i] and the chunk
    the length norm [l]. *)
Definition contribution (i l : R) (tf : nat) : R :=
  if (tf =? 0)%nat then 0
  else i * (INR tf * (1.5 + 1) / (INR tf + 1.5 * (1 - 0.75 + 0.75 * l))).

(** The inverse document frequency of a term in the index of [docs]. *)
Definition idfValue (docs : list (string * string)) (term : string) : R :=
  let docFreq := INR (default 0%nat (BM25.docFrequencies (BM25.new docs) !! term)) in
  let N := INR (length (BM25.documents (BM25.new docs))) in
  ln ((N - docFreq + 0.5) / (docFreq + 0.5) + 1).

(** The score of a chunk with the length norm [l] as a sum. *)
Definition scoreValue (docs : list (string * string)) (l : R)
  (docTokens queryTokens : list string) : R :=
  fold_right
    (fun queryTerm acc =>
       contribution (idfValue docs queryTerm) l
         (BM25.termFrequency docTokens queryTerm) + acc)
    0 queryTokens.

End Formulas.

(** The documents recorded for a term. *)
Definition setOf (termDocCount : gmap string (gset string)) (term : string) : gset string :=
  default ∅ (termDocCount !! term).

(** Some query term occurs in the chunk. *)
Definition hasQueryTerm (docTokens queryTokens : list string) : bool :=
  existsb (fun queryTerm => negb (BM25.termFrequency docTokens queryTerm =? 0)%nat)
    queryTokens.

(** The occurrences of a pattern in a string: the positions at which it
    starts. *)
Fixpoint countOccurrences (pattern s : string) : nat :=
  ((if String.prefix pattern s then 1 else 0) +
   match s with
   | EmptyString => 0
   | String _ s' => countOccurrences pattern s'
   end)%nat.

(** The keyword score in the words of the specification: the query is
    tokenized by the rule of the BM25 index, each token's occurrences in
    the text are counted without regard to case, [ln(1 + occurrences)]
    is accumulated, and the score is
    [min(1, (accumulated / max(1, numQueryTokens)) * 0.5 + fraction * 0.5)]
    with [fraction] the share of the tokens that occur. *)
Definition specKeywordScore (query text : string) : number :=
  let tokens := BM25.tokenize query in
  let numQueryTokens := length tokens in
  let occurrences :=
    List.map
      (fun token =>
         if (3 <=? String.length token)%nat
         then countOccurrences token (Str.toLowerCase text) else 0%nat)
      tokens in
  let accumulatedScore :=
    fold_left (fun acc occ => (acc + Math.log (Num 1 + Number.of_nat occ))%num)
      occurrences (Num 0) in
  let matched := length (List.filter (fun occ => (0 <? occ)%nat) occurrences) in
  let fraction :=
    if (numQueryTokens =? 0)%nat then Num 0
    else (Number.of_nat matched / Number.of_nat numQueryTokens)%num in
  Math.min (Num 1)
    (accumulatedScore / Math.max (Num 1) (Number.of_nat numQueryTokens) * Num 0.5
     + fraction * Num 0.5)%num.

(** ** Sample data *)

(** A store with one document, and a registry with one request. *)
Definition sampleDocument : Document :=
  {| Document.id := "doc_1"; Document.title := "notes.txt";
     Document.content := "hello"; Document.fileType := "TXT";
     Document.uploadedAt := 0; Document.chunks := [] |}.

Definition sampleStore : DocumentStore :=
  Store.add {| documents := []; saved := [] |} sampleDocument.

Definition sampleSession : Chat.State :=
  snd (Chat.register "req-1" {| Chat.activeRequests := ∅; Chat.aborted := ∅ |}).

(** A large text: [s] doubled [k] times. *)
Fixpoint doubled (k : nat) (s : string) : string :=
  match k with
  | O => s
  | S k' => String.append (doubled k' s) (doubled k' s)
  end.

(** A text file of 2^20 letters. *)
Definition largeText : string := doubled 20 "a".

Definition largeFile : File :=
  {| File.name := "large.txt"; File.type := "text/plain"; File.size := 1048576;
     File.text := Ok largeText; File.pdfText := Throw (Error "not a PDF") |}.

(** A chunk with the text "abc" and a one-dimensional embedding. *)
Definition chunkAt (index : Z) (x : R) : DocumentChunk :=
  {| DocumentChunk.id := String.append "doc_1_chunk_" (pretty index);
     DocumentChunk.documentId := "doc_1";
     DocumentChunk.documentTitle := "abc.txt";
     DocumentChunk.content := "abc";
     DocumentChunk.embedding := [Num x];
     DocumentChunk.chunkIndex := index |}.

(** What [hybridSearch] pushes for such a chunk on the query "zzz". *)
Definition resultAt (index : Z) (x : R) (vectorScore : number) : SearchResult :=
  {| chunk := chunkAt index x;
     score := (Num 0.6 * vectorScore + Num 0.4 * Num 0)%num;
     vectorScore := vectorScore;
     keywordScore := Num 0;
     explanation := Store.generateExplanation vectorScore (Num 0) "zzz" "abc" |}.

(** A store with one document made of the given chunks. *)
Definition storeOf (chunks : list DocumentChunk) : DocumentStore :=
  {| documents :=
       [("doc_1"%string,
         {| Document.id := "doc_1"; Document.title := "abc.txt";
            Document.content := "abc"; Document.fileType := "TXT";
            Document.uploadedAt := 0; Document.chunks := chunks |})];
     saved := [] |}.

(** A corpus whose second chunk has the zero vector as its embedding. *)
Definition zeroVectorStore : DocumentStore :=
  storeOf [chunkAt 0 (-1); chunkAt 1 0; chunkAt 2 1; chunkAt 3 1].

(** A corpus of two chunks with opposite embeddings. *)
Definition twoChunkStore : DocumentStore :=
  storeOf [chunkAt 0 (-1); chunkAt 1 1].

(** An index of two chunks of two tokens each. *)
Definition twoChunkCorpus : list (string * string) :=
  [("A"%string, "aaa bbb"%string); ("B"%string, "aaa aaa"%string)].

(** ** Normalized text *)

(** Every whitespace character of the string is a space, and no two
    spaces are adjacent; [afterSpace] tells whether a space precedes the
    string. *)
Fixpoint singleSpaced (afterSpace : bool) (s : string) : bool :=
  match s with
  | EmptyString => true
  | String c s' =>
      if Str.isWhiteSpace c
      then Ascii.eqb c " " && negb afterSpace && singleSpaced true s'
      else singleSpaced false s'
  end.

(** A chunk as the chunker returns it: not empty, within the size limit,
    with nothing to trim and single spaces only. *)
Definition wellShaped (maxChunkSize : Z) (chunk : string) : Prop :=
  0 < Str.len chunk <= maxChunkSize
  /\ Str.trim chunk = chunk
  /\ singleSpaced false chunk = true.

(** The character at position [p] of the text lies in a chunk: some
    chunk is the trimmed text of a window that holds the position. *)
Definition covered (s : string) (chunks : list string) (p : nat) : Prop :=
  exists a b : Z,
    a <= Z.of_nat p < b /\ In (Str.trim (Str.substring s a b)) chunks.

(** ** Vectors of reals *)

Section Vectors.

Local Open Scope R_scope.

(** An embedding whose coordinates are all finite. *)
Definition vector (u : list R) : list number := List.map Num u.

(** The sum of the products of the coordinates. *)
Definition dot (u v : list R) : R :=
  fold_right (fun p acc => fst p * snd p + acc) 0 (combine u v).

End Vectors.

(** ** Tokens *)

(** The characters of a token: the digits, the underscore and the
    letters a to z. *)
Definition isTokenChar (c : ascii) : bool :=
  let n := Str.code c in
  ((48 <=? n) && (n <=? 57) || (n =? 95) || (97 <=? n) && (n <=? 122))%N.

(** The score [search] gives a document of the index. *)
Definition scoreOf (self : BM25.BM25) (query : string) (doc : BM25.BM25Document)
  : number :=
  BM25.score self (BM25.tokens doc) (BM25.tokenize query)
    (Number.of_nat (length (BM25.tokens doc))).

(** ** The catalog *)

(** No key is twice in the map. *)
Definition keysUnique {V : Type} (m : JsMap.t V) : Prop :=
  List.NoDup (List.map fst m).

(** ** Uploads *)

(** The parts of the document [POST] stores: its id, its chunks and the
    record. *)
Definition documentIdOf (now : Z) (random : string) : string :=
  String.append "doc_" (String.append (pretty now) (String.append "_" random)).

Definition chunksOf (documentId title : string) (textChunks : list string)
  (embeddings : list (list number)) : list DocumentChunk :=
  imap
    (fun index text =>
       {| DocumentChunk.id :=
            String.append documentId (String.append "_chunk_" (pretty index));
          DocumentChunk.documentId := documentId;
          DocumentChunk.documentTitle := title;
          DocumentChunk.content := text;
          DocumentChunk.embedding := nth index embeddings [];
          DocumentChunk.chunkIndex := Z.of_nat index |})
    textChunks.

Definition documentOf (file : File) (documentId content : string) (uploadedAt : Z)
  (chunks : list DocumentChunk) : Document :=
  {| Document.id := documentId;
     Document.title := File.name file;
     Document.content := content;
     Document.fileType := getFileType file;
     Document.uploadedAt := uploadedAt;
     Document.chunks := chunks |}.

(** The media types [parseFile] knows. *)
Definition knownMediaType (type : string) : bool :=
  String.eqb type "application/pdf" || String.eqb type "text/plain"
  || String.eqb type "text/markdown".

(** ** Sessions *)

(** Every registered controller is one the server has created. *)
Definition controllersKnown (st : Chat.State) : Prop :=
  forall (requestId : string) (controller : nat),
    Chat.activeRequests st !! requestId = Some controller ->
    is_Some (Chat.aborted st !! controller).

(** What the handlers do to the registry and the controllers, one call
    at a time: the start of a [POST], the clean-up of a stream, and a
    [DELETE]. *)
Inductive sessionCall : Type :=
| Registers (requestId : string)
| CleansUp (requestId : string)
| Deletes (requestId : string).

Definition afterCall (st : Chat.State) (call : sessionCall) : Chat.State :=
  match call with
  | Registers requestId => snd (Chat.register requestId st)
  | CleansUp requestId => Chat.cleanup requestId st
  | Deletes requestId => snd (Chat.DELETE requestId st)
  end.

(** The state after a sequence of calls. *)
Definition afterCalls (calls : list sessionCall) (st : Chat.State) : Chat.State :=
  fold_left afterCall calls st.

(** ** Further sample data *)

(** A text of 64 sentences, 2432 characters long. *)
Definition sampleText : string :=
  doubled 6 "abcdefghi. ABCDEFGHI abcdefghi ABCDEF ".

(** The options of the small examples. *)
Definition smallOptions : ChunkOptions :=
  {| maxChunkSize := Some 12; overlapSize := Some 4 |}.

(** An embedding service that answers a batch of 1 to 100 inputs with the
    vector [[Num 1]] for each input, and refuses every other batch. *)
Definition unitService (batch : list string) : result (list (list number)) :=
  if ((1 <=? length batch) && (length batch <=? 100))%nat
  then Ok (List.map (fun _ => [Num 1]) batch)
  else Throw (Error "batch size").

(** A text file with the content "hello". *)
Definition helloFile : File :=
  {| File.name := "a.txt"; File.type := "text/plain"; File.size := 5;
     File.text := Ok "hello"; File.pdfText := Throw (Error "not a PDF") |}.

(** The store and the registry at the start of the server. *)
Definition emptyStore : DocumentStore := {| documents := []; saved := [] |}.

Definition noSession : Chat.State :=
  {| Chat.activeRequests := ∅; Chat.aborted := ∅ |}.

(** ** Tactics *)

(** Decide the comparisons of reals in the goal, one case each. *)
Ltac decide_reals :=
  repeat match goal with
    | |- context [Rlt_dec ?x ?y] => destruct (Rlt_dec x y)
    | |- context [Rle_dec ?x ?y] => destruct (Rle_dec x y)
    | |- context [Req_dec_T ?x ?y] => destruct (Req_dec_T x y)
    | H : context [Rlt_dec ?x ?y] |- _ => destruct (Rlt_dec x y)
    | H : context [Rle_dec ?x ?y] |- _ => destruct (Rle_dec x y)
    | H : context [Req_dec_T ?x ?y] |- _ => destruct (Req_dec_T x y)
    end.

(** Case analysis on numbers. *)
Ltac number_cases :=
  repeat match goal with
    | a : number |- _ => destruct a as [?|[|]|]
    end;
  simpl in *; try congruence; decide_reals; try congruence; try lra.

(** * Properties *)

(** ** Strings *)

Lemma trimEnd_starts (s : string) :
  startsWithText s = true -> startsWithText (Str.trimEnd s) = true.
Proof.
  destruct s as [|c s]; simpl; [discriminate|].
  intros Hc. destruct (Str.trimEnd s); simpl.
  - destruct (Str.isWhiteSpace c) eqn:E; [discriminate|]. simpl. now rewrite E.
  - exact Hc.
Qed.

Lemma trimStart_blank (s : string) :
  Str.all Str.isWhiteSpace s = true -> Str.trimStart s = EmptyString.
Proof.
  induction s as [|c s IH]; simpl; [reflexivity|].
  destruct (Str.isWhiteSpace c); simpl; [exact IH | discriminate].
Qed.

Lemma trimStart_starts (s : string) :
  Str.all Str.isWhiteSpace s = false -> startsWithText (Str.trimStart s) = true.
Proof.
  induction s as [|c s IH]; simpl; [discriminate|].
  destruct (Str.isWhiteSpace c) eqn:Hc; simpl; [exact IH|].
  intros _. now rewrite Hc.
Qed.

Lemma trimStart_text (s : string) :
  startsWithText s = true -> Str.trimStart s = s.
Proof.
  destruct s as [|c s]; simpl; [reflexivity|].
  destruct (Str.isWhiteSpace c); [discriminate | reflexivity].
Qed.

Lemma starts_not_empty (s : string) : startsWithText s = true -> s <> EmptyString.
Proof. destruct s; simpl; [discriminate | intros _; discriminate]. Qed.

Lemma trim_blank (s : string) :
  Str.all Str.isWhiteSpace s = true -> Str.trim s = EmptyString.
Proof. intros H. unfold Str.trim. now rewrite trimStart_blank. Qed.

Lemma trim_starts (s : string) :
  Str.all Str.isWhiteSpace s = false -> startsWithText (Str.trim s) = true.
Proof. intros H. apply trimEnd_starts, trimStart_starts, H. Qed.

(** [trim] leaves the empty string exactly on the strings of whitespace. *)
Lemma trim_empty_iff (s : string) :
  Str.trim s = EmptyString <-> Str.all Str.isWhiteSpace s = true.
Proof.
  split; [|apply trim_blank].
  intros H. destruct (Str.all Str.isWhiteSpace s) eqn:Hs; [reflexivity|].
  apply trim_starts, starts_not_empty in Hs. contradiction.
Qed.

Lemma replaceWhitespaceRuns_blank (inRun : bool) (s : string) :
  Str.all Str.isWhiteSpace (Str.replaceWhitespaceRuns inRun s)
  = Str.all Str.isWhiteSpace s.
Proof.
  revert inRun. induction s as [|c s IH]; intros inRun; simpl; [reflexivity|].
  destruct (Str.isWhiteSpace c) eqn:Hc; simpl.
  - destruct inRun; simpl; apply IH.
  - rewrite Hc. reflexivity.
Qed.

Lemma normalize_empty_iff (text : string) :
  normalize text = EmptyString <-> Str.trim text = EmptyString.
Proof.
  unfold normalize. rewrite !trim_empty_iff, replaceWhitespaceRuns_blank. tauto.
Qed.

Lemma normalize_starts (text : string) :
  Str.trim text <> EmptyString -> startsWithText (normalize text) = true.
Proof.
  intros H. apply trim_starts. rewrite replaceWhitespaceRuns_blank.
  destruct (Str.all Str.isWhiteSpace text) eqn:Hs; [|reflexivity].
  apply trim_blank in Hs. contradiction.
Qed.

Lemma len_zero_iff (s : string) : Str.len s = 0 <-> s = EmptyString.
Proof.
  unfold Str.len. destruct s; simpl; split; intros H; try reflexivity;
    try discriminate; lia.
Qed.

Lemma len_nonneg (s : string) : 0 <= Str.len s.
Proof. unfold Str.len. lia. Qed.

Lemma substring_starts (s : string) (e : Z) :
  startsWithText s = true -> 0 < e -> startsWithText (Str.substring s 0 e) = true.
Proof.
  destruct s as [|c s]; simpl; [discriminate|].
  intros Hc He. unfold Str.substring, Str.len. simpl String.length.
  set (n := String.length s).
  replace (Z.max 0 (Z.min 0 (Z.of_nat (S n)))) with 0 by lia.
  remember (Z.max 0 (Z.min e (Z.of_nat (S n)))) as e' eqn:He'.
  assert (0 < e') by lia.
  replace (Z.min 0 e') with 0 by lia. replace (Z.max 0 e') with e' by lia.
  replace (Z.to_nat (e' - 0)) with (S (Z.to_nat (e' - 1))) by lia.
  simpl. exact Hc.
Qed.

(** The guard at the head of [chunkText]. *)
Lemma chunkText_guard (text : string) :
  (String.eqb text EmptyString || (Str.len (Str.trim text) =? 0)) = true
  <-> Str.trim text = EmptyString.
Proof.
  rewrite orb_true_iff, String.eqb_eq, Z.eqb_eq, len_zero_iff.
  split; [|tauto]. intros [->|H]; [reflexivity | exact H].
Qed.

(** ** The chunker *)

Lemma chunkEnd_advances (s : string) (maxChunkSize startIndex : Z) :
  0 < maxChunkSize -> startIndex < Str.len s ->
  startIndex < chunkEnd s maxChunkSize startIndex.
Proof.
  intros Hmax Hlt. unfold chunkEnd.
  destruct (startIndex + maxChunkSize <? Str.len s) eqn:Hend; [|exact Hlt].
  match goal with |- context [0 <? ?x] => destruct (0 <? x) eqn:Hp end; lia.
Qed.

Lemma nextStartIndex_advances (overlapSize startIndex endIndex : Z) :
  startIndex < endIndex ->
  startIndex < nextStartIndex overlapSize startIndex endIndex.
Proof.
  intros H. unfold nextStartIndex.
  destruct (endIndex - overlapSize <=? startIndex) eqn:Hn; lia.
Qed.

(** When the overlap would not move the start forward, the next start is
    the end of the chunk. *)
Lemma nextStartIndex_fallback (overlapSize startIndex endIndex : Z) :
  endIndex - overlapSize <= startIndex ->
  nextStartIndex overlapSize startIndex endIndex = endIndex.
Proof.
  intros H. unfold nextStartIndex.
  destruct (endIndex - overlapSize <=? startIndex) eqn:Hn; lia.
Qed.

Lemma chunkStep_advances (s : string) (maxChunkSize overlapSize startIndex : Z)
  (chunks : list string) :
  0 < maxChunkSize -> startIndex < Str.len s ->
  startIndex < fst (chunkStep s maxChunkSize overlapSize startIndex chunks).
Proof.
  intros Hmax Hlt. unfold chunkStep. simpl.
  apply nextStartIndex_advances, chunkEnd_advances; assumption.
Qed.

(** The loop ends within one iteration per character left after the
    start index. *)
Lemma chunkLoop_returns (fuel : nat) (s : string) (maxChunkSize overlapSize : Z) :
  0 < maxChunkSize ->
  forall (startIndex : Z) (chunks : list string),
    Str.len s - startIndex <= Z.of_nat fuel ->
    exists result, chunkLoop fuel s maxChunkSize overlapSize startIndex chunks = Some result.
Proof.
  intros Hmax. induction fuel as [|fuel IH]; intros startIndex chunks Hfuel;
    cbn [chunkLoop].
  - destruct (startIndex <? Str.len s) eqn:Hlt; [lia | eauto].
  - destruct (startIndex <? Str.len s) eqn:Hlt; [|eauto].
    apply Z.ltb_lt in Hlt.
    pose proof (chunkStep_advances s maxChunkSize overlapSize startIndex chunks Hmax Hlt) as Hadv.
    destruct (chunkStep s maxChunkSize overlapSize startIndex chunks) as [startIndex' chunks'].
    simpl in Hadv. apply IH. lia.
Qed.

(** The loop only pushes: what it returns extends what it was given. *)
Lemma chunkLoop_extends (fuel : nat) (s : string) (maxChunkSize overlapSize : Z) :
  forall (startIndex : Z) (chunks result : list string),
    chunkLoop fuel s maxChunkSize overlapSize startIndex chunks = Some result ->
    exists pushed, result = chunks ++ pushed.
Proof.
  induction fuel as [|fuel IH]; intros startIndex chunks result; simpl.
  - destruct (startIndex <? Str.len s); [discriminate|].
    intros [= <-]. exists []. now rewrite app_nil_r.
  - destruct (startIndex <? Str.len s).
    + unfold chunkStep.
      match goal with |- context [if ?c then _ else _] => destruct c end;
        intros H; apply IH in H; destruct H as [pushed ->].
      * rewrite <- app_assoc. eauto.
      * eauto.
    + intros [= <-]. exists []. now rewrite app_nil_r.
Qed.

(** C3.  A text whose normalized form (whitespace runs collapsed to one
    space, then trimmed) is not empty and is no longer than
    [maxChunkSize] is returned as the single chunk that is its
    normalized form. *)
Theorem chunkText_short_text_single_chunk (text : string) (options : ChunkOptions) :
  normalize text <> EmptyString ->
  Str.len (normalize text) <= default 1000 (maxChunkSize options) ->
  chunkText text options = Some [normalize text].
Proof.
  intros Hne Hlen. unfold chunkText, chunkTextWith.
  destruct (String.eqb text EmptyString || (Str.len (Str.trim text) =? 0)) eqn:Hguard.
  - apply chunkText_guard, normalize_empty_iff in Hguard. contradiction.
  - apply Z.leb_le in Hlen. now rewrite Hlen.
Qed.

Lemma chunkText_short_text_single_chunk_witness :
  chunkText "  hello   world  " defaultOptions = Some ["hello world"%string].
Proof.
  apply (chunkText_short_text_single_chunk "  hello   world  " defaultOptions).
  - vm_compute. discriminate.
  - vm_compute. discriminate.
Defined.

(** With a positive [maxChunkSize] the fuel [chunkText] gives its loop is
    enough. *)
Lemma chunkText_returns (text : string) (options : ChunkOptions) :
  0 < default 1000 (maxChunkSize options) ->
  exists chunks, chunkText text options = Some chunks.
Proof.
  intros Hmax. unfold chunkText, chunkTextWith.
  destruct (String.eqb text EmptyString || (Str.len (Str.trim text) =? 0)); [eauto|].
  destruct (Str.len (normalize text) <=? default 1000 (maxChunkSize options)); [eauto|].
  apply chunkLoop_returns; [exact Hmax|]. unfold Str.len. lia.
Qed.

(** C4.  With a positive [maxChunkSize] and a non-negative [overlapSize]
    [chunkText] returns, and every iteration of its loop moves the start
    index strictly forward: the next start is [end - overlapSize] when
    that is past the current start, and it is [end], which lies after
    the current start, otherwise. *)
Theorem chunkText_terminates (text : string) (options : ChunkOptions) :
  0 < default 1000 (maxChunkSize options) ->
  0 <= default 200 (overlapSize options) ->
  (exists chunks, chunkText text options = Some chunks)
  /\ (forall (s : string) (startIndex : Z) (chunks : list string),
        startIndex < Str.len s ->
        let endIndex := chunkEnd s (default 1000 (maxChunkSize options)) startIndex in
        let next :=
          fst (chunkStep s (default 1000 (maxChunkSize options))
                 (default 200 (overlapSize options)) startIndex chunks) in
        startIndex < next
        /\ (endIndex - default 200 (overlapSize options) <= startIndex -> next = endIndex)).
Proof.
  intros Hmax _. split.
  - apply chunkText_returns, Hmax.
  - intros s startIndex chunks Hlt. simpl. split.
    + apply (chunkStep_advances s _ _ startIndex chunks Hmax Hlt).
    + apply nextStartIndex_fallback.
Qed.

Lemma chunkText_terminates_witness :
  exists chunks,
    chunkText "aaa. bbb. ccc. ddd. eee. fff"
      {| maxChunkSize := Some 10; overlapSize := Some 3 |} = Some chunks.
Proof.
  apply (chunkText_terminates "aaa. bbb. ccc. ddd. eee. fff"
           {| maxChunkSize := Some 10; overlapSize := Some 3 |}); simpl; lia.
Defined.

(** C5, the input on which the claim fails: a string of one space is not
    empty, and [chunkText] returns no chunk for it. *)
Lemma chunkText_blank_input_no_chunk :
  String.length " " = 1%nat /\ chunkText " " defaultOptions = Some [].
Proof. split; reflexivity. Qed.

(** A text with a character that is not whitespace has a first chunk. *)
Lemma chunkText_some_chunk (text : string) (options : ChunkOptions) :
  Str.trim text <> EmptyString ->
  0 < default 1000 (maxChunkSize options) ->
  exists chunk chunks, chunkText text options = Some (chunk :: chunks).
Proof.
  intros Htext Hmax. unfold chunkText, chunkTextWith.
  destruct (String.eqb text EmptyString || (Str.len (Str.trim text) =? 0)) eqn:Hguard.
  { apply chunkText_guard in Hguard. contradiction. }
  set (s := normalize text).
  set (m := default 1000 (maxChunkSize options)) in *.
  set (o := default 200 (overlapSize options)).
  destruct (Str.len s <=? m) eqn:Hshort; [eauto|].
  apply Z.leb_gt in Hshort.
  assert (Hstart : startsWithText s = true) by (apply normalize_starts, Htext).
  destruct (String.length s) as [|fuel] eqn:Hfuel.
  { unfold Str.len in Hshort. rewrite Hfuel in Hshort. simpl in Hshort. lia. }
  simpl. replace (0 <? Str.len s) with true by (symmetry; apply Z.ltb_lt; lia).
  unfold chunkStep.
  assert (Hend : 0 < chunkEnd s m 0) by (apply chunkEnd_advances; lia).
  pose proof (substring_starts s _ Hstart Hend) as Hsub.
  assert (Hchunk : startsWithText (Str.trim (Str.substring s 0 (chunkEnd s m 0))) = true).
  { unfold Str.trim. rewrite trimStart_text by exact Hsub.
    apply trimEnd_starts, Hsub. }
  destruct (Str.trim (Str.substring s 0 (chunkEnd s m 0))) as [|c rest] eqn:Htrim;
    [discriminate|].
  replace (0 <? Str.len (String c rest)) with true
    by (symmetry; apply Z.ltb_lt; unfold Str.len; simpl; lia).
  simpl app.
  destruct (chunkLoop_returns fuel s m o Hmax
              (nextStartIndex o 0 (chunkEnd s m 0)) [String c rest]) as [result Hresult].
  { pose proof (nextStartIndex_advances o 0 _ Hend). unfold Str.len. rewrite Hfuel. lia. }
  rewrite Hresult.
  apply chunkLoop_extends in Hresult. destruct Hresult as [pushed ->]. simpl. eauto.
Qed.

(** An empty or all-whitespace text has no chunk, whatever the options. *)
Lemma chunkText_blank (text : string) (options : ChunkOptions) :
  text = EmptyString \/ Str.all Str.isWhiteSpace text = true ->
  chunkText text options = Some [].
Proof.
  intros Hblank.
  assert (Htrim : Str.trim text = EmptyString).
  { destruct Hblank as [-> | Hall]; [reflexivity | now apply trim_blank]. }
  unfold chunkText, chunkTextWith.
  now rewrite (proj2 (chunkText_guard text) Htrim).
Qed.

(** C5, as amended.  For every text with a character that is not
    whitespace (the texts that [trim] does not empty, see
    [trim_empty_iff]), and a positive [maxChunkSize], [chunkText]
    returns at least one chunk; for every text that is empty or all
    whitespace it returns the empty list, whatever the options. *)
Theorem chunkText_nonblank_input_some_chunk (text : string) (options : ChunkOptions) :
  (Str.trim text <> EmptyString ->
   0 < default 1000 (maxChunkSize options) ->
   exists chunk chunks, chunkText text options = Some (chunk :: chunks))
  /\ (text = EmptyString \/ Str.all Str.isWhiteSpace text = true ->
      chunkText text options = Some []).
Proof.
  split; [apply chunkText_some_chunk | apply chunkText_blank].
Qed.

Lemma chunkText_nonblank_input_some_chunk_witness :
  (exists chunk chunks,
     chunkText "aaa. bbb. ccc. ddd. eee. fff"
       {| maxChunkSize := Some 10; overlapSize := Some 3 |} = Some (chunk :: chunks))
  /\ chunkText "   " {| maxChunkSize := Some 10; overlapSize := Some 3 |} = Some [].
Proof.
  split.
  - apply (proj1 (chunkText_nonblank_input_some_chunk "aaa. bbb. ccc. ddd. eee. fff"
                    {| maxChunkSize := Some 10; overlapSize := Some 3 |})).
    + vm_compute. discriminate.
    + simpl. lia.
  - apply (proj2 (chunkText_nonblank_input_some_chunk "   "
                    {| maxChunkSize := Some 10; overlapSize := Some 3 |})).
    right. reflexivity.
Defined.

(** ** The cosine similarity *)

(** C7.  [cosineSimilarity] throws its dimension error exactly when the
    two vectors differ in length, and returns a value exactly when they
    have the same length; it throws nothing else. *)
Theorem cosineSimilarity_throws_iff_lengths_differ (vecA vecB : list number) :
  (cosineSimilarity vecA vecB = Throw dimensionMismatch <-> length vecA <> length vecB)
  /\ ((exists value, cosineSimilarity vecA vecB = Ok value) <-> length vecA = length vecB)
  /\ (forall e, cosineSimilarity vecA vecB = Throw e -> e = dimensionMismatch).
Proof.
  unfold cosineSimilarity.
  destruct (length vecA =? length vecB)%nat eqn:Hlen; simpl.
  - apply Nat.eqb_eq in Hlen.
    destruct (fold_left _ (combine vecA vecB) _) as [[dotProduct normA] normB].
    repeat split; try discriminate; try congruence; eauto.
  - apply Nat.eqb_neq in Hlen. split; [|split].
    + split; [intros _; exact Hlen | reflexivity].
    + split; [intros [value Hvalue]; discriminate | intros H; contradiction].
    + intros e [= <-]. reflexivity.
Qed.

Example cosineSimilarity_mismatch :
  cosineSimilarity [Num 1; Num 0] [Num 1] = Throw dimensionMismatch.
Proof. reflexivity. Qed.

(** ** The document map *)

Lemma JsMap_delete_absent {V : Type} (m : JsMap.t V) (key : string) :
  JsMap.get m key = None -> JsMap.delete m key = m.
Proof.
  induction m as [|[k v] m IH]; simpl; [reflexivity|].
  destruct (String.eqb k key); [discriminate|].
  intros H. now rewrite IH.
Qed.

Lemma delete_result (self : DocumentStore) (id : string) :
  fst (Store.delete self id) = JsMap.has (documents self) id.
Proof. unfold Store.delete. now destruct (JsMap.has (documents self) id). Qed.

(** C10.  [delete] on an id that is not in the document map returns
    [false] and leaves the store as it was: the map is unchanged and
    [saveDocuments] is not called.  For any id, [saveDocuments] is called
    (once, with the documents left) exactly when the id was in the map. *)
Theorem delete_absent_id_changes_nothing (self : DocumentStore) (id : string) :
  JsMap.get (documents self) id = None ->
  Store.delete self id = (false, self)
  /\ (forall id' : string,
        saved (snd (Store.delete self id'))
        = if JsMap.has (documents self) id'
          then JsMap.values (JsMap.delete (documents self) id') :: saved self
          else saved self).
Proof.
  intros Habsent. split.
  - unfold Store.delete, JsMap.has. rewrite Habsent.
    rewrite JsMap_delete_absent by exact Habsent. now destruct self.
  - intros id'. unfold Store.delete.
    destruct (JsMap.has (documents self) id'); reflexivity.
Qed.

Lemma delete_absent_id_changes_nothing_witness :
  Store.delete sampleStore "doc_2" = (false, sampleStore).
Proof.
  apply (delete_absent_id_changes_nothing sampleStore "doc_2"). reflexivity.
Defined.

Example delete_present_id :
  Store.delete sampleStore "doc_1"
  = (true, {| documents := []; saved := [[]; [sampleDocument]] |}).
Proof. reflexivity. Qed.

(** ** The cancellation endpoint *)

(** C9.  [DELETE] on a request id that is not in [activeRequests]
    answers 404 and changes nothing.  On an id that is registered it
    answers 200, trips the signal of the registered controller, removes
    the id from [activeRequests] at once and leaves the other ids alone;
    a second [DELETE] on the same id then answers 404 and changes
    nothing. *)
Theorem DELETE_cancels_once (requestId : string) (st : Chat.State) :
  match Chat.activeRequests st !! requestId with
  | None => Chat.DELETE requestId st = (notFound, st)
  | Some controller =>
      let st' := snd (Chat.DELETE requestId st) in
      fst (Chat.DELETE requestId st) = cancelled
      /\ Chat.aborted st' !! controller = Some true
      /\ Chat.activeRequests st' !! requestId = None
      /\ (forall other : string, other <> requestId ->
            Chat.activeRequests st' !! other = Chat.activeRequests st !! other)
      /\ (forall other : nat, other <> controller ->
            Chat.aborted st' !! other = Chat.aborted st !! other)
      /\ Chat.DELETE requestId st' = (notFound, st')
  end.
Proof.
  unfold Chat.DELETE.
  destruct (Chat.activeRequests st !! requestId) as [controller|] eqn:Hget;
    [|reflexivity].
  simpl. repeat split.
  - apply lookup_insert_eq.
  - apply lookup_delete_eq.
  - intros other Hne. now apply lookup_delete_ne.
  - intros other Hne. now apply lookup_insert_ne.
  - now rewrite lookup_delete_eq.
Qed.

Example DELETE_unknown_request :
  Chat.DELETE "req-2" sampleSession = (notFound, sampleSession).
Proof. reflexivity. Qed.

Lemma DELETE_cancels_once_witness :
  let st' := snd (Chat.DELETE "req-1" sampleSession) in
  fst (Chat.DELETE "req-1" sampleSession) = cancelled
  /\ Chat.DELETE "req-1" st' = (notFound, st').
Proof.
  pose proof (DELETE_cancels_once "req-1" sampleSession) as H.
  change (Chat.activeRequests sampleSession !! "req-1"%string) with (Some 0%nat) in H.
  simpl in H. tauto.
Defined.

(** ** The size of the chunks *)

Lemma substring_length (s : string) :
  forall n m : nat,
    String.length (String.substring n m s) = Nat.min m (String.length s - n).
Proof.
  induction s as [|c s IH]; intros [|n] [|m]; simpl; try reflexivity.
  - rewrite IH. now rewrite Nat.sub_0_r.
  - rewrite IH. lia.
  - rewrite IH. reflexivity.
Qed.

Lemma substring_all (p : ascii -> bool) (s : string) :
  Str.all p s = true ->
  forall n m : nat, Str.all p (String.substring n m s) = true.
Proof.
  induction s as [|c s IH]; intros Hall [|n] [|m]; simpl in *; try reflexivity;
    apply andb_true_iff in Hall; destruct Hall as [Hc Hs].
  - rewrite Hc. simpl. now apply IH.
  - now apply IH.
  - now apply IH.
Qed.

Lemma prefix_length (p s : string) :
  String.prefix p s = true -> (String.length p <= String.length s)%nat.
Proof.
  revert s. induction p as [|c p IH]; intros [|d s]; simpl; try lia; try discriminate.
  destruct (ascii_dec c d); [|discriminate]. intros H. apply IH in H. lia.
Qed.

(** [lastIndexOf] answers -1 or the index of an occurrence, which ends
    inside the string. *)
Lemma lastIndexOfFrom_bound (pattern s : string) :
  forall i : Z,
    Str.lastIndexOfFrom i s pattern = -1
    \/ (i <= Str.lastIndexOfFrom i s pattern
        /\ Str.lastIndexOfFrom i s pattern + Str.len pattern <= i + Str.len s).
Proof.
  unfold Str.len. induction s as [|c s IH]; intros i; cbn [Str.lastIndexOfFrom].
  - destruct (String.prefix pattern EmptyString) eqn:Hp; [right | now left].
    apply prefix_length in Hp. simpl in Hp. lia.
  - cbn [String.length]. destruct (IH (i + 1)) as [Hnone | [Hlo Hhi]].
    + rewrite Hnone. cbn [Z.leb Z.compare].
      destruct (String.prefix pattern (String c s)) eqn:Hp; [right | now left].
      apply prefix_length in Hp. simpl in Hp. lia.
    + destruct (0 <=? Str.lastIndexOfFrom (i + 1) s pattern) eqn:Hpos.
      * right. lia.
      * destruct (String.prefix pattern (String c s)) eqn:Hp; [right | now left].
        apply prefix_length in Hp. simpl in Hp. lia.
Qed.

Lemma js_substring_len (s : string) (a b : Z) :
  0 <= a <= b ->
  Str.len (Str.substring s a b) = Z.min b (Str.len s) - Z.min a (Str.len s).
Proof.
  intros Hab. unfold Str.substring. pose proof (len_nonneg s) as Hlen.
  set (n := Str.len s) in *.
  replace (Z.max 0 (Z.min a n)) with (Z.min a n) by lia.
  replace (Z.max 0 (Z.min b n)) with (Z.min b n) by lia.
  replace (Z.min (Z.min a n) (Z.min b n)) with (Z.min a n) by lia.
  replace (Z.max (Z.min a n) (Z.min b n)) with (Z.min b n) by lia.
  unfold Str.len at 1. rewrite substring_length.
  fold (Str.len s) in *. unfold n, Str.len in *. lia.
Qed.

Lemma lastIndexOf_bound (s pattern : string) :
  Str.lastIndexOf s pattern + Str.len pattern <= Str.len s
  \/ Str.lastIndexOf s pattern = -1.
Proof.
  unfold Str.lastIndexOf.
  destruct (lastIndexOfFrom_bound pattern s 0) as [H | [_ H]]; [now right | left; lia].
Qed.

(** A chunk is at most [maxChunkSize] characters long: its end is at
    most [maxChunkSize] after its start. *)
Lemma chunkEnd_bound (s : string) (maxChunkSize startIndex : Z) :
  0 <= startIndex -> 0 < maxChunkSize ->
  chunkEnd s maxChunkSize startIndex <= startIndex + maxChunkSize.
Proof.
  intros Hstart Hmax. unfold chunkEnd.
  destruct (startIndex + maxChunkSize <? Str.len s) eqn:Hend; [|lia].
  apply Z.ltb_lt in Hend.
  set (searchStart := Z.max startIndex (startIndex + maxChunkSize - 200)).
  set (searchText := Str.substring s searchStart (startIndex + maxChunkSize)).
  assert (Hlen : Str.len searchText = startIndex + maxChunkSize - searchStart).
  { unfold searchText. rewrite js_substring_len by lia. lia. }
  pose proof (lastIndexOf_bound searchText ". ") as H1.
  pose proof (lastIndexOf_bound searchText "! ") as H2.
  pose proof (lastIndexOf_bound searchText "? ") as H3.
  change (Str.len ". ") with 2 in H1. change (Str.len "! ") with 2 in H2.
  change (Str.len "? ") with 2 in H3.
  match goal with |- context [0 <? ?x] => destruct (0 <? x) eqn:Hp end; lia.
Qed.

Lemma hasNoWhiteSpace_trimEnd (s : string) :
  hasNoWhiteSpace s = true -> Str.trimEnd s = s.
Proof.
  unfold hasNoWhiteSpace. induction s as [|c s IH]; simpl; [reflexivity|].
  intros H. apply andb_true_iff in H. destruct H as [Hc Hs].
  rewrite (IH Hs). destruct s; [|reflexivity].
  apply negb_true_iff in Hc. now rewrite Hc.
Qed.

Lemma hasNoWhiteSpace_trim (s : string) :
  hasNoWhiteSpace s = true -> Str.trim s = s.
Proof.
  intros H. unfold Str.trim.
  assert (Hstart : Str.trimStart s = s).
  { destruct s as [|c s]; [reflexivity|]. unfold hasNoWhiteSpace in H. simpl in *.
    apply andb_true_iff in H. destruct H as [Hc _].
    apply negb_true_iff in Hc. now rewrite Hc. }
  rewrite Hstart. now apply hasNoWhiteSpace_trimEnd.
Qed.

Lemma hasNoWhiteSpace_replace (s : string) :
  hasNoWhiteSpace s = true -> Str.replaceWhitespaceRuns false s = s.
Proof.
  unfold hasNoWhiteSpace. induction s as [|c s IH]; simpl; [reflexivity|].
  intros H. apply andb_true_iff in H. destruct H as [Hc Hs].
  apply negb_true_iff in Hc. rewrite Hc. now rewrite IH.
Qed.

Lemma hasNoWhiteSpace_normalize (s : string) :
  hasNoWhiteSpace s = true -> normalize s = s.
Proof.
  intros H. unfold normalize. rewrite hasNoWhiteSpace_replace by exact H.
  now apply hasNoWhiteSpace_trim.
Qed.

(** On a text without whitespace every iteration pushes a chunk and
    moves on by at most [maxChunkSize] characters. *)
Lemma chunkLoop_count (fuel : nat) (s : string) (maxChunkSize overlapSize : Z) :
  hasNoWhiteSpace s = true -> 0 < maxChunkSize -> 0 <= overlapSize ->
  forall (startIndex : Z) (chunks result : list string),
    0 <= startIndex ->
    chunkLoop fuel s maxChunkSize overlapSize startIndex chunks = Some result ->
    Str.len s - startIndex
    <= maxChunkSize * (Z.of_nat (length result) - Z.of_nat (length chunks)).
Proof.
  intros Hs Hmax Hov.
  induction fuel as [|fuel IH]; intros startIndex chunks result Hstart;
    cbn [chunkLoop]; destruct (startIndex <? Str.len s) eqn:Hlt;
    try discriminate; try (intros [= <-]; apply Z.ltb_ge in Hlt; lia).
  apply Z.ltb_lt in Hlt. unfold chunkStep.
  pose proof (chunkEnd_advances s maxChunkSize startIndex Hmax Hlt) as Hadv.
  pose proof (chunkEnd_bound s maxChunkSize startIndex Hstart Hmax) as Hbound.
  set (endIndex := chunkEnd s maxChunkSize startIndex) in *.
  assert (Hchunk : Str.trim (Str.substring s startIndex endIndex)
                   = Str.substring s startIndex endIndex).
  { apply hasNoWhiteSpace_trim. unfold Str.substring. now apply substring_all. }
  rewrite Hchunk.
  assert (Hlen : 0 < Str.len (Str.substring s startIndex endIndex))
    by (rewrite js_substring_len by lia; lia).
  apply Z.ltb_lt in Hlen. rewrite Hlen.
  intros Hloop. apply IH in Hloop.
  - rewrite length_app in Hloop. simpl in Hloop.
    unfold nextStartIndex in Hloop.
    destruct (endIndex - overlapSize <=? startIndex) eqn:Hn in Hloop; lia.
  - pose proof (nextStartIndex_advances overlapSize startIndex endIndex Hadv). lia.
Qed.

(** A text without whitespace yields at least one chunk per
    [maxChunkSize] characters. *)
Lemma chunkText_count (text : string) (options : ChunkOptions) (chunks : list string) :
  hasNoWhiteSpace text = true ->
  0 < default 1000 (maxChunkSize options) ->
  0 <= default 200 (overlapSize options) ->
  chunkText text options = Some chunks ->
  Str.len text <= default 1000 (maxChunkSize options) * Z.of_nat (length chunks).
Proof.
  intros Hs Hmax Hov. unfold chunkText, chunkTextWith.
  rewrite hasNoWhiteSpace_normalize, hasNoWhiteSpace_trim by exact Hs.
  destruct (String.eqb text EmptyString || (Str.len text =? 0)) eqn:Hguard.
  - intros _. apply orb_true_iff in Hguard. destruct Hguard as [H|H].
    + apply String.eqb_eq in H. subst text. unfold Str.len. simpl. lia.
    + apply Z.eqb_eq in H. lia.
  - destruct (Str.len text <=? default 1000 (maxChunkSize options)) eqn:Hshort.
    + intros [= <-]. apply Z.leb_le in Hshort. simpl. lia.
    + intros Hloop. apply chunkLoop_count in Hloop; try assumption; simpl in *; lia.
Qed.

Lemma append_len (s t : string) :
  Str.len (String.append s t) = Str.len s + Str.len t.
Proof.
  unfold Str.len. induction s as [|c s IH].
  - change (String.append EmptyString t) with t. simpl. lia.
  - change (String.append (String c s) t) with (String c (String.append s t)).
    cbn [String.length]. rewrite !Nat2Z.inj_succ. lia.
Qed.

Lemma append_all (p : ascii -> bool) (s t : string) :
  Str.all p (String.append s t) = Str.all p s && Str.all p t.
Proof.
  induction s as [|c s IH]; [reflexivity|].
  change (String.append (String c s) t) with (String c (String.append s t)).
  simpl. rewrite IH. apply andb_assoc.
Qed.

Lemma doubled_len (k : nat) (s : string) :
  Str.len (doubled k s) = 2 ^ Z.of_nat k * Str.len s.
Proof.
  induction k as [|k IH]; [simpl doubled; lia|].
  cbn [doubled]. rewrite append_len, IH.
  rewrite Nat2Z.inj_succ, Z.pow_succ_r by lia. lia.
Qed.

Lemma doubled_hasNoWhiteSpace (k : nat) (s : string) :
  hasNoWhiteSpace s = true -> hasNoWhiteSpace (doubled k s) = true.
Proof.
  intros H. unfold hasNoWhiteSpace in *. induction k as [|k IH]; [exact H|].
  cbn [doubled]. rewrite append_all, IH. reflexivity.
Qed.

(** ** The upload route *)

(** C8.  An upload whose parsed text makes more than 1000 chunks is
    answered with status 400 and an error message, and the document
    store is left exactly as it was: no document, no chunk, no call of
    [saveDocuments]. *)
Theorem POST_rejects_more_than_1000_chunks
  (embeddingsCreate : list string -> result (list (list number)))
  (file : File) (now : Z) (random : string) (uploadedAt : Z)
  (store : DocumentStore)
  (content : string) (textChunks : list string) :
  parseFile file = Ok content ->
  chunkText content defaultOptions = Some textChunks ->
  (1000 < length textChunks)%nat ->
  exists message : string,
    Upload.POST embeddingsCreate (Some file) now random uploadedAt store
    = Some ({| Upload.status := 400; Upload.body := Upload.ErrorBody message |}, store).
Proof.
  intros Hparse Hchunks Hcount. unfold Upload.POST.
  destruct (10 * 1024 * 1024 <? File.size file); [eauto|].
  rewrite Hparse.
  destruct (String.eqb content EmptyString || (Str.len (Str.trim content) =? 0));
    [eauto|].
  rewrite Hchunks. apply Nat.ltb_lt in Hcount. rewrite Hcount. eauto.
Qed.

Lemma largeText_chunks :
  exists textChunks,
    chunkText largeText defaultOptions = Some textChunks
    /\ (1000 < length textChunks)%nat.
Proof.
  destruct (chunkText_returns largeText defaultOptions) as [textChunks Hchunks];
    [simpl; lia|].
  exists textChunks. split; [exact Hchunks|].
  apply chunkText_count in Hchunks; [| now apply doubled_hasNoWhiteSpace | simpl; lia ..].
  unfold largeText in Hchunks. rewrite doubled_len in Hchunks.
  change (Str.len "a") with 1 in Hchunks.
  change (2 ^ Z.of_nat 20) with 1048576 in Hchunks.
  change (default 1000 (maxChunkSize defaultOptions)) with 1000 in Hchunks. lia.
Qed.

Lemma POST_rejects_more_than_1000_chunks_witness :
  exists message : string,
    Upload.POST (fun _ => Ok []) (Some largeFile) 0 "abc" 0 sampleStore
    = Some ({| Upload.status := 400; Upload.body := Upload.ErrorBody message |},
            sampleStore).
Proof.
  destruct largeText_chunks as [textChunks [Hchunks Hcount]].
  apply (POST_rejects_more_than_1000_chunks (fun _ => Ok []) largeFile 0 "abc" 0
           sampleStore largeText textChunks).
  - reflexivity.
  - exact Hchunks.
  - exact Hcount.
Defined.

(** An upload of a short text is stored. *)
Example POST_stores_short_text :
  exists response,
    Upload.POST (fun texts => Ok (List.map (fun _ => [Num 1]) texts))
      (Some {| File.name := "a.txt"; File.type := "text/plain"; File.size := 5;
               File.text := Ok "hello"; File.pdfText := Throw (Error "not a PDF") |})
      7 "abc" 8 {| documents := []; saved := [] |}
    = Some (response,
            Store.add {| documents := []; saved := [] |}
              {| Document.id := "doc_7_abc"; Document.title := "a.txt";
                 Document.content := "hello"; Document.fileType := "TXT";
                 Document.uploadedAt := 8;
                 Document.chunks :=
                   [{| DocumentChunk.id := "doc_7_abc_chunk_0";
                       DocumentChunk.documentId := "doc_7_abc";
                       DocumentChunk.documentTitle := "a.txt";
                       DocumentChunk.content := "hello";
                       DocumentChunk.embedding := [Num 1];
                       DocumentChunk.chunkIndex := 0 |}] |})
    /\ Upload.status response = 200.
Proof. eexists. split; reflexivity. Qed.

(** ** Numbers *)

Section NumberFacts.

Local Open Scope R_scope.

Lemma sign_Gt (x : R) : 0 < x -> Number.sign x = Gt.
Proof.
  intros H. unfold Number.sign.
  destruct (Rlt_dec x 0); [lra|]. destruct (Rlt_dec 0 x); [reflexivity | lra].
Qed.

Lemma sign_Eq : Number.sign 0 = Eq.
Proof.
  unfold Number.sign. destruct (Rlt_dec 0 0); [lra|]. destruct (Rlt_dec 0 0); [lra | reflexivity].
Qed.

Lemma div_Num (x y : R) : y <> 0 -> (Num x / Num y)%num = Num (x / y).
Proof. intros H. unfold Number.div. destruct (Req_dec_T y 0); [contradiction | reflexivity]. Qed.

Lemma div_zero_zero : (Num 0 / Num 0)%num = NaN.
Proof.
  unfold Number.div. destruct (Req_dec_T 0 0); [|contradiction]. now rewrite sign_Eq.
Qed.

Lemma sqrt_Num (x : R) : 0 <= x -> Math.sqrt (Num x) = Num (sqrt x).
Proof. intros H. unfold Math.sqrt. destruct (Rlt_dec x 0); [lra | reflexivity]. Qed.

Lemma log_Num (x : R) : 0 < x -> Math.log (Num x) = Num (ln x).
Proof.
  intros H. unfold Math.log. destruct (Rlt_dec x 0); [lra|].
  destruct (Req_dec_T x 0); [lra | reflexivity].
Qed.

Lemma ltb_Num (x y : R) : (Num x <? Num y)%num = true <-> x < y.
Proof. unfold Number.ltb. destruct (Rlt_dec x y); split; try discriminate; tauto. Qed.

Lemma min_Num (x y : R) : Math.min (Num x) (Num y) = Num (Rmin x y).
Proof. unfold Math.min, Number.leb, Rmin. now destruct (Rle_dec x y). Qed.

Lemma max_Num (x y : R) : Math.max (Num x) (Num y) = Num (Rmax x y).
Proof. unfold Math.max, Number.leb, Rmax. now destruct (Rle_dec x y). Qed.

End NumberFacts.

Lemma compare_sub (a b : number) :
  a <> NaN -> b <> NaN -> (Num 0 <? b - a)%num = (a <? b)%num.
Proof. intros Ha Hb. number_cases. Qed.

Lemma ltb_false_geb (a b : number) :
  a <> NaN -> b <> NaN -> (a <? b)%num = false -> (a >=? b)%num = true.
Proof. unfold Number.geb. intros Ha Hb H. number_cases. Qed.

Lemma ltb_true_geb (a b : number) : (a <? b)%num = true -> (b >=? a)%num = true.
Proof. unfold Number.geb. intros H. number_cases. Qed.

Lemma geb_trans (a b c : number) :
  (a >=? b)%num = true -> (b >=? c)%num = true -> (a >=? c)%num = true.
Proof. unfold Number.geb. intros H1 H2. number_cases. Qed.

(** ** Sorting by a score *)

Section SortDescending.

Context {A : Type} (key : A -> number).

Lemma sort_cons (compareFn : A -> A -> number) (x : A) (l : list A) :
  Array.sort compareFn (x :: l) = Array.insert compareFn x (Array.sort compareFn l).
Proof. reflexivity. Qed.

Lemma insert_perm (x : A) (l : list A) :
  Permutation (Array.insert (fun a b => (key b - key a)%num) x l) (x :: l).
Proof.
  induction l as [|y l IH]; cbn [Array.insert]; [reflexivity|].
  destruct (key y - key x >? Num 0)%num; [|reflexivity].
  rewrite IH. apply perm_swap.
Qed.

Lemma sort_perm (l : list A) :
  Permutation (Array.sort (fun a b => (key b - key a)%num) l) l.
Proof.
  induction l as [|x l IH]; [reflexivity|].
  rewrite sort_cons, insert_perm. now rewrite IH.
Qed.

Lemma insert_descending (x : A) (l : list A) :
  key x <> NaN -> Forall (fun y => key y <> NaN) l ->
  descending key l ->
  descending key (Array.insert (fun a b => (key b - key a)%num) x l).
Proof.
  intros Hx Hl Hsorted. induction Hsorted as [|y l Hsorted IH Hy]; cbn [Array.insert].
  - repeat constructor.
  - apply Forall_cons_iff in Hl. destruct Hl as [Hyn Hl].
    unfold Number.gtb. rewrite compare_sub by assumption.
    destruct (key x <? key y)%num eqn:Hlt.
    + constructor; [now apply IH|].
      rewrite insert_perm. constructor; [now apply ltb_true_geb | exact Hy].
    + apply ltb_false_geb in Hlt; try assumption.
      constructor; [now constructor|]. constructor; [exact Hlt|].
      eapply List.Forall_impl; [|exact Hy]. intros z Hz. simpl in Hz.
      eapply geb_trans; eassumption.
Qed.

Lemma sort_descending (l : list A) :
  Forall (fun y => key y <> NaN) l ->
  descending key (Array.sort (fun a b => (key b - key a)%num) l).
Proof.
  induction l as [|x l IH]; intros Hl; [constructor|].
  apply Forall_cons_iff in Hl. destruct Hl as [Hx Hl]. rewrite sort_cons.
  apply insert_descending; [exact Hx | | now apply IH].
  rewrite sort_perm. exact Hl.
Qed.

Lemma firstn_descending (n : nat) (l : list A) :
  descending key l -> descending key (firstn n l).
Proof.
  intros H. revert n. induction H as [|x l H IH Hx]; intros [|n]; simpl;
    try constructor.
  - apply IH.
  - now apply Forall_take.
Qed.

End SortDescending.

Lemma slice0_length {A : Type} (l : list A) (end_ : Z) :
  0 <= end_ -> Z.of_nat (length (Array.slice0 l end_)) <= end_.
Proof.
  intros H. unfold Array.slice0.
  replace (end_ <? 0) with false by (symmetry; apply Z.ltb_ge; lia).
  rewrite length_firstn. lia.
Qed.

Section HybridSearch.

Variable regExpMatches : string -> string -> result nat.

Lemma scoreChunk_score (query : string) (queryEmbedding : list number)
  (chunk : DocumentChunk) (r : SearchResult) :
  Store.scoreChunk regExpMatches query queryEmbedding chunk = Ok r ->
  score r = (Num 0.6 * vectorScore r + Num 0.4 * keywordScore r)%num.
Proof.
  unfold Store.scoreChunk.
  destruct (cosineSimilarity _ _); [|discriminate]. cbn [bind].
  destruct (Store.calculateKeywordScore _ _ _); [|discriminate]. cbn [bind].
  intros [= <-]. reflexivity.
Qed.

Lemma scoreChunks_each (query : string) (queryEmbedding : list number)
  (allChunks : list DocumentChunk) :
  forall results,
    Store.scoreChunks regExpMatches query queryEmbedding allChunks = Ok results ->
    Forall (fun r => exists chunk, In chunk allChunks
              /\ Store.scoreChunk regExpMatches query queryEmbedding chunk = Ok r)
      results.
Proof.
  induction allChunks as [|chunk rest IH]; intros results; cbn [Store.scoreChunks].
  - intros [= <-]. constructor.
  - destruct (Store.scoreChunk _ _ _ chunk) as [r|] eqn:Hr; [|discriminate].
    cbn [bind].
    destruct (Store.scoreChunks _ _ _ rest) as [rs|]; [|discriminate]. cbn [bind].
    intros [= <-]. constructor.
    + exists chunk. split; [now left | exact Hr].
    + eapply List.Forall_impl; [|apply IH; reflexivity].
      intros r' [chunk' [Hin Hr']]. exists chunk'. split; [now right | exact Hr'].
Qed.

(** C1, as amended.  When [topK] is not negative and no chunk of the
    corpus gets the combined score NaN, the list [hybridSearch] returns
    is in descending order of the combined score, has at most [topK]
    results, and each result has the combined score
    [0.6 * vectorScore + 0.4 * keywordScore]. *)
Theorem hybridSearch_sorted_topK (self : DocumentStore) (query : string)
  (queryEmbedding : list number) (topK : Z) (results : list SearchResult) :
  Store.hybridSearch regExpMatches self query queryEmbedding topK = Ok results ->
  0 <= topK ->
  (forall chunk r,
     In chunk (Store.getAllChunks self) ->
     Store.scoreChunk regExpMatches query queryEmbedding chunk = Ok r ->
     score r <> NaN) ->
  descending score results
  /\ Z.of_nat (length results) <= topK
  /\ Forall (fun r => score r = (Num 0.6 * vectorScore r + Num 0.4 * keywordScore r)%num)
       results.
Proof.
  intros Hsearch HtopK Hnan. unfold Store.hybridSearch in Hsearch.
  destruct (length (Store.getAllChunks self) =? 0)%nat.
  { injection Hsearch as <-. repeat split; [constructor | simpl; lia | constructor]. }
  destruct (Store.scoreChunks _ _ _ _) as [scored|] eqn:Hscored; [|discriminate].
  cbn [bind] in Hsearch. injection Hsearch as <-.
  apply scoreChunks_each in Hscored.
  split; [|split].
  - unfold Array.slice0. apply firstn_descending, sort_descending.
    eapply List.Forall_impl; [|exact Hscored].
    intros r [chunk [Hin Hr]]. eapply Hnan; eassumption.
  - now apply slice0_length.
  - unfold Array.slice0. apply Forall_take. rewrite sort_perm.
    eapply List.Forall_impl; [|exact Hscored].
    intros r [chunk [_ Hr]]. eapply scoreChunk_score, Hr.
Qed.

End HybridSearch.

(** ** The keyword score *)

Section KeywordFormula.

Local Open Scope R_scope.

Variable regExpMatches : string -> string -> result nat.

Lemma sumLog_cons (freq : nat) (freqs : list nat) :
  sumLog (freq :: freqs) = ln (1 + INR freq) + sumLog freqs.
Proof. reflexivity. Qed.

Lemma countMatched_cons (freq : nat) (freqs : list nat) :
  countMatched (freq :: freqs)
  = ((if (0 <? freq)%nat then 1 else 0) + countMatched freqs)%nat.
Proof. unfold countMatched. cbn [List.filter]. now destruct (0 <? freq)%nat. Qed.

Lemma ln_one_plus_zero : ln (1 + INR 0) = 0.
Proof. simpl INR. replace (1 + 0) with 1 by lra. apply ln_1. Qed.

Lemma keywordLoop_value (text : string) (terms : list string) :
  literalTerms terms ->
  forall (s : R) (m : nat),
    exists v : R,
      Store.keywordLoop regExpMatches terms (Str.toLowerCase text) (Num s) m
      = Ok (Num v, (m + countMatched (List.map (termMatches text) terms))%nat)
      /\ v = s + sumLog (List.map (termMatches text) terms).
Proof.
  induction terms as [|term rest IH]; intros Hlit s m; cbn [Store.keywordLoop].
  - exists s. split; [now rewrite Nat.add_0_r | simpl; lra].
  - assert (Hrest : literalTerms rest) by (intros t Ht; apply Hlit; now right).
    cbn [List.map]. rewrite sumLog_cons, countMatched_cons.
    destruct (String.length term <? 3)%nat eqn:Hshort.
    + assert (Hm : termMatches text term = 0%nat)
        by (unfold termMatches; now rewrite Hshort).
      rewrite Hm, ln_one_plus_zero. change (0 <? 0)%nat with false. cbv iota.
      destruct (IH Hrest s m) as [v [Hv ->]]. eexists.
      split; [exact Hv | lra].
    + assert (Hm : termMatches text term = Str.countMatches term (Str.toLowerCase text))
        by (unfold termMatches; now rewrite Hshort).
      rewrite Hm. clear Hm.
      unfold Store.matchCount. rewrite Hlit; [|now left | apply Nat.ltb_ge in Hshort; lia].
      cbn [bind].
      destruct (0 <? Str.countMatches term (Str.toLowerCase text))%nat eqn:Hfreq.
      * pose proof (pos_INR (Str.countMatches term (Str.toLowerCase text))) as Hpos.
        unfold Number.of_nat. cbn [Number.add]. rewrite log_Num by lra. cbn [Number.add].
        destruct (IH Hrest (s + ln (1 + INR (Str.countMatches term (Str.toLowerCase text)))) (S m))
          as [v [Hv ->]].
        replace (m + (1 + countMatched (List.map (termMatches text) rest)))%nat
          with (S m + countMatched (List.map (termMatches text) rest))%nat by lia.
        eexists. split; [exact Hv | lra].
      * destruct (IH Hrest s m) as [v [Hv ->]]. eexists. split; [exact Hv|].
        apply Nat.ltb_ge in Hfreq.
        replace (Str.countMatches term (Str.toLowerCase text)) with 0%nat by lia.
        rewrite ln_one_plus_zero. lra.
Qed.

Lemma splitWhitespace_not_nil (inRun : bool) (s : string) :
  Str.splitWhitespace inRun s <> [].
Proof.
  revert inRun. induction s as [|c s IH]; intros inRun; simpl; [discriminate|].
  destruct (Str.isWhiteSpace c).
  - destruct inRun; [apply IH | discriminate].
  - destruct (Str.splitWhitespace false s); discriminate.
Qed.

Lemma queryTerms_length (query : string) : 1 <= INR (length (queryTerms query)).
Proof.
  unfold queryTerms.
  pose proof (splitWhitespace_not_nil false (Str.toLowerCase query)) as H.
  destruct (Str.splitWhitespace false (Str.toLowerCase query)) as [|t ts]; [contradiction|].
  cbn [length]. rewrite S_INR. pose proof (pos_INR (length ts)). lra.
Qed.

(** The value [calculateKeywordScore] returns on a query of literal terms. *)
Lemma calculateKeywordScore_value (query text : string) :
  literalTerms (queryTerms query) ->
  Store.calculateKeywordScore regExpMatches query text
  = Ok (Num (keywordFormula query text)).
Proof.
  intros Hlit. unfold Store.calculateKeywordScore. fold (queryTerms query).
  destruct (keywordLoop_value text (queryTerms query) Hlit 0 0%nat) as [v [Hv Hsum]].
  rewrite Hv. cbn [bind]. pose proof (queryTerms_length query) as Hn.
  replace (0 <? length (queryTerms query))%nat with true.
  2:{ symmetry. apply Nat.ltb_lt. destruct (queryTerms query); [simpl in Hn; lra | simpl; lia]. }
  unfold Number.of_nat. rewrite max_Num.
  rewrite !div_Num.
  - cbn [Number.mul Number.add]. rewrite min_Num. unfold keywordFormula.
    rewrite Hsum. cbn [Nat.add]. do 3 f_equal. lra.
  - lra.
  - unfold Rmax. destruct (Rle_dec 1 (INR (length (queryTerms query)))); lra.
Qed.

Lemma sumLog_nonneg (freqs : list nat) : 0 <= sumLog freqs.
Proof.
  induction freqs as [|freq freqs IH]; [simpl; lra|].
  rewrite sumLog_cons. pose proof (pos_INR freq) as Hpos.
  assert (0 <= ln (1 + INR freq)); [|lra].
  destruct (Req_dec_T (INR freq) 0) as [-> | Hne].
  - replace (1 + 0) with 1 by lra. rewrite ln_1. lra.
  - rewrite <- ln_1. left. apply ln_increasing; lra.
Qed.

Lemma keywordFormula_range (query text : string) :
  0 <= keywordFormula query text <= 1.
Proof.
  unfold keywordFormula.
  pose proof (queryTerms_length query) as Hn.
  pose proof (sumLog_nonneg (List.map (termMatches text) (queryTerms query))) as Hsum.
  pose proof (pos_INR (countMatched (List.map (termMatches text) (queryTerms query)))) as Hm.
  set (n := INR (length (queryTerms query))) in *.
  set (a := sumLog _) in *. set (m := INR (countMatched _)) in *.
  assert (Hmax : Rmax 1 n = n) by (unfold Rmax; destruct (Rle_dec 1 n); lra).
  rewrite Hmax.
  assert (0 <= a / n) by (apply Rmult_le_pos; [lra | left; apply Rinv_0_lt_compat; lra]).
  assert (0 <= m / n) by (apply Rmult_le_pos; [lra | left; apply Rinv_0_lt_compat; lra]).
  unfold Rmin. destruct (Rle_dec 1 (a / n * 0.5 + m / n * 0.5)); lra.
Qed.

(** C2, as amended.  For a query whose terms of three characters or
    more have no regular-expression syntax characters, the keyword score
    is [min(1, (acc / max(1, n)) * 0.5 + (m / n) * 0.5)], a value in
    [0, 1], where the terms are the pieces of the lower-cased query
    between its whitespace runs (punctuation is kept), [n] is the number
    of all these pieces (also the short and the empty ones), [acc] sums
    [ln(1 + matches)] over the pieces of three characters or more, the
    matches of a piece being its non-overlapping occurrences in the
    lower-cased text, and [m] is the number of pieces with a match. *)
Theorem calculateKeywordScore_formula (query text : string) :
  literalTerms (queryTerms query) ->
  Store.calculateKeywordScore regExpMatches query text
  = Ok (Num (keywordFormula query text))
  /\ 0 <= keywordFormula query text <= 1.
Proof.
  intros Hlit. split; [now apply calculateKeywordScore_value | apply keywordFormula_range].
Qed.

End KeywordFormula.

Section KeywordExamples.

Local Open Scope R_scope.

Lemma ln_2_bounds : 0 < ln 2 < 1.
Proof.
  split.
  - pose proof ln_lt_2. lra.
  - apply exp_lt_inv. rewrite exp_ln by lra.
    pose proof (exp_ineq1 1). lra.
Qed.

Lemma literalTerms_is_cat : literalTerms (queryTerms "is cat").
Proof.
  intros term Hin _. change (queryTerms "is cat") with ["is"%string; "cat"%string] in Hin.
  destruct Hin as [<- | [<- | []]]; reflexivity.
Qed.

Lemma keywordFormula_is_cat :
  keywordFormula "is cat" "cat" = ln 2 / 4 + 1 / 4.
Proof.
  unfold keywordFormula.
  change (queryTerms "is cat") with ["is"%string; "cat"%string].
  change (List.map (termMatches "cat") ["is"%string; "cat"%string]) with [0%nat; 1%nat].
  change (countMatched [0%nat; 1%nat]) with 1%nat.
  rewrite !sumLog_cons. rewrite ln_one_plus_zero. simpl.
  replace (1 + 1) with 2 by lra. pose proof ln_2_bounds.
  unfold Rmax. destruct (Rle_dec 1 2); [|lra].
  unfold Rmin. destruct (Rle_dec 1 _); lra.
Qed.

Lemma specKeywordScore_is_cat :
  specKeywordScore "is cat" "cat" = Num (ln 2 / 2 + 1 / 2).
Proof.
  unfold specKeywordScore.
  change (BM25.tokenize "is cat") with ["cat"%string].
  cbn [List.map length]. change (3 <=? String.length "cat")%nat with true. cbv iota.
  change (countOccurrences "cat" (Str.toLowerCase "cat")) with 1%nat.
  cbn [fold_left List.filter Nat.ltb Nat.leb Nat.eqb length].
  unfold Number.of_nat. simpl INR. cbn [Number.add].
  rewrite log_Num by lra. cbn [Number.add]. rewrite max_Num.
  assert (Hmax : Rmax 1 1 = 1) by (unfold Rmax; destruct (Rle_dec 1 1); lra).
  rewrite Hmax, !div_Num by lra. cbn [Number.mul Number.add]. rewrite min_Num.
  f_equal. replace (1 + 1) with 2 by lra. pose proof ln_2_bounds.
  unfold Rmin. destruct (Rle_dec 1 _); lra.
Qed.

(** C2, the input on which the claim fails: for the query "is cat" and
    the text "cat" the code counts two query terms and returns
    [ln 2 / 4 + 1/4], whatever the regular-expression engine, while the
    formula of the specification counts the one token "cat" and gives
    [ln 2 / 2 + 1/2], which is larger. *)
Lemma calculateKeywordScore_counts_short_terms :
  (forall regExpMatches,
     Store.calculateKeywordScore regExpMatches "is cat" "cat"
     = Ok (Num (ln 2 / 4 + 1 / 4)))
  /\ specKeywordScore "is cat" "cat" = Num (ln 2 / 2 + 1 / 2)
  /\ ln 2 / 4 + 1 / 4 < ln 2 / 2 + 1 / 2.
Proof.
  split; [|split].
  - intros regExpMatches.
    rewrite calculateKeywordScore_value by apply literalTerms_is_cat.
    now rewrite keywordFormula_is_cat.
  - apply specKeywordScore_is_cat.
  - pose proof ln_2_bounds. lra.
Qed.

Lemma calculateKeywordScore_formula_witness :
  Store.calculateKeywordScore (fun _ _ => Ok 0%nat) "is cat" "cat"
  = Ok (Num (keywordFormula "is cat" "cat"))
  /\ 0 <= keywordFormula "is cat" "cat" <= 1.
Proof.
  apply (calculateKeywordScore_formula (fun _ _ => Ok 0%nat) "is cat" "cat").
  apply literalTerms_is_cat.
Defined.

End KeywordExamples.

(** ** Hybrid search on small corpora *)

Section HybridExamples.

Local Open Scope R_scope.

Lemma sqrt_one : Math.sqrt (Num 1) = Num 1.
Proof. rewrite sqrt_Num by lra. now rewrite sqrt_1. Qed.

Lemma cosineSimilarity_unit (x : R) :
  cosineSimilarity [Num 1] [Num x] =
  Ok (Num (0 + 1 * x) / (Math.sqrt (Num (0 + 1 * 1)) * Math.sqrt (Num (0 + x * x))))%num.
Proof. reflexivity. Qed.

Lemma cosineSimilarity_same : cosineSimilarity [Num 1] [Num 1] = Ok (Num 1).
Proof.
  rewrite cosineSimilarity_unit.
  replace (0 + 1 * 1) with 1 by lra. rewrite sqrt_one. cbn [Number.mul].
  rewrite div_Num by lra. do 2 f_equal. lra.
Qed.

Lemma cosineSimilarity_opposite : cosineSimilarity [Num 1] [Num (-1)] = Ok (Num (-1)).
Proof.
  rewrite cosineSimilarity_unit.
  replace (0 + 1 * 1) with 1 by lra. replace (0 + -1 * -1) with 1 by lra.
  replace (0 + 1 * -1) with (-1) by lra.
  rewrite sqrt_one. cbn [Number.mul].
  rewrite div_Num by lra. do 2 f_equal. lra.
Qed.

(** The similarity with the zero vector is 0/0. *)
Lemma cosineSimilarity_zero_vector : cosineSimilarity [Num 1] [Num 0] = Ok NaN.
Proof.
  rewrite cosineSimilarity_unit.
  replace (0 + 1 * 1) with 1 by lra. replace (0 + 0 * 0) with 0 by lra.
  replace (0 + 1 * 0) with 0 by lra.
  rewrite sqrt_one, sqrt_Num by lra. rewrite sqrt_0. cbn [Number.mul].
  replace (1 * 0) with 0 by lra. now rewrite div_zero_zero.
Qed.

Lemma literalTerms_zzz : literalTerms (queryTerms "zzz").
Proof.
  intros term Hin _. change (queryTerms "zzz") with ["zzz"%string] in Hin.
  destruct Hin as [<- | []]; reflexivity.
Qed.

Lemma keywordFormula_zzz : keywordFormula "zzz" "abc" = 0.
Proof.
  unfold keywordFormula.
  change (queryTerms "zzz") with ["zzz"%string].
  change (List.map (termMatches "abc") ["zzz"%string]) with [0%nat].
  change (countMatched [0%nat]) with 0%nat.
  rewrite sumLog_cons, ln_one_plus_zero. simpl.
  unfold Rmax. destruct (Rle_dec 1 1); [|lra].
  unfold Rmin. destruct (Rle_dec 1 _); lra.
Qed.

Lemma scoreChunk_at (regExpMatches : string -> string -> result nat)
  (index : Z) (x : R) (v : number) :
  cosineSimilarity [Num 1] [Num x] = Ok v ->
  Store.scoreChunk regExpMatches "zzz" [Num 1] (chunkAt index x) = Ok (resultAt index x v).
Proof.
  intros Hv. unfold Store.scoreChunk. cbn [chunkAt DocumentChunk.embedding DocumentChunk.content].
  rewrite Hv. cbn [bind].
  rewrite calculateKeywordScore_value by apply literalTerms_zzz.
  rewrite keywordFormula_zzz. reflexivity.
Qed.

(** C1, the input on which the claim fails: a corpus of four chunks, one
    of them with a zero embedding, searched with [topK = -1].  Whatever
    the regular-expression engine, the list returned has three results,
    more than [topK]; the score of its second result is NaN, and its
    first result has a smaller score than its third. *)
Lemma hybridSearch_zero_embedding_negative_topK :
  (forall regExpMatches,
     Store.hybridSearch regExpMatches zeroVectorStore "zzz" [Num 1] (-1)
     = Ok [resultAt 0 (-1) (Num (-1)); resultAt 1 0 NaN; resultAt 2 1 (Num 1)])
  /\ score (resultAt 1 0 NaN) = NaN
  /\ (score (resultAt 0 (-1) (Num (-1))) <? score (resultAt 2 1 (Num 1)))%num = true
  /\ (-1 < Z.of_nat (length [resultAt 0 (-1) (Num (-1)); resultAt 1 0 NaN;
                            resultAt 2 1 (Num 1)]))%Z.
Proof.
  split; [|split; [|split]].
  - intros regExpMatches. unfold Store.hybridSearch.
    change (Store.getAllChunks zeroVectorStore)
      with [chunkAt 0 (-1); chunkAt 1 0; chunkAt 2 1; chunkAt 3 1].
    cbn [length Nat.eqb Store.scoreChunks].
    rewrite (scoreChunk_at _ 0 (-1) _ cosineSimilarity_opposite).
    rewrite (scoreChunk_at _ 1 0 _ cosineSimilarity_zero_vector).
    rewrite (scoreChunk_at _ 2 1 _ cosineSimilarity_same).
    rewrite (scoreChunk_at _ 3 1 _ cosineSimilarity_same).
    cbn [bind]. f_equal.
    cbv [Array.sort fold_right Array.insert resultAt score Number.gtb Number.ltb
         Number.sub Number.add Number.mul].
    decide_reals; try lra. reflexivity.
  - reflexivity.
  - cbv [resultAt score Number.ltb Number.add Number.mul]. decide_reals; [reflexivity | lra].
  - simpl. lia.
Qed.

Lemma hybridSearch_two_chunks (regExpMatches : string -> string -> result nat) :
  Store.hybridSearch regExpMatches twoChunkStore "zzz" [Num 1] 3
  = Ok [resultAt 1 1 (Num 1); resultAt 0 (-1) (Num (-1))].
Proof.
  unfold Store.hybridSearch.
  change (Store.getAllChunks twoChunkStore) with [chunkAt 0 (-1); chunkAt 1 1].
  cbn [length Nat.eqb Store.scoreChunks].
  rewrite (scoreChunk_at _ 0 (-1) _ cosineSimilarity_opposite).
  rewrite (scoreChunk_at _ 1 1 _ cosineSimilarity_same).
  cbn [bind]. f_equal.
  cbv [Array.sort fold_right Array.insert resultAt score Number.gtb Number.ltb
       Number.sub Number.add Number.mul].
  decide_reals; try lra. reflexivity.
Qed.

Lemma hybridSearch_sorted_topK_witness :
  descending score [resultAt 1 1 (Num 1); resultAt 0 (-1) (Num (-1))]
  /\ (Z.of_nat (length [resultAt 1 1 (Num 1); resultAt 0 (-1) (Num (-1))]) <= 3)%Z
  /\ Forall (fun r => score r = (Num 0.6 * vectorScore r + Num 0.4 * keywordScore r)%num)
       [resultAt 1 1 (Num 1); resultAt 0 (-1) (Num (-1))].
Proof.
  apply (hybridSearch_sorted_topK (fun _ _ => Ok 0%nat) twoChunkStore "zzz" [Num 1] 3).
  - apply hybridSearch_two_chunks.
  - lia.
  - intros chunk r Hin.
    change (Store.getAllChunks twoChunkStore) with [chunkAt 0 (-1); chunkAt 1 1] in Hin.
    destruct Hin as [<- | [<- | []]].
    + rewrite (scoreChunk_at _ 0 (-1) _ cosineSimilarity_opposite).
      intros [= <-]. discriminate.
    + rewrite (scoreChunk_at _ 1 1 _ cosineSimilarity_same).
      intros [= <-]. discriminate.
Defined.

End HybridExamples.

(** ** The BM25 score *)

Lemma addTermDoc_setOf (docId : string) (termDocCount : gmap string (gset string))
  (term other : string) :
  setOf (BM25.addTermDoc docId termDocCount term) other
  ⊆ {[docId]} ∪ setOf termDocCount other.
Proof.
  unfold setOf, BM25.addTermDoc.
  destruct (decide (term = other)) as [->|Hne].
  - rewrite lookup_insert_eq. simpl. set_solver.
  - rewrite lookup_insert_ne by exact Hne. set_solver.
Qed.

Lemma addTerms_setOf (docId : string) (terms : list string) :
  forall (termDocCount : gmap string (gset string)) (other : string),
    setOf (fold_left (BM25.addTermDoc docId) terms termDocCount) other
    ⊆ {[docId]} ∪ setOf termDocCount other.
Proof.
  induction terms as [|term terms IH]; intros termDocCount other; simpl.
  - set_solver.
  - etransitivity; [apply IH|].
    pose proof (addTermDoc_setOf docId termDocCount term other) as Hstep.
    apply union_subseteq. split; [apply union_subseteq_l | exact Hstep].
Qed.

Lemma termDocCount_size (docs : list BM25.BM25Document) :
  forall (termDocCount : gmap string (gset string)) (bound : nat),
    (forall term, size (setOf termDocCount term) <= bound)%nat ->
    forall term,
      (size (setOf
               (fold_left
                  (fun termDocCount doc =>
                     fold_left (BM25.addTermDoc (BM25.id doc))
                       (remove_dups (BM25.tokens doc)) termDocCount)
                  docs termDocCount) term)
       <= bound + length docs)%nat.
Proof.
  induction docs as [|doc docs IH]; intros termDocCount bound Hbound term; simpl.
  - rewrite Nat.add_0_r. apply Hbound.
  - replace (bound + S (length docs))%nat with (S bound + length docs)%nat by lia.
    apply IH. intros other.
    pose proof (addTerms_setOf (BM25.id doc) (remove_dups (BM25.tokens doc))
                  termDocCount other) as Hsub.
    apply subseteq_size in Hsub. rewrite size_union_alt, size_singleton in Hsub.
    pose proof (subseteq_size (setOf termDocCount other ∖ {[BM25.id doc]})
                  (setOf termDocCount other)) as Hdiff.
    specialize (Hbound other).
    assert (size (setOf termDocCount other ∖ {[BM25.id doc]}) <= size (setOf termDocCount other))%nat
      by (apply Hdiff, subseteq_difference_l; reflexivity).
    lia.
Qed.

(** A term occurs in at most as many documents as the index holds. *)
Lemma docFrequency_bound (docs : list (string * string)) (term : string) :
  (default 0%nat (BM25.docFrequencies (BM25.new docs) !! term)
   <= length (BM25.documents (BM25.new docs)))%nat.
Proof.
  cbn [BM25.new BM25.docFrequencies BM25.documents].
  unfold BM25.calculateDocFrequencies. rewrite lookup_fmap.
  set (documents := List.map _ docs).
  assert (Hempty : forall t, (size (setOf ∅ t) <= 0)%nat).
  { intros t. unfold setOf. rewrite lookup_empty.
    change (size (∅ : gset string) <= 0)%nat. now rewrite size_empty. }
  pose proof (termDocCount_size documents ∅ 0 Hempty term) as H.
  unfold setOf in H. unfold documents in *. rewrite length_map in *.
  destruct (fold_left _ _ ∅ !! term) as [S|]; simpl in *; lia.
Qed.

Section ScoreFormula.

Local Open Scope R_scope.

Lemma contribution_nonneg (i l : R) (tf : nat) :
  0 <= i -> 0 <= l -> 0 <= contribution i l tf.
Proof.
  intros Hi Hl. unfold contribution. destruct (tf =? 0)%nat eqn:Htf; [lra|].
  apply Nat.eqb_neq in Htf.
  assert (1 <= INR tf) by (replace 1 with (INR 1) by reflexivity; apply le_INR; lia).
  apply Rmult_le_pos; [exact Hi|].
  apply Rmult_le_pos; [nra|]. left. apply Rinv_0_lt_compat. nra.
Qed.

Lemma contribution_monotone (i l : R) (tf tf' : nat) :
  0 <= i -> 0 <= l -> (tf <= tf')%nat ->
  contribution i l tf <= contribution i l tf'.
Proof.
  intros Hi Hl Htf. unfold contribution at 1.
  destruct (tf =? 0)%nat eqn:Hzero; [now apply contribution_nonneg|].
  apply Nat.eqb_neq in Hzero. unfold contribution.
  replace (tf' =? 0)%nat with false by (symmetry; apply Nat.eqb_neq; lia).
  assert (Hone : 1 <= INR tf)
    by (replace 1 with (INR 1) by reflexivity; apply le_INR; lia).
  assert (Hle : INR tf <= INR tf') by (apply le_INR, Htf).
  set (K := 1.5 * (1 - 0.75 + 0.75 * l)).
  assert (HK : 0 < K) by (unfold K; nra).
  apply Rmult_le_compat_l; [exact Hi|].
  apply Rmult_le_reg_r with (r := (INR tf + K) * (INR tf' + K)); [nra|].
  field_simplify; [|nra|nra]. nra.
Qed.

Variable docs : list (string * string).

Lemma idf_value (term : string) :
  BM25.idf (BM25.new docs) term = Num (idfValue docs term) /\ 0 <= idfValue docs term.
Proof.
  unfold BM25.idf, idfValue, Number.of_nat. cbv zeta.
  pose proof (docFrequency_bound docs term) as Hbound. apply le_INR in Hbound.
  pose proof (pos_INR (default 0%nat (BM25.docFrequencies (BM25.new docs) !! term))) as Hpos.
  remember (INR (default 0%nat (BM25.docFrequencies (BM25.new docs) !! term))) as docFreq.
  remember (INR (length (BM25.documents (BM25.new docs)))) as N.
  cbn [Number.sub Number.add].
  rewrite div_Num by lra. cbn [Number.add].
  assert (Hratio : 0 <= (N - docFreq + 0.5) / (docFreq + 0.5)).
  { apply Rmult_le_pos; [lra|]. left. apply Rinv_0_lt_compat. lra. }
  rewrite log_Num by lra. split; [reflexivity|].
  rewrite <- ln_1.
  destruct (Req_dec_T ((N - docFreq + 0.5) / (docFreq + 0.5)) 0) as [H0 | Hne].
  - rewrite H0. replace (0 + 1) with 1 by lra. lra.
  - left. apply ln_increasing; lra.
Qed.

(** The length norm of a chunk of [docLength] tokens, when the average
    document length is positive. *)
Lemma lengthNorm_value (docLength : nat) :
  (Num 0 <? BM25.avgDocLength (BM25.new docs))%num = true ->
  exists l : R,
    (Number.of_nat docLength / BM25.avgDocLength (BM25.new docs))%num = Num l
    /\ 0 <= l.
Proof.
  intros Havg. pose proof (pos_INR docLength) as Hpos. unfold Number.of_nat.
  destruct (BM25.avgDocLength (BM25.new docs)) as [a|[|]|]; simpl in Havg;
    try discriminate.
  - destruct (Rlt_dec 0 a); [|discriminate].
    exists (INR docLength / a). rewrite div_Num by lra. split; [reflexivity|].
    apply Rmult_le_pos; [lra|]. left. now apply Rinv_0_lt_compat.
  - exists 0. split; [reflexivity | lra].
Qed.

Lemma termScore_value (termFreq : nat) (term : string) (docLength : number) (l : R) :
  (docLength / BM25.avgDocLength (BM25.new docs))%num = Num l -> 0 <= l ->
  termFreq <> 0%nat ->
  BM25.termScore (BM25.new docs) termFreq term docLength
  = Num (contribution (idfValue docs term) l termFreq).
Proof.
  intros Hl Hpos Htf. unfold BM25.termScore. rewrite Hl.
  destruct (idf_value term) as [-> _].
  unfold BM25.k1, BM25.b, Number.of_nat. cbn [Number.add Number.sub Number.mul].
  assert (1 <= INR termFreq)
    by (replace 1 with (INR 1) by reflexivity; apply le_INR; lia).
  rewrite div_Num by nra. cbn [Number.mul].
  unfold contribution. apply Nat.eqb_neq in Htf. now rewrite Htf.
Qed.

Lemma score_fold_value (docTokens queryTokens : list string) (docLength : number) (l : R) :
  (docLength / BM25.avgDocLength (BM25.new docs))%num = Num l -> 0 <= l ->
  forall s : R,
    exists v : R,
      fold_left
        (fun score queryTerm =>
           let termFreq := BM25.termFrequency docTokens queryTerm in
           if (termFreq =? 0)%nat then score
           else (score + BM25.termScore (BM25.new docs) termFreq queryTerm docLength)%num)
        queryTokens (Num s) = Num v
      /\ v = s + scoreValue docs l docTokens queryTokens.
Proof.
  intros Hl Hpos. induction queryTokens as [|queryTerm rest IH]; intros s;
    cbn [fold_left scoreValue fold_right].
  - exists s. split; [reflexivity | lra].
  - fold (scoreValue docs l docTokens rest).
    destruct (BM25.termFrequency docTokens queryTerm =? 0)%nat eqn:Htf.
    + destruct (IH s) as [v [Hv ->]]. exists (s + scoreValue docs l docTokens rest).
      split; [exact Hv|]. unfold contribution. rewrite Htf. lra.
    + apply Nat.eqb_neq in Htf.
      rewrite (termScore_value _ _ _ l Hl Hpos Htf). cbn [Number.add].
      destruct (IH (s + contribution (idfValue docs queryTerm) l
                         (BM25.termFrequency docTokens queryTerm))) as [v [Hv ->]].
      eexists. split; [exact Hv | lra].
Qed.

Lemma score_value (docTokens queryTokens : list string) (docLength : number) (l : R) :
  (docLength / BM25.avgDocLength (BM25.new docs))%num = Num l -> 0 <= l ->
  exists v : R,
    BM25.score (BM25.new docs) docTokens queryTokens docLength = Num v
    /\ v = scoreValue docs l docTokens queryTokens.
Proof.
  intros Hl Hpos. unfold BM25.score.
  destruct (score_fold_value docTokens queryTokens docLength l Hl Hpos 0) as [v [Hv ->]].
  eexists. split; [exact Hv | lra].
Qed.

Lemma scoreValue_monotone (l : R) (term : string)
  (docTokens docTokens' queryTokens : list string) :
  0 <= l ->
  (BM25.termFrequency docTokens term <= BM25.termFrequency docTokens' term)%nat ->
  (forall other, In other queryTokens -> other <> term ->
     BM25.termFrequency docTokens other = BM25.termFrequency docTokens' other) ->
  scoreValue docs l docTokens queryTokens <= scoreValue docs l docTokens' queryTokens.
Proof.
  intros Hl Hterm Hothers. induction queryTokens as [|queryTerm rest IH];
    cbn [scoreValue fold_right]; [lra|].
  fold (scoreValue docs l docTokens rest). fold (scoreValue docs l docTokens' rest).
  assert (Hrest : scoreValue docs l docTokens rest <= scoreValue docs l docTokens' rest)
    by (apply IH; intros other Hin; apply Hothers; now right).
  assert (Hhead : contribution (idfValue docs queryTerm) l (BM25.termFrequency docTokens queryTerm)
                  <= contribution (idfValue docs queryTerm) l (BM25.termFrequency docTokens' queryTerm)).
  { destruct (idf_value queryTerm) as [_ Hidf].
    destruct (String.eqb_spec queryTerm term) as [-> | Hne].
    - now apply contribution_monotone.
    - rewrite (Hothers queryTerm) by (try (now left); exact Hne). lra. }
  lra.
Qed.

Lemma sign_of_nat (n : nat) :
  Number.sign (INR n) = Eq \/ Number.sign (INR n) = Gt.
Proof.
  pose proof (pos_INR n) as Hpos. unfold Number.sign.
  destruct (Rlt_dec (INR n) 0); [lra|]. destruct (Rlt_dec 0 (INR n)); auto.
Qed.

Lemma avgDocLength_cases :
  BM25.avgDocLength (BM25.new docs) = NaN
  \/ BM25.avgDocLength (BM25.new docs) = Infinity false
  \/ exists a : R, BM25.avgDocLength (BM25.new docs) = Num a /\ 0 <= a.
Proof.
  cbn [BM25.new BM25.avgDocLength]. unfold Number.of_nat.
  set (total := fold_left _ _ 0%nat). set (N := length _).
  pose proof (pos_INR total) as Htotal. pose proof (pos_INR N) as HN.
  unfold Number.div. destruct (Req_dec_T (INR N) 0) as [Hzero | Hpos].
  - destruct (sign_of_nat total) as [-> | ->]; auto.
  - right. right. eexists. split; [reflexivity|].
    apply Rmult_le_pos; [lra|]. left. apply Rinv_0_lt_compat. lra.
Qed.

(** The length norm of a chunk is a non-negative real, or +Infinity or
    NaN when the average document length is 0 or NaN. *)
Lemma lengthNorm_cases (docLength : nat) :
  (exists l : R,
     (Number.of_nat docLength / BM25.avgDocLength (BM25.new docs))%num = Num l
     /\ 0 <= l)
  \/ (Number.of_nat docLength / BM25.avgDocLength (BM25.new docs))%num = Infinity false
  \/ (Number.of_nat docLength / BM25.avgDocLength (BM25.new docs))%num = NaN.
Proof.
  pose proof (pos_INR docLength) as Hn. unfold Number.of_nat.
  destruct avgDocLength_cases as [-> | [-> | [a [-> Ha]]]].
  - now right; right.
  - left. exists 0. split; [reflexivity | lra].
  - unfold Number.div. destruct (Req_dec_T a 0) as [Hz | Hnz].
    + destruct (sign_of_nat docLength) as [-> | ->]; auto.
    + left. eexists. split; [reflexivity|].
      apply Rmult_le_pos; [lra|]. left. apply Rinv_0_lt_compat. lra.
Qed.

Lemma termScore_infinite_norm (termFreq : nat) (term : string) (docLength : number) :
  (docLength / BM25.avgDocLength (BM25.new docs))%num = Infinity false ->
  BM25.termScore (BM25.new docs) termFreq term docLength = Num (idfValue docs term * 0).
Proof.
  intros Hl. unfold BM25.termScore. rewrite Hl.
  destruct (idf_value term) as [-> _].
  unfold BM25.k1, BM25.b, Number.of_nat.
  cbn [Number.mul]. rewrite (sign_Gt 0.75) by lra.
  cbn [Number.sub Number.add Number.mul]. rewrite (sign_Gt 1.5) by lra.
  reflexivity.
Qed.

Lemma termScore_nan_norm (termFreq : nat) (term : string) (docLength : number) :
  (docLength / BM25.avgDocLength (BM25.new docs))%num = NaN ->
  BM25.termScore (BM25.new docs) termFreq term docLength = NaN.
Proof.
  intros Hl. unfold BM25.termScore. rewrite Hl.
  destruct (idf_value term) as [-> _]. reflexivity.
Qed.

(** With an infinite length norm every term adds 0. *)
Lemma score_infinite_norm (docTokens queryTokens : list string) (docLength : number) :
  (docLength / BM25.avgDocLength (BM25.new docs))%num = Infinity false ->
  exists v : R,
    BM25.score (BM25.new docs) docTokens queryTokens docLength = Num v /\ v = 0.
Proof.
  intros Hl. unfold BM25.score. generalize 0.
  induction queryTokens as [|queryTerm rest IH]; intros s; cbn [fold_left].
  - exists s. split; reflexivity.
  - cbv zeta. destruct (BM25.termFrequency docTokens queryTerm =? 0)%nat; [apply IH|].
    rewrite termScore_infinite_norm by exact Hl. cbn [Number.add].
    destruct (IH (s + idfValue docs queryTerm * 0)) as [v [Hv ->]].
    eexists. split; [exact Hv | lra].
Qed.

(** With the length norm NaN the score is NaN as soon as a query term
    occurs in the chunk. *)
Lemma score_nan_norm (docTokens queryTokens : list string) (docLength : number) :
  (docLength / BM25.avgDocLength (BM25.new docs))%num = NaN ->
  BM25.score (BM25.new docs) docTokens queryTokens docLength
  = if hasQueryTerm docTokens queryTokens then NaN else Num 0.
Proof.
  intros Hl. unfold BM25.score, hasQueryTerm.
  assert (Hnan : forall terms,
             fold_left
               (fun score queryTerm =>
                  let termFreq := BM25.termFrequency docTokens queryTerm in
                  if (termFreq =? 0)%nat then score
                  else (score + BM25.termScore (BM25.new docs) termFreq queryTerm docLength)%num)
               terms NaN = NaN).
  { induction terms as [|queryTerm rest IH]; cbn [fold_left]; [reflexivity|].
    cbv zeta. destruct (BM25.termFrequency docTokens queryTerm =? 0)%nat; apply IH. }
  generalize (Num 0).
  induction queryTokens as [|queryTerm rest IH]; intros start; cbn [fold_left existsb];
    [reflexivity|].
  cbv zeta. destruct (BM25.termFrequency docTokens queryTerm =? 0)%nat; cbn [negb orb].
  - apply IH.
  - rewrite termScore_nan_norm by exact Hl.
    replace (start + NaN)%num with NaN by now destruct start.
    apply Hnan.
Qed.

Lemma hasQueryTerm_false (docTokens queryTokens : list string) :
  hasQueryTerm docTokens queryTokens = false ->
  forall queryTerm, In queryTerm queryTokens ->
    BM25.termFrequency docTokens queryTerm = 0%nat.
Proof.
  unfold hasQueryTerm. induction queryTokens as [|q rest IH]; cbn [existsb];
    intros H queryTerm Hin; [contradiction|].
  apply orb_false_iff in H. destruct H as [Hq Hrest].
  destruct Hin as [<- | Hin]; [|now apply IH].
  apply negb_false_iff, Nat.eqb_eq in Hq. exact Hq.
Qed.

Lemma hasQueryTerm_true (docTokens queryTokens : list string) (queryTerm : string) :
  In queryTerm queryTokens -> BM25.termFrequency docTokens queryTerm <> 0%nat ->
  hasQueryTerm docTokens queryTokens = true.
Proof.
  intros Hin Htf. unfold hasQueryTerm. apply existsb_exists. exists queryTerm.
  split; [exact Hin|]. apply negb_true_iff, Nat.eqb_neq, Htf.
Qed.

(** C6, as amended.  Raising the frequency of one query term in a chunk,
    with the frequency of every other query term, the chunk's token
    count, the corpus size, the document frequencies and the average
    document length unchanged, never lowers the chunk's score; when the
    average document length is positive the new score is at least the
    old one. *)
Theorem score_monotone_in_term_frequency (queryTokens docTokens docTokens' : list string)
  (term : string) (docLength : nat) :
  (BM25.termFrequency docTokens term <= BM25.termFrequency docTokens' term)%nat ->
  (forall other, In other queryTokens -> other <> term ->
     BM25.termFrequency docTokens other = BM25.termFrequency docTokens' other) ->
  (BM25.score (BM25.new docs) docTokens' queryTokens (Number.of_nat docLength)
   <? BM25.score (BM25.new docs) docTokens queryTokens (Number.of_nat docLength))%num
  = false
  /\ ((Num 0 <? BM25.avgDocLength (BM25.new docs))%num = true ->
      (BM25.score (BM25.new docs) docTokens queryTokens (Number.of_nat docLength)
       <=? BM25.score (BM25.new docs) docTokens' queryTokens (Number.of_nat docLength))%num
      = true).
Proof.
  intros Hterm Hothers.
  assert (Hfinite : forall l : R,
             (Number.of_nat docLength / BM25.avgDocLength (BM25.new docs))%num = Num l ->
             0 <= l ->
             exists v v' : R,
               BM25.score (BM25.new docs) docTokens queryTokens (Number.of_nat docLength) = Num v
               /\ BM25.score (BM25.new docs) docTokens' queryTokens (Number.of_nat docLength) = Num v'
               /\ v <= v').
  { intros l Hl Hpos.
    destruct (score_value docTokens queryTokens _ l Hl Hpos) as [v [Hv ->]].
    destruct (score_value docTokens' queryTokens _ l Hl Hpos) as [v' [Hv' ->]].
    do 2 eexists. split; [exact Hv|]. split; [exact Hv'|].
    now apply scoreValue_monotone with (term := term). }
  split.
  - destruct (lengthNorm_cases docLength) as [[l [Hl Hpos]] | [Hinf | Hnan]].
    + destruct (Hfinite l Hl Hpos) as [v [v' [-> [-> Hle]]]].
      unfold Number.ltb. destruct (Rlt_dec v' v); [lra | reflexivity].
    + destruct (score_infinite_norm docTokens queryTokens _ Hinf) as [v [-> ->]].
      destruct (score_infinite_norm docTokens' queryTokens _ Hinf) as [v' [-> ->]].
      unfold Number.ltb. destruct (Rlt_dec 0 0); [lra | reflexivity].
    + rewrite !score_nan_norm by exact Hnan.
      destruct (hasQueryTerm docTokens' queryTokens) eqn:Hnew; [reflexivity|].
      destruct (hasQueryTerm docTokens queryTokens) eqn:Hold.
      * exfalso. apply existsb_exists in Hold. destruct Hold as [q [Hin Hq]].
        apply negb_true_iff, Nat.eqb_neq in Hq.
        pose proof (hasQueryTerm_false _ _ Hnew q Hin) as Hzero.
        destruct (String.eqb_spec q term) as [-> | Hne]; [lia|].
        rewrite (Hothers q Hin Hne) in Hq. contradiction.
      * unfold Number.ltb. destruct (Rlt_dec 0 0); [lra | reflexivity].
  - intros Havg. destruct (lengthNorm_value docLength Havg) as [l [Hl Hpos]].
    destruct (Hfinite l Hl Hpos) as [v [v' [-> [-> Hle]]]].
    unfold Number.leb. destruct (Rle_dec v v'); [reflexivity | contradiction].
Qed.

End ScoreFormula.

Section ScoreExamples.

Local Open Scope R_scope.

Lemma twoChunkCorpus_avg :
  BM25.avgDocLength (BM25.new twoChunkCorpus) = Num 2.
Proof.
  change (BM25.avgDocLength (BM25.new twoChunkCorpus))
    with (Number.of_nat 4 / Number.of_nat 2)%num.
  unfold Number.of_nat. simpl INR. rewrite div_Num by lra. f_equal. lra.
Qed.

Lemma twoChunkCorpus_lengthNorm :
  (Number.of_nat 2 / BM25.avgDocLength (BM25.new twoChunkCorpus))%num = Num 1.
Proof.
  rewrite twoChunkCorpus_avg. unfold Number.of_nat. simpl INR.
  rewrite div_Num by lra. f_equal. lra.
Qed.

Lemma twoChunkCorpus_idf_aaa : idfValue twoChunkCorpus "aaa" = ln 1.2.
Proof.
  unfold idfValue.
  change (default 0%nat (BM25.docFrequencies (BM25.new twoChunkCorpus) !! "aaa"%string))
    with 2%nat.
  change (length (BM25.documents (BM25.new twoChunkCorpus))) with 2%nat.
  simpl INR. f_equal. lra.
Qed.

Lemma twoChunkCorpus_idf_bbb : idfValue twoChunkCorpus "bbb" = ln 2.
Proof.
  unfold idfValue.
  change (default 0%nat (BM25.docFrequencies (BM25.new twoChunkCorpus) !! "bbb"%string))
    with 1%nat.
  change (length (BM25.documents (BM25.new twoChunkCorpus))) with 2%nat.
  simpl INR. f_equal. lra.
Qed.

Lemma contribution_one (i : R) : contribution i 1 1 = i.
Proof.
  unfold contribution. simpl.
  replace (1 + 1.5 * (1 - 0.75 + 0.75 * 1)) with 2.5 by lra. lra.
Qed.

Lemma contribution_two (i : R) : contribution i 1 2 = i * (10 / 7).
Proof.
  unfold contribution. simpl.
  replace (1 + 1 + 1.5 * (1 - 0.75 + 0.75 * 1)) with 3.5 by lra. lra.
Qed.

(** C6, the input on which the claim fails: in the index of the chunks
    "aaa bbb" and "aaa aaa", queried with "aaa bbb", the second chunk has
    the same token count as the first and a higher frequency of "aaa",
    and the lower score. *)
Lemma score_lower_with_higher_frequency :
  BM25.tokenize "aaa bbb" = ["aaa"%string; "bbb"%string]
  /\ BM25.tokenize "aaa aaa" = ["aaa"%string; "aaa"%string]
  /\ (BM25.termFrequency ["aaa"%string; "bbb"%string] "aaa"
      < BM25.termFrequency ["aaa"%string; "aaa"%string] "aaa")%nat
  /\ (BM25.score (BM25.new twoChunkCorpus) ["aaa"%string; "aaa"%string]
        ["aaa"%string; "bbb"%string] (Number.of_nat 2)
      <? BM25.score (BM25.new twoChunkCorpus) ["aaa"%string; "bbb"%string]
           ["aaa"%string; "bbb"%string] (Number.of_nat 2))%num = true.
Proof.
  split; [reflexivity|]. split; [reflexivity|].
  split; [unfold BM25.termFrequency; simpl; lia|].
  assert (Hnorm : 0 <= 1) by lra.
  destruct (score_value twoChunkCorpus ["aaa"%string; "aaa"%string]
              ["aaa"%string; "bbb"%string] _ 1 twoChunkCorpus_lengthNorm Hnorm)
    as [v [-> ->]].
  destruct (score_value twoChunkCorpus ["aaa"%string; "bbb"%string]
              ["aaa"%string; "bbb"%string] _ 1 twoChunkCorpus_lengthNorm Hnorm)
    as [v' [-> ->]].
  apply ltb_Num. unfold scoreValue. cbn [fold_right].
  change (BM25.termFrequency ["aaa"%string; "aaa"%string] "aaa") with 2%nat.
  change (BM25.termFrequency ["aaa"%string; "aaa"%string] "bbb") with 0%nat.
  change (BM25.termFrequency ["aaa"%string; "bbb"%string] "aaa") with 1%nat.
  change (BM25.termFrequency ["aaa"%string; "bbb"%string] "bbb") with 1%nat.
  rewrite twoChunkCorpus_idf_aaa, twoChunkCorpus_idf_bbb.
  rewrite !contribution_one, contribution_two.
  change (contribution (ln 2) 1 0) with 0.
  assert (0 < ln 1.2) by (rewrite <- ln_1; apply ln_increasing; lra).
  assert (ln 1.2 < ln 2) by (apply ln_increasing; lra).
  lra.
Qed.

Lemma score_monotone_in_term_frequency_witness :
  (BM25.score (BM25.new twoChunkCorpus) ["aaa"%string; "aaa"%string]
     ["aaa"%string; "bbb"%string] (Number.of_nat 2)
   <? BM25.score (BM25.new twoChunkCorpus) ["aaa"%string; "ccc"%string]
        ["aaa"%string; "bbb"%string] (Number.of_nat 2))%num = false.
Proof.
  apply (score_monotone_in_term_frequency twoChunkCorpus
           ["aaa"%string; "bbb"%string] ["aaa"%string; "ccc"%string]
           ["aaa"%string; "aaa"%string] "aaa" 2).
  - unfold BM25.termFrequency. simpl. lia.
  - intros other [<- | [<- | []]] Hne; [contradiction | reflexivity].
Defined.

End ScoreExamples.

(** * Further properties *)

(** ** The shape of the chunks *)

Lemma trimEnd_idempotent (s : string) : Str.trimEnd (Str.trimEnd s) = Str.trimEnd s.
Proof.
  induction s as [|c s IH]; simpl; [reflexivity|].
  destruct (Str.trimEnd s) as [|d r] eqn:E.
  - destruct (Str.isWhiteSpace c) eqn:Hc; simpl; [reflexivity|]. now rewrite Hc.
  - cbn [Str.trimEnd]. cbn [Str.trimEnd] in IH. rewrite IH. reflexivity.
Qed.

Lemma trimEnd_blank_or_starts (s : string) :
  Str.trimEnd (Str.trimStart s) = EmptyString
  \/ startsWithText (Str.trimEnd (Str.trimStart s)) = true.
Proof.
  destruct (Str.all Str.isWhiteSpace s) eqn:Hs.
  - left. now rewrite trimStart_blank.
  - right. apply trimEnd_starts, trimStart_starts, Hs.
Qed.

(** What [trim] returns has nothing left to trim. *)
Lemma trim_idempotent (s : string) : Str.trim (Str.trim s) = Str.trim s.
Proof.
  unfold Str.trim.
  destruct (trimEnd_blank_or_starts s) as [-> | H]; [reflexivity|].
  rewrite (trimStart_text _ H). apply trimEnd_idempotent.
Qed.

Lemma trimStart_len (s : string) : Str.len (Str.trimStart s) <= Str.len s.
Proof.
  unfold Str.len. induction s as [|c s IH]; simpl; [lia|].
  destruct (Str.isWhiteSpace c); simpl; lia.
Qed.

Lemma trimEnd_len (s : string) : Str.len (Str.trimEnd s) <= Str.len s.
Proof.
  unfold Str.len. induction s as [|c s IH]; simpl; [lia|].
  destruct (Str.trimEnd s); [destruct (Str.isWhiteSpace c)|]; simpl in *; lia.
Qed.

Lemma trim_len (s : string) : Str.len (Str.trim s) <= Str.len s.
Proof.
  unfold Str.trim. pose proof (trimEnd_len (Str.trimStart s)).
  pose proof (trimStart_len s). lia.
Qed.

(** *** Single spacing *)

Lemma singleSpaced_weaken (b : bool) (s : string) :
  singleSpaced b s = true -> singleSpaced false s = true.
Proof.
  destruct s as [|c s]; cbn [singleSpaced]; [reflexivity|].
  destruct (Str.isWhiteSpace c); [|tauto].
  intros H. apply andb_true_iff in H. destruct H as [H Hs].
  apply andb_true_iff in H. destruct H as [Hsp _]. now rewrite Hsp, Hs.
Qed.

Lemma singleSpaced_tail (b : bool) (c : ascii) (s : string) :
  singleSpaced b (String c s) = true -> singleSpaced false s = true.
Proof.
  cbn [singleSpaced]. destruct (Str.isWhiteSpace c).
  - intros H. apply andb_true_iff in H. destruct H as [_ H].
    now apply singleSpaced_weaken in H.
  - tauto.
Qed.

Lemma replaceWhitespaceRuns_singleSpaced (b : bool) (s : string) :
  singleSpaced b (Str.replaceWhitespaceRuns b s) = true.
Proof.
  revert b. induction s as [|c s IH]; intros b; simpl; [reflexivity|].
  destruct (Str.isWhiteSpace c) eqn:Hc.
  - destruct b; [apply IH|]. simpl. apply IH.
  - simpl. rewrite Hc. apply IH.
Qed.

Lemma singleSpaced_replace (b : bool) (s : string) :
  singleSpaced b s = true -> Str.replaceWhitespaceRuns b s = s.
Proof.
  revert b. induction s as [|c s IH]; intros b; simpl; [reflexivity|].
  destruct (Str.isWhiteSpace c) eqn:Hc.
  - rewrite !andb_true_iff. intros [[Hsp Hb] Hs].
    apply negb_true_iff in Hb. subst b. apply Ascii.eqb_eq in Hsp. subst c.
    now rewrite (IH true Hs).
  - intros Hs. now rewrite (IH false Hs).
Qed.

Lemma singleSpaced_trimStart (b : bool) (s : string) :
  singleSpaced b s = true -> singleSpaced false (Str.trimStart s) = true.
Proof.
  revert b. induction s as [|c s IH]; intros b H; [reflexivity|].
  cbn [Str.trimStart]. destruct (Str.isWhiteSpace c) eqn:Hc.
  - apply singleSpaced_tail in H. now apply IH in H.
  - now apply singleSpaced_weaken in H.
Qed.

Lemma singleSpaced_trimEnd (b : bool) (s : string) :
  singleSpaced b s = true -> singleSpaced b (Str.trimEnd s) = true.
Proof.
  revert b. induction s as [|c s IH]; intros b; [reflexivity|].
  cbn [Str.trimEnd singleSpaced]. destruct (Str.isWhiteSpace c) eqn:Hc.
  - rewrite !andb_true_iff. intros [[Hsp Hb] Hs]. apply IH in Hs.
    destruct (Str.trimEnd s) as [|d r]; [reflexivity|].
    cbn [singleSpaced]. rewrite Hc. cbn [singleSpaced] in Hs.
    now rewrite Hsp, Hb, Hs.
  - intros Hs. apply IH in Hs.
    destruct (Str.trimEnd s) as [|d r]; cbn [singleSpaced]; rewrite Hc.
    + reflexivity.
    + exact Hs.
Qed.

Lemma singleSpaced_trim (b : bool) (s : string) :
  singleSpaced b s = true -> singleSpaced false (Str.trim s) = true.
Proof.
  intros H. unfold Str.trim.
  apply singleSpaced_trimEnd, (singleSpaced_trimStart b), H.
Qed.

Lemma singleSpaced_prefix (s : string) :
  forall (b : bool) (m : nat),
    singleSpaced b s = true -> singleSpaced b (String.substring 0 m s) = true.
Proof.
  induction s as [|c s IH]; intros b m H.
  - destruct m; reflexivity.
  - destruct m as [|m]; [reflexivity|].
    cbn [String.substring singleSpaced]. cbn [singleSpaced] in H.
    destruct (Str.isWhiteSpace c).
    + apply andb_true_iff in H. destruct H as [H Hs]. rewrite H. now apply IH.
    + now apply IH.
Qed.

Lemma singleSpaced_substring (s : string) :
  forall (b : bool) (n m : nat),
    singleSpaced b s = true -> singleSpaced false (String.substring n m s) = true.
Proof.
  induction s as [|c s IH]; intros b n m H.
  - destruct n, m; reflexivity.
  - destruct n as [|n].
    + apply (singleSpaced_weaken b), singleSpaced_prefix, H.
    + cbn [String.substring]. apply singleSpaced_tail in H. now apply (IH false).
Qed.

Lemma normalize_singleSpaced (text : string) :
  singleSpaced false (normalize text) = true.
Proof.
  unfold normalize. apply (singleSpaced_trim false), replaceWhitespaceRuns_singleSpaced.
Qed.

(** A single-spaced string with nothing to trim is its own normal form. *)
Lemma singleSpaced_normalize (s : string) :
  singleSpaced false s = true -> Str.trim s = s -> normalize s = s.
Proof.
  intros Hs Ht. unfold normalize. now rewrite singleSpaced_replace.
Qed.

Lemma normalize_idempotent (text : string) :
  normalize (normalize text) = normalize text.
Proof.
  apply singleSpaced_normalize; [apply normalize_singleSpaced|].
  unfold normalize. apply trim_idempotent.
Qed.

Lemma chunkStep_wellShaped (s : string) (maxChunkSize overlapSize startIndex : Z)
  (chunks : list string) :
  singleSpaced false s = true -> 0 < maxChunkSize ->
  0 <= startIndex -> startIndex < Str.len s ->
  Forall (wellShaped maxChunkSize) chunks ->
  Forall (wellShaped maxChunkSize)
    (snd (chunkStep s maxChunkSize overlapSize startIndex chunks)).
Proof.
  intros Hs Hmax Hstart Hlt Hchunks. unfold chunkStep. cbn [snd].
  set (endIndex := chunkEnd s maxChunkSize startIndex).
  destruct (0 <? Str.len (Str.trim (Str.substring s startIndex endIndex))) eqn:Hlen;
    [|exact Hchunks].
  apply Z.ltb_lt in Hlen. apply Forall_app. split; [exact Hchunks|].
  constructor; [|constructor].
  pose proof (chunkEnd_advances s maxChunkSize startIndex Hmax Hlt) as Hadv.
  pose proof (chunkEnd_bound s maxChunkSize startIndex Hstart Hmax) as Hbound.
  fold endIndex in Hadv, Hbound.
  pose proof (trim_len (Str.substring s startIndex endIndex)) as Htrim.
  rewrite js_substring_len in Htrim by lia.
  split; [lia|]. split; [apply trim_idempotent|].
  apply (singleSpaced_trim false). unfold Str.substring.
  now apply (singleSpaced_substring s false).
Qed.

Lemma chunkLoop_wellShaped (fuel : nat) (s : string) (maxChunkSize overlapSize : Z) :
  singleSpaced false s = true -> 0 < maxChunkSize ->
  forall (startIndex : Z) (chunks result : list string),
    0 <= startIndex ->
    Forall (wellShaped maxChunkSize) chunks ->
    chunkLoop fuel s maxChunkSize overlapSize startIndex chunks = Some result ->
    Forall (wellShaped maxChunkSize) result.
Proof.
  intros Hs Hmax. induction fuel as [|fuel IH]; intros startIndex chunks result Hstart Hchunks;
    cbn [chunkLoop].
  - destruct (startIndex <? Str.len s); [discriminate|]. now intros [= <-].
  - destruct (startIndex <? Str.len s) eqn:Hlt; [|now intros [= <-]].
    apply Z.ltb_lt in Hlt.
    pose proof (chunkStep_advances s maxChunkSize overlapSize startIndex chunks Hmax Hlt) as Hadv.
    pose proof (chunkStep_wellShaped s maxChunkSize overlapSize startIndex chunks
                  Hs Hmax Hstart Hlt Hchunks) as Hstep.
    destruct (chunkStep s maxChunkSize overlapSize startIndex chunks) as [startIndex' chunks'].
    cbn [fst snd] in *. apply IH; [lia | exact Hstep].
Qed.

Lemma chunkText_wellShaped (text : string) (options : ChunkOptions) (chunks : list string) :
  0 < default 1000 (maxChunkSize options) ->
  chunkText text options = Some chunks ->
  Forall (wellShaped (default 1000 (maxChunkSize options))) chunks.
Proof.
  intros Hmax. unfold chunkText, chunkTextWith.
  destruct (String.eqb text EmptyString || (Str.len (Str.trim text) =? 0)) eqn:Hguard.
  { intros [= <-]. constructor. }
  destruct (Str.len (normalize text) <=? default 1000 (maxChunkSize options)) eqn:Hshort.
  - intros [= <-]. constructor; [|constructor].
    apply Z.leb_le in Hshort.
    assert (Hne : normalize text <> EmptyString).
    { intros H. apply (proj1 (normalize_empty_iff text)) in H.
      apply (proj2 (chunkText_guard text)) in H. rewrite H in Hguard. discriminate. }
    split; [|split].
    + pose proof (len_nonneg (normalize text)). pose proof (len_zero_iff (normalize text)).
      assert (Str.len (normalize text) <> 0) by tauto. lia.
    + unfold normalize. apply trim_idempotent.
    + apply normalize_singleSpaced.
  - apply chunkLoop_wellShaped; [apply normalize_singleSpaced | exact Hmax | lia | constructor].
Qed.

(** *** Whitespace layout *)

Lemma chunkText_of_normalize (text text' : string) (options : ChunkOptions) :
  normalize text = normalize text' ->
  chunkText text options = chunkText text' options.
Proof.
  intros H. unfold chunkText, chunkTextWith. rewrite <- H.
  assert (Hguard : (String.eqb text EmptyString || (Str.len (Str.trim text) =? 0))
                   = (String.eqb text' EmptyString || (Str.len (Str.trim text') =? 0))).
  { apply eq_true_iff_eq. rewrite !chunkText_guard, <- !normalize_empty_iff.
    now rewrite H. }
  now rewrite Hguard.
Qed.

(** *** The number of chunks *)

(** When the window does not reach the end of the text, the chunk ends
    within 197 characters of the window's end. *)
Lemma chunkEnd_window (s : string) (maxChunkSize startIndex : Z) :
  0 <= startIndex -> 200 <= maxChunkSize -> startIndex + maxChunkSize < Str.len s ->
  startIndex + maxChunkSize - 197 <= chunkEnd s maxChunkSize startIndex
  <= startIndex + maxChunkSize.
Proof.
  intros Hstart Hmax Hlt. unfold chunkEnd.
  replace (startIndex + maxChunkSize <? Str.len s) with true
    by (symmetry; apply Z.ltb_lt, Hlt).
  set (searchStart := Z.max startIndex (startIndex + maxChunkSize - 200)).
  set (searchText := Str.substring s searchStart (startIndex + maxChunkSize)).
  assert (Hlen : Str.len searchText <= 200).
  { unfold searchText. rewrite js_substring_len by (unfold searchStart; lia).
    unfold searchStart. lia. }
  assert (Hlast : forall p, Str.len p = 2 -> Str.lastIndexOf searchText p <= 198).
  { intros p Hp. destruct (lastIndexOf_bound searchText p); lia. }
  pose proof (Hlast ". "%string eq_refl). pose proof (Hlast "! "%string eq_refl).
  pose proof (Hlast "? "%string eq_refl).
  match goal with |- context [0 <? ?x] => destruct (0 <? x) eqn:Hp end.
  - apply Z.ltb_lt in Hp. unfold searchStart in *. lia.
  - lia.
Qed.

Lemma chunkEnd_last (s : string) (maxChunkSize startIndex : Z) :
  Str.len s <= startIndex + maxChunkSize ->
  chunkEnd s maxChunkSize startIndex = Str.len s.
Proof.
  intros H. unfold chunkEnd.
  now replace (startIndex + maxChunkSize <? Str.len s) with false
    by (symmetry; apply Z.ltb_ge, H).
Qed.

Lemma chunkStep_pushes (s : string) (maxChunkSize overlapSize startIndex : Z)
  (chunks : list string) :
  (length (snd (chunkStep s maxChunkSize overlapSize startIndex chunks))
   <= S (length chunks))%nat.
Proof.
  unfold chunkStep. cbn [snd].
  match goal with |- context [if ?c then _ else _] => destruct c end;
    [rewrite length_app; simpl|]; lia.
Qed.

(** The iterations left from a start index: with the step
    [d = maxChunkSize - overlapSize - 197], one per [d] characters before
    the last [overlapSize] characters, and two more. *)
Lemma chunkLoop_pushes (fuel : nat) (s : string) (maxChunkSize overlapSize : Z) :
  0 <= overlapSize -> overlapSize + 200 <= maxChunkSize ->
  forall (startIndex : Z) (chunks result : list string),
    0 <= startIndex ->
    chunkLoop fuel s maxChunkSize overlapSize startIndex chunks = Some result ->
    (maxChunkSize - overlapSize - 197)
    * (Z.of_nat (length result) - Z.of_nat (length chunks))
    <= if Str.len s <=? startIndex then 0
       else if Str.len s - overlapSize <=? startIndex
            then maxChunkSize - overlapSize - 197
            else Str.len s - overlapSize - startIndex
                 + 2 * (maxChunkSize - overlapSize - 197).
Proof.
  intros Hov Hmax. set (d := maxChunkSize - overlapSize - 197).
  assert (Hd : 3 <= d) by (unfold d; lia).
  induction fuel as [|fuel IH]; intros startIndex chunks result Hstart; cbn [chunkLoop].
  - destruct (startIndex <? Str.len s) eqn:Hlt; [discriminate|].
    intros [= <-]. apply Z.ltb_ge in Hlt.
    replace (Str.len s <=? startIndex) with true by (symmetry; apply Z.leb_le, Hlt). lia.
  - destruct (startIndex <? Str.len s) eqn:Hlt.
    2:{ intros [= <-]. apply Z.ltb_ge in Hlt.
        replace (Str.len s <=? startIndex) with true by (symmetry; apply Z.leb_le, Hlt).
        lia. }
    apply Z.ltb_lt in Hlt.
    replace (Str.len s <=? startIndex) with false by (symmetry; apply Z.leb_gt, Hlt).
    pose proof (chunkStep_pushes s maxChunkSize overlapSize startIndex chunks) as Hpush.
    assert (Hnext : fst (chunkStep s maxChunkSize overlapSize startIndex chunks)
                    = nextStartIndex overlapSize startIndex
                        (chunkEnd s maxChunkSize startIndex)) by reflexivity.
    destruct (chunkStep s maxChunkSize overlapSize startIndex chunks) as [startIndex' chunks'].
    cbn [fst snd] in *. intros Hloop.
    assert (Hstart' : 0 <= startIndex').
    { pose proof (chunkEnd_advances s maxChunkSize startIndex ltac:(lia) Hlt).
      pose proof (nextStartIndex_advances overlapSize startIndex _ H). lia. }
    specialize (IH startIndex' chunks' result Hstart' Hloop).
    unfold nextStartIndex in Hnext.
    destruct (Z.lt_ge_cases (startIndex + maxChunkSize) (Str.len s)) as [Hwin | Hwin].
    + pose proof (chunkEnd_window s maxChunkSize startIndex Hstart ltac:(lia) Hwin) as Hend.
      replace (Str.len s - overlapSize <=? startIndex) with false
        by (symmetry; apply Z.leb_gt; lia).
      destruct (chunkEnd s maxChunkSize startIndex - overlapSize <=? startIndex) eqn:Hback;
        [apply Z.leb_le in Hback | apply Z.leb_gt in Hback];
        destruct (Str.len s <=? startIndex') eqn:H1;
        destruct (Str.len s - overlapSize <=? startIndex') eqn:H2;
        try apply Z.leb_le in H1; try apply Z.leb_gt in H1;
        try apply Z.leb_le in H2; try apply Z.leb_gt in H2; unfold d in *; nia.
    + rewrite chunkEnd_last in Hnext by lia.
      destruct (Str.len s - overlapSize <=? startIndex) eqn:Hback.
      * subst startIndex'.
        replace (Str.len s <=? Str.len s) with true in IH by (symmetry; apply Z.leb_le; lia).
        nia.
      * apply Z.leb_gt in Hback. subst startIndex'.
        destruct (Str.len s <=? Str.len s - overlapSize) eqn:H1;
          [|replace (Str.len s - overlapSize <=? Str.len s - overlapSize) with true in IH
              by (symmetry; apply Z.leb_le; lia)]; nia.
Qed.

Lemma chunkText_count_bound (text : string) (options : ChunkOptions) (chunks : list string) :
  0 <= default 200 (overlapSize options) ->
  default 200 (overlapSize options) + 200 <= default 1000 (maxChunkSize options) ->
  chunkText text options = Some chunks ->
  (default 1000 (maxChunkSize options) - default 200 (overlapSize options) - 197)
  * Z.of_nat (length chunks)
  <= Str.len (normalize text)
     + 2 * (default 1000 (maxChunkSize options) - default 200 (overlapSize options) - 197).
Proof.
  intros Hov Hmax. unfold chunkText, chunkTextWith.
  pose proof (len_nonneg (normalize text)) as Hlen.
  destruct (String.eqb text EmptyString || (Str.len (Str.trim text) =? 0)).
  { intros [= <-]. simpl. lia. }
  destruct (Str.len (normalize text) <=? default 1000 (maxChunkSize options)).
  { intros [= <-]. simpl. lia. }
  intros Hloop.
  pose proof (chunkLoop_pushes _ _ _ _ Hov Hmax 0 [] chunks ltac:(lia) Hloop) as H.
  simpl length in H.
  destruct (Str.len (normalize text) <=? 0);
    [|destruct (Str.len (normalize text) - default 200 (overlapSize options) <=? 0)]; lia.
Qed.

(** *** The first chunk *)

Lemma prefix_cons (c : ascii) (p s : string) :
  String.prefix (String c p) (String c s) = String.prefix p s.
Proof. simpl. destruct (ascii_dec c c); [reflexivity | contradiction]. Qed.

Lemma prefix_refl (s : string) : String.prefix s s = true.
Proof. induction s as [|c s IH]; [reflexivity|]. now rewrite prefix_cons. Qed.

Lemma prefix_trans (p q s : string) :
  String.prefix p q = true -> String.prefix q s = true -> String.prefix p s = true.
Proof.
  revert q s. induction p as [|c p IH]; intros q s; [now destruct s|].
  destruct q as [|d q]; [now destruct s|]. destruct s as [|e s]; [discriminate|].
  simpl. destruct (ascii_dec c d) as [->|]; [|discriminate].
  destruct (ascii_dec d e) as [->|]; [|discriminate].
  destruct (ascii_dec e e); [|contradiction]. apply IH.
Qed.

Lemma trimEnd_prefix (s : string) : String.prefix (Str.trimEnd s) s = true.
Proof.
  induction s as [|c s IH]; [reflexivity|]. cbn [Str.trimEnd].
  destruct (Str.trimEnd s) as [|d r].
  - destruct (Str.isWhiteSpace c); [reflexivity|]. now rewrite prefix_cons.
  - now rewrite prefix_cons.
Qed.

Lemma substring_prefix (s : string) (m : nat) :
  String.prefix (String.substring 0 m s) s = true.
Proof.
  revert m. induction s as [|c s IH]; intros [|m]; try reflexivity.
  cbn [String.substring]. rewrite prefix_cons. apply IH.
Qed.

Lemma js_substring_prefix (s : string) (e : Z) :
  String.prefix (Str.substring s 0 e) s = true.
Proof.
  unfold Str.substring. pose proof (len_nonneg s).
  replace (Z.max 0 (Z.min 0 (Str.len s))) with 0 by lia.
  replace (Z.min 0 (Z.max 0 (Z.min e (Str.len s)))) with 0 by lia.
  apply substring_prefix.
Qed.

(** For a text with a character that is not whitespace the first chunk
    is there, and it is the start of the normalized text. *)
Lemma chunkText_first (text : string) (options : ChunkOptions) :
  Str.trim text <> EmptyString ->
  0 < default 1000 (maxChunkSize options) ->
  exists chunk chunks,
    chunkText text options = Some (chunk :: chunks)
    /\ String.prefix chunk (normalize text) = true.
Proof.
  intros Htext Hmax. unfold chunkText, chunkTextWith.
  destruct (String.eqb text EmptyString || (Str.len (Str.trim text) =? 0)) eqn:Hguard.
  { apply chunkText_guard in Hguard. contradiction. }
  set (s := normalize text).
  set (m := default 1000 (maxChunkSize options)) in *.
  set (o := default 200 (overlapSize options)).
  destruct (Str.len s <=? m) eqn:Hshort.
  { exists s, []. split; [reflexivity | apply prefix_refl]. }
  apply Z.leb_gt in Hshort.
  assert (Hstart : startsWithText s = true) by (apply normalize_starts, Htext).
  destruct (String.length s) as [|fuel] eqn:Hfuel.
  { unfold Str.len in Hshort. rewrite Hfuel in Hshort. simpl in Hshort. lia. }
  cbn [chunkLoop].
  replace (0 <? Str.len s) with true by (symmetry; apply Z.ltb_lt; lia).
  unfold chunkStep.
  assert (Hend : 0 < chunkEnd s m 0) by (apply chunkEnd_advances; lia).
  pose proof (substring_starts s _ Hstart Hend) as Hsub.
  set (chunk := Str.trim (Str.substring s 0 (chunkEnd s m 0))).
  assert (Hchunk : startsWithText chunk = true).
  { unfold chunk, Str.trim. rewrite trimStart_text by exact Hsub.
    apply trimEnd_starts, Hsub. }
  assert (Hprefix : String.prefix chunk s = true).
  { unfold chunk, Str.trim. rewrite trimStart_text by exact Hsub.
    eapply prefix_trans; [apply trimEnd_prefix | apply js_substring_prefix]. }
  replace (0 <? Str.len chunk) with true.
  2:{ symmetry. apply Z.ltb_lt. destruct chunk; [discriminate|].
      unfold Str.len. simpl. lia. }
  cbn [app].
  destruct (chunkLoop_returns fuel s m o Hmax
              (nextStartIndex o 0 (chunkEnd s m 0)) [chunk]) as [result Hresult].
  { pose proof (nextStartIndex_advances o 0 _ Hend). unfold Str.len. rewrite Hfuel. lia. }
  rewrite Hresult.
  apply chunkLoop_extends in Hresult. destruct Hresult as [pushed ->].
  exists chunk, pushed. split; [reflexivity | exact Hprefix].
Qed.

Lemma replaceWhitespaceRuns_len (b : bool) (s : string) :
  Str.len (Str.replaceWhitespaceRuns b s) <= Str.len s.
Proof.
  assert (H : forall b, (String.length (Str.replaceWhitespaceRuns b s)
                         <= String.length s)%nat).
  { induction s as [|c s IH]; intros b'; simpl; [lia|].
    destruct (Str.isWhiteSpace c); [destruct b'|]; simpl;
      pose proof (IH true); pose proof (IH false); lia. }
  unfold Str.len. specialize (H b). lia.
Qed.

Lemma normalize_len (text : string) : Str.len (normalize text) <= Str.len text.
Proof.
  unfold normalize. pose proof (trim_len (Str.replaceWhitespaceRuns false text)).
  pose proof (replaceWhitespaceRuns_len false text). lia.
Qed.

(** *** No text is lost *)

Lemma all_get (f : ascii -> bool) (s : string) :
  Str.all f s = true ->
  forall (p : nat) (c : ascii), String.get p s = Some c -> f c = true.
Proof.
  induction s as [|d s IH]; intros Hall p c; [destruct p; discriminate|].
  cbn [Str.all] in Hall. apply andb_true_iff in Hall. destruct Hall as [Hd Hs].
  destruct p as [|p]; simpl.
  - now intros [= <-].
  - now apply IH.
Qed.

Lemma get_length (s : string) (p : nat) (c : ascii) :
  String.get p s = Some c -> (p < String.length s)%nat.
Proof.
  revert p. induction s as [|d s IH]; intros [|p]; simpl; try discriminate; [lia|].
  intros H. apply IH in H. lia.
Qed.

(** A window with a character that is not whitespace is not trimmed to
    the empty string. *)
Lemma window_not_blank (s : string) (a b : Z) (p : nat) (c : ascii) :
  0 <= a -> a <= Z.of_nat p < b ->
  String.get p s = Some c -> Str.isWhiteSpace c = false ->
  0 < Str.len (Str.trim (Str.substring s a b)).
Proof.
  intros Ha Hp Hget Hc.
  pose proof (len_nonneg (Str.trim (Str.substring s a b))) as Hlen.
  destruct (Z.eq_dec (Str.len (Str.trim (Str.substring s a b))) 0) as [Hzero|]; [|lia].
  exfalso. apply len_zero_iff, trim_empty_iff in Hzero.
  pose proof (get_length s p c Hget) as Hlt.
  assert (Hin : String.get (p - Z.to_nat a) (Str.substring s a b) = Some c).
  { unfold Str.substring, Str.len.
    replace (Z.max 0 (Z.min a (Z.of_nat (String.length s)))) with a by lia.
    set (b' := Z.max 0 (Z.min b (Z.of_nat (String.length s)))).
    assert (Z.of_nat p < b') by (unfold b'; lia).
    replace (Z.min a b') with a by lia. replace (Z.max a b') with b' by lia.
    rewrite substring_correct1 by lia.
    now replace (p - Z.to_nat a + Z.to_nat a)%nat with p by lia. }
  pose proof (all_get _ _ Hzero _ _ Hin) as Hws. congruence.
Qed.

Lemma covered_app (s : string) (chunks more : list string) (p : nat) :
  covered s chunks p -> covered s (chunks ++ more) p.
Proof.
  intros [a [b [Hp Hin]]]. exists a, b. split; [exact Hp|].
  apply in_or_app. now left.
Qed.

Lemma chunkLoop_covers (fuel : nat) (s : string) (maxChunkSize overlapSize : Z) :
  0 < maxChunkSize -> 0 <= overlapSize ->
  forall (startIndex : Z) (chunks result : list string),
    0 <= startIndex ->
    (forall p c, Z.of_nat p < startIndex -> String.get p s = Some c ->
                 Str.isWhiteSpace c = false -> covered s chunks p) ->
    chunkLoop fuel s maxChunkSize overlapSize startIndex chunks = Some result ->
    forall p c, String.get p s = Some c -> Str.isWhiteSpace c = false ->
                covered s result p.
Proof.
  intros Hmax Hov.
  induction fuel as [|fuel IH]; intros startIndex chunks result Hstart Hbefore;
    cbn [chunkLoop].
  - destruct (startIndex <? Str.len s) eqn:Hlt; [discriminate|].
    intros [= <-] p c Hget Hc. apply Z.ltb_ge in Hlt.
    apply (Hbefore p c); [|exact Hget | exact Hc].
    apply get_length in Hget. unfold Str.len in Hlt. lia.
  - destruct (startIndex <? Str.len s) eqn:Hlt.
    2:{ intros [= <-] p c Hget Hc. apply Z.ltb_ge in Hlt.
        apply (Hbefore p c); [|exact Hget | exact Hc].
        apply get_length in Hget. unfold Str.len in Hlt. lia. }
    apply Z.ltb_lt in Hlt. unfold chunkStep.
    set (endIndex := chunkEnd s maxChunkSize startIndex).
    pose proof (chunkEnd_advances s maxChunkSize startIndex Hmax Hlt) as Hend.
    fold endIndex in Hend.
    pose proof (nextStartIndex_advances overlapSize startIndex endIndex Hend) as Hnext.
    assert (Hle : nextStartIndex overlapSize startIndex endIndex <= endIndex).
    { unfold nextStartIndex. destruct (endIndex - overlapSize <=? startIndex); lia. }
    apply IH; [lia|].
    intros p c Hp Hget Hc.
    destruct (Z.lt_ge_cases (Z.of_nat p) startIndex) as [Hold | Hnew].
    + destruct (0 <? Str.len (Str.trim (Str.substring s startIndex endIndex)));
        [apply covered_app|]; now apply (Hbefore p c).
    + assert (Hwindow : startIndex <= Z.of_nat p < endIndex) by lia.
      pose proof (window_not_blank s startIndex endIndex p c Hstart Hwindow Hget Hc)
        as Hlen.
      apply Z.ltb_lt in Hlen. rewrite Hlen.
      exists startIndex, endIndex. split; [exact Hwindow|].
      apply in_or_app. right. now left.
Qed.

Lemma substring_whole (s : string) : Str.substring s 0 (Str.len s) = s.
Proof.
  unfold Str.substring. pose proof (len_nonneg s).
  replace (Z.max 0 (Z.min 0 (Str.len s))) with 0 by lia.
  replace (Z.max 0 (Z.min (Str.len s) (Str.len s))) with (Str.len s) by lia.
  replace (Z.min 0 (Str.len s)) with 0 by lia.
  replace (Z.max 0 (Str.len s)) with (Str.len s) by lia.
  unfold Str.len. rewrite Z.sub_0_r, Nat2Z.id. simpl Z.to_nat.
  apply prefix_correct, prefix_refl.
Qed.

(** X1.  With a positive [maxChunkSize] and an [overlapSize] that is not
    negative no text is lost: every character of the normalized text
    that is not whitespace lies in a chunk, which is the trimmed text of
    a window that holds the character's position. *)
Theorem chunkText_loses_no_text (text : string) (options : ChunkOptions)
  (chunks : list string) (p : nat) (c : ascii) :
  0 < default 1000 (maxChunkSize options) ->
  0 <= default 200 (overlapSize options) ->
  chunkText text options = Some chunks ->
  String.get p (normalize text) = Some c ->
  Str.isWhiteSpace c = false ->
  covered (normalize text) chunks p.
Proof.
  intros Hmax Hov. unfold chunkText, chunkTextWith.
  destruct (String.eqb text EmptyString || (Str.len (Str.trim text) =? 0)) eqn:Hguard.
  { apply chunkText_guard in Hguard. apply (proj2 (normalize_empty_iff text)) in Hguard.
    rewrite Hguard. intros _ H. destruct p; discriminate H. }
  destruct (Str.len (normalize text) <=? default 1000 (maxChunkSize options)).
  - intros [= <-] Hget Hc. exists 0, (Str.len (normalize text)).
    apply get_length in Hget. split; [unfold Str.len; lia|].
    rewrite substring_whole. left. unfold normalize. symmetry. apply trim_idempotent.
  - intros Hloop Hget Hc.
    eapply (chunkLoop_covers _ (normalize text) _ _ Hmax Hov 0 [] chunks);
      [lia | | exact Hloop | exact Hget | exact Hc].
    intros q d Hq. lia.
Qed.

Lemma chunkText_loses_no_text_witness :
  covered (normalize "  one two.   three four! five  ")
    ["one two."%string; "wo."%string; "three four!"%string; "ur! five"%string;
     "five"%string] 9.
Proof.
  apply (chunkText_loses_no_text "  one two.   three four! five  " smallOptions
           ["one two."%string; "wo."%string; "three four!"%string; "ur! five"%string;
            "five"%string] 9 "t").
  - simpl. lia.
  - simpl. lia.
  - reflexivity.
  - reflexivity.
  - reflexivity.
Defined.

(** ** The chunker, further *)

(** X2.  With a positive [maxChunkSize], every chunk [chunkText] returns
    is not empty, is at most [maxChunkSize] characters long, has no
    whitespace at either end, and has single spaces as its only
    whitespace. *)
Theorem chunkText_chunks_trimmed_and_bounded (text : string) (options : ChunkOptions)
  (chunks : list string) :
  0 < default 1000 (maxChunkSize options) ->
  chunkText text options = Some chunks ->
  Forall (wellShaped (default 1000 (maxChunkSize options))) chunks.
Proof. apply chunkText_wellShaped. Qed.

Lemma chunkText_chunks_trimmed_and_bounded_witness :
  Forall (wellShaped 12)
    ["one two."%string; "wo."%string; "three four!"%string; "ur! five"%string;
     "five"%string].
Proof.
  apply (chunkText_chunks_trimmed_and_bounded "  one two.   three four! five  "
           smallOptions).
  - simpl. lia.
  - reflexivity.
Defined.




(** X4.  Normalizing a text twice is normalizing it once, and
    [chunkText] returns for a text what it returns for its normalized
    form: the chunks do not depend on the layout of the whitespace. *)
Theorem chunkText_ignores_whitespace_layout (text : string) (options : ChunkOptions) :
  normalize (normalize text) = normalize text
  /\ chunkText (normalize text) options = chunkText text options.
Proof.
  split; [apply normalize_idempotent|].
  apply chunkText_of_normalize, normalize_idempotent.
Qed.

(** X5.  With an overlap that is not negative and at least 200 below
    [maxChunkSize], the length of the normalized text bounds the number
    of chunks [chunkText] returns: with
    [d = maxChunkSize - overlapSize - 197], which is 603 for the default
    options, [d * chunks <= length + 2 * d]. *)
Theorem chunkText_number_of_chunks (text : string) (options : ChunkOptions)
  (chunks : list string) :
  0 <= default 200 (overlapSize options) ->
  default 200 (overlapSize options) + 200 <= default 1000 (maxChunkSize options) ->
  chunkText text options = Some chunks ->
  (default 1000 (maxChunkSize options) - default 200 (overlapSize options) - 197)
  * Z.of_nat (length chunks)
  <= Str.len (normalize text)
     + 2 * (default 1000 (maxChunkSize options) - default 200 (overlapSize options) - 197).
Proof. apply chunkText_count_bound. Qed.

Lemma chunkText_number_of_chunks_witness :
  exists chunks,
    chunkText sampleText defaultOptions = Some chunks
    /\ (1000 - 200 - 197) * Z.of_nat (length chunks)
       <= Str.len (normalize sampleText) + 2 * (1000 - 200 - 197).
Proof.
  destruct (chunkText sampleText defaultOptions) as [chunks|] eqn:Hchunks;
    [|vm_compute in Hchunks; discriminate].
  exists chunks. split; [reflexivity|].
  apply (chunkText_number_of_chunks sampleText defaultOptions chunks).
  - simpl. lia.
  - simpl. lia.
  - exact Hchunks.
Defined.

(** X6.  With a positive [maxChunkSize], [chunkText] returns no chunk
    exactly for the texts that are empty or all whitespace; for every
    other text the first chunk is the start of the normalized text. *)
Theorem chunkText_first_chunk (text : string) (options : ChunkOptions) :
  0 < default 1000 (maxChunkSize options) ->
  (chunkText text options = Some [] <-> Str.trim text = EmptyString)
  /\ (forall chunk chunks,
        chunkText text options = Some (chunk :: chunks) ->
        String.prefix chunk (normalize text) = true).
Proof.
  intros Hmax. destruct (string_dec (Str.trim text) EmptyString) as [Hblank | Htext].
  - assert (Hnone : chunkText text options = Some []).
    { unfold chunkText, chunkTextWith.
      now rewrite (proj2 (chunkText_guard text) Hblank). }
    split; [tauto|]. intros chunk chunks H. rewrite Hnone in H. discriminate.
  - destruct (chunkText_first text options Htext Hmax) as [chunk [chunks [Hsome Hprefix]]].
    split.
    + split; [|contradiction]. intros H. rewrite Hsome in H. discriminate.
    + intros chunk' chunks' H. rewrite Hsome in H. now injection H as <- <-.
Qed.

Lemma chunkText_first_chunk_witness :
  (chunkText "  one two.   three four! five  " smallOptions = Some []
   <-> Str.trim "  one two.   three four! five  " = EmptyString)
  /\ (forall chunk chunks,
        chunkText "  one two.   three four! five  " smallOptions = Some (chunk :: chunks) ->
        String.prefix chunk (normalize "  one two.   three four! five  ") = true).
Proof.
  apply (chunkText_first_chunk "  one two.   three four! five  " smallOptions).
  simpl. lia.
Defined.

(** ** The cosine similarity of finite vectors *)

Lemma number_mul_comm (a b : number) : (a * b)%num = (b * a)%num.
Proof.
  destruct a as [x|s|], b as [y|t|]; simpl; try reflexivity.
  - now rewrite Rmult_comm.
  - now rewrite xorb_comm.
Qed.

Lemma cosine_fold_swap (vecA vecB : list number) :
  forall dotProduct normA normB : number,
    fold_left
      (fun '(dotProduct, normA, normB) '(a, b) =>
         (dotProduct + a * b, normA + a * a, normB + b * b)%num)
      (combine vecB vecA) (dotProduct, normB, normA)
    = let '(dotProduct', normA', normB') :=
        fold_left
          (fun '(dotProduct, normA, normB) '(a, b) =>
             (dotProduct + a * b, normA + a * a, normB + b * b)%num)
          (combine vecA vecB) (dotProduct, normA, normB) in
      (dotProduct', normB', normA').
Proof.
  revert vecB. induction vecA as [|a vecA IH]; intros [|b vecB] dotProduct normA normB;
    try reflexivity.
  cbn [combine fold_left]. rewrite (number_mul_comm b a). apply IH.
Qed.

Section FiniteVectors.

Local Open Scope R_scope.

Lemma cosine_fold_value (u v : list R) :
  length u = length v ->
  forall d x y : R,
    fold_left
      (fun '(dotProduct, normA, normB) '(a, b) =>
         (dotProduct + a * b, normA + a * a, normB + b * b)%num)
      (combine (vector u) (vector v)) (Num d, Num x, Num y)
    = (Num (d + dot u v), Num (x + dot u u), Num (y + dot v v)).
Proof.
  revert v. induction u as [|a u IH]; intros [|b v] Hlen d x y; try discriminate.
  - unfold dot. simpl. now rewrite !Rplus_0_r.
  - injection Hlen as Hlen. cbn [vector List.map combine fold_left Number.mul Number.add].
    fold (vector u). fold (vector v). rewrite (IH v Hlen).
    unfold dot. cbn [combine fold_right fst snd].
    f_equal; [f_equal|]; f_equal; ring.
Qed.

Lemma dot_self_nonneg (u : list R) : 0 <= dot u u.
Proof.
  unfold dot. induction u as [|a u IH]; simpl; [lra|]. nra.
Qed.

Lemma dot_self_zero (u : list R) : Forall (fun a => a = 0) u -> dot u u = 0.
Proof.
  unfold dot. induction 1 as [|a u Ha _ IH]; simpl; [reflexivity|]. subst a. lra.
Qed.

Lemma dot_zero_r (u v : list R) : Forall (fun b => b = 0) v -> dot u v = 0.
Proof.
  intros Hv. revert u. induction Hv as [|b v Hb _ IH]; intros [|a u];
    try reflexivity.
  unfold dot in *. simpl. rewrite IH. subst b. lra.
Qed.

Lemma cosine_value (u v : list R) :
  length u = length v ->
  cosineSimilarity (vector u) (vector v)
  = Ok (Num (dot u v) / (Num (sqrt (dot u u)) * Num (sqrt (dot v v))))%num.
Proof.
  intros Hlen. unfold cosineSimilarity, vector at 1 2. rewrite !length_map.
  replace (length u =? length v)%nat with true by (symmetry; now apply Nat.eqb_eq).
  cbn [negb]. rewrite (cosine_fold_value u v Hlen 0 0 0). rewrite !Rplus_0_l.
  rewrite !sqrt_Num by apply dot_self_nonneg. reflexivity.
Qed.

Lemma cosine_zero (u v : list R) :
  length u = length v -> Forall (fun b => b = 0) v ->
  cosineSimilarity (vector u) (vector v) = Ok NaN.
Proof.
  intros Hlen Hv. rewrite (cosine_value u v Hlen).
  rewrite (dot_zero_r u v Hv), (dot_self_zero v Hv), sqrt_0.
  cbn [Number.mul]. rewrite Rmult_0_r. now rewrite div_zero_zero.
Qed.

End FiniteVectors.

Lemma cosine_symmetric (vecA vecB : list number) :
  cosineSimilarity vecA vecB = cosineSimilarity vecB vecA.
Proof.
  unfold cosineSimilarity. rewrite (Nat.eqb_sym (length vecB)).
  destruct (length vecA =? length vecB)%nat; [|reflexivity]. cbn [negb].
  rewrite (cosine_fold_swap vecA vecB (Num 0) (Num 0) (Num 0)).
  destruct (fold_left _ (combine vecA vecB) _) as [[dotProduct normA] normB].
  now rewrite (number_mul_comm (Math.sqrt normB)).
Qed.

(** ** The batches of [generateEmbeddings] *)

Section Batches.

Variable embeddingsCreate : list string -> result (list (list number)).
Variable embed : string -> list number.

(** The service answers a batch of 1 to 100 inputs with one vector for
    each input, in order. *)
Hypothesis embeddingsCreate_batch :
  forall batch : list string,
    (1 <= length batch <= 100)%nat ->
    embeddingsCreate batch = Ok (List.map embed batch).

Lemma batches_fold (texts : list string) (count : nat) :
  forall first : nat,
    ((first + count) * 100 < length texts + 100)%nat ->
    fold_left
      (fun acc i =>
         let* embeddings := acc in
         let* response := embeddingsCreate (firstn 100 (skipn i texts)) in
         Ok (embeddings ++ response))
      (List.map (fun k => (k * 100)%nat) (seq first count))
      (Ok (List.map embed (firstn (first * 100) texts)))
    = Ok (List.map embed (firstn ((first + count) * 100) texts)).
Proof.
  induction count as [|count IH]; intros first Hlast.
  - simpl. now rewrite Nat.add_0_r.
  - cbn [seq List.map fold_left bind].
    rewrite embeddingsCreate_batch.
    2:{ rewrite length_firstn, length_skipn. lia. }
    cbn [bind]. rewrite <- List.map_app.
    replace (firstn (first * 100) texts ++ firstn 100 (skipn (first * 100) texts))
      with (firstn (S first * 100) texts).
    2:{ rewrite <- (firstn_skipn (first * 100) texts) at 1.
        rewrite firstn_app, length_firstn.
        rewrite firstn_firstn.
        replace (Nat.min (S first * 100) (first * 100)) with (first * 100)%nat by lia.
        f_equal. f_equal. lia. }
    rewrite (IH (S first)) by lia. do 3 f_equal. lia.
Qed.

Lemma generateEmbeddings_value (texts : list string) :
  generateEmbeddings embeddingsCreate texts = Ok (List.map embed texts).
Proof.
  unfold generateEmbeddings. cbv zeta.
  set (count := Nat.div (length texts + 100 - 1) 100).
  assert (Hcount : (count * 100 < length texts + 100)%nat
                   /\ (length texts <= count * 100)%nat).
  { unfold count.
    pose proof (Nat.div_mod (length texts + 100 - 1) 100 ltac:(lia)) as Hdiv.
    pose proof (Nat.mod_upper_bound (length texts + 100 - 1) 100 ltac:(lia)). lia. }
  pose proof (batches_fold texts count 0 ltac:(simpl; lia)) as H.
  simpl firstn in H. simpl List.map at 2 in H. rewrite H. simpl Nat.add.
  rewrite firstn_all2 by lia. reflexivity.
Qed.

End Batches.

Lemma unitService_batch (batch : list string) :
  (1 <= length batch <= 100)%nat ->
  unitService batch = Ok (List.map (fun _ => [Num 1]) batch).
Proof.
  intros [Hlow Hhigh]. unfold unitService.
  apply Nat.leb_le in Hlow, Hhigh. now rewrite Hlow, Hhigh.
Qed.

(** X7.  When the service answers every batch of 1 to 100 inputs with
    one vector for each input, in order, [generateEmbeddings] returns
    one vector for each text, in the order of the texts; it sends the
    service no batch that is empty or longer than 100. *)
Theorem generateEmbeddings_one_vector_per_text
  (embeddingsCreate : list string -> result (list (list number)))
  (embed : string -> list number) (texts : list string) :
  (forall batch : list string,
     (1 <= length batch <= 100)%nat ->
     embeddingsCreate batch = Ok (List.map embed batch)) ->
  generateEmbeddings embeddingsCreate texts = Ok (List.map embed texts).
Proof. intros Hbatch. now apply (generateEmbeddings_value embeddingsCreate embed). Qed.

Lemma generateEmbeddings_one_vector_per_text_witness :
  generateEmbeddings unitService (repeat "abc"%string 250)
  = Ok (List.map (fun _ => [Num 1]) (repeat "abc"%string 250)).
Proof.
  apply (generateEmbeddings_one_vector_per_text unitService (fun _ => [Num 1])).
  exact unitService_batch.
Defined.

(** ** The embeddings, further *)

(** X8.  [cosineSimilarity] does not depend on the order of its two
    arguments: it throws for both orders or returns the same number. *)
Theorem cosineSimilarity_symmetric (vecA vecB : list number) :
  cosineSimilarity vecA vecB = cosineSimilarity vecB vecA.
Proof. apply cosine_symmetric. Qed.

Section CosineOfFiniteVectors.

Local Open Scope R_scope.

(** X9.  For two vectors of finite numbers with the same length, one of
    which has only zeros, [cosineSimilarity] returns NaN, whichever of
    its two arguments the zero vector is: the value is 0 / 0. *)
Theorem cosineSimilarity_zero_vector_is_NaN (u v : list R) :
  length u = length v ->
  Forall (fun b => b = 0) v ->
  cosineSimilarity (vector u) (vector v) = Ok NaN
  /\ cosineSimilarity (vector v) (vector u) = Ok NaN.
Proof.
  intros Hlen Hv. rewrite (cosine_symmetric (vector v)).
  split; now apply cosine_zero.
Qed.

Lemma cosineSimilarity_zero_vector_is_NaN_witness :
  cosineSimilarity (vector [1; 2]) (vector [0; 0]) = Ok NaN
  /\ cosineSimilarity (vector [0; 0]) (vector [1; 2]) = Ok NaN.
Proof.
  apply (cosineSimilarity_zero_vector_is_NaN [1; 2] [0; 0]).
  - reflexivity.
  - repeat constructor.
Defined.

End CosineOfFiniteVectors.

(** ** Tokens and case *)

Lemma lowerChar_idempotent (c : ascii) :
  Str.lowerChar (Str.lowerChar c) = Str.lowerChar c.
Proof. destruct c as [[] [] [] [] [] [] [] []]; reflexivity. Qed.

Lemma lowerChar_wordChar (c : ascii) :
  Str.isWordChar (Str.lowerChar c) = true -> isTokenChar (Str.lowerChar c) = true.
Proof. destruct c as [[] [] [] [] [] [] [] []]; intros H; try reflexivity; discriminate H. Qed.

Lemma toLowerCase_idempotent (s : string) :
  Str.toLowerCase (Str.toLowerCase s) = Str.toLowerCase s.
Proof.
  unfold Str.toLowerCase. induction s as [|c s IH]; simpl; [reflexivity|].
  now rewrite lowerChar_idempotent, IH.
Qed.

Lemma splitWhitespace_all (p : ascii -> bool) (s : string) :
  Str.all (fun c => Str.isWhiteSpace c || p c) s = true ->
  forall inRun : bool,
    Forall (fun piece => Str.all p piece = true) (Str.splitWhitespace inRun s).
Proof.
  induction s as [|c s IH]; intros Hs inRun; cbn [Str.splitWhitespace].
  - constructor; [reflexivity | constructor].
  - cbn [Str.all] in Hs. apply andb_true_iff in Hs. destruct Hs as [Hc Hs].
    destruct (Str.isWhiteSpace c) eqn:Hws.
    + destruct inRun; [now apply IH|]. constructor; [reflexivity | now apply IH].
    + simpl in Hc. specialize (IH Hs false).
      destruct (Str.splitWhitespace false s) as [|piece pieces].
      * constructor; [|constructor]. simpl. now rewrite Hc.
      * inversion IH as [|? ? Hpiece Hpieces]; subst.
        constructor; [|exact Hpieces]. simpl. now rewrite Hc, Hpiece.
Qed.

Lemma tokenize_prepared (text : string) :
  Str.all (fun c => Str.isWhiteSpace c || isTokenChar c)
    (Str.replacePunctuation (Str.toLowerCase text)) = true.
Proof.
  unfold Str.replacePunctuation, Str.toLowerCase.
  induction text as [|c text IH]; simpl; [reflexivity|].
  rewrite IH, andb_true_r.
  destruct (Str.isWordChar (Str.lowerChar c)) eqn:Hw.
  - simpl. rewrite (lowerChar_wordChar c Hw). apply orb_true_r.
  - destruct (Str.isWhiteSpace (Str.lowerChar c)) eqn:Hs; simpl.
    + now rewrite Hs.
    + reflexivity.
Qed.

Lemma tokenize_toLowerCase (text : string) :
  BM25.tokenize (Str.toLowerCase text) = BM25.tokenize text.
Proof. unfold BM25.tokenize. now rewrite toLowerCase_idempotent. Qed.

(** X10.  Every token [tokenize] returns has at least 3 characters, each
    of them a digit, an underscore or a letter from a to z; and the
    tokens of a text do not depend on the case of its letters. *)
Theorem tokenize_tokens_are_lowercase_words (text : string) :
  Forall (fun token => (3 <= String.length token)%nat
                       /\ Str.all isTokenChar token = true)
    (BM25.tokenize text)
  /\ BM25.tokenize (Str.toLowerCase text) = BM25.tokenize text.
Proof.
  split; [|apply tokenize_toLowerCase].
  unfold BM25.tokenize. apply List.Forall_forall. intros token Hin.
  apply filter_In in Hin. destruct Hin as [Hin Hlen]. apply Nat.ltb_lt in Hlen.
  split; [lia|].
  pose proof (splitWhitespace_all isTokenChar _ (tokenize_prepared text) false) as Hall.
  rewrite List.Forall_forall in Hall. now apply Hall.
Qed.

(** ** Scores of the documents of an index *)

Lemma termFrequency_nil (queryTerm : string) : BM25.termFrequency [] queryTerm = 0%nat.
Proof. reflexivity. Qed.

(** A document that has none of the query tokens scores 0. *)
Lemma score_no_match (self : BM25.BM25) (docTokens queryTokens : list string)
  (docLength : number) :
  hasQueryTerm docTokens queryTokens = false ->
  BM25.score self docTokens queryTokens docLength = Num 0.
Proof.
  intros H. unfold BM25.score. generalize (Num 0).
  induction queryTokens as [|queryTerm rest IH]; intros start; [reflexivity|].
  cbn [fold_left]. cbv zeta.
  rewrite (hasQueryTerm_false _ _ H queryTerm) by now left.
  cbn [Nat.eqb]. apply IH. unfold hasQueryTerm in *. cbn [existsb] in H.
  now apply orb_false_iff in H.
Qed.

Lemma hasQueryTerm_nil (queryTokens : list string) :
  hasQueryTerm [] queryTokens = false.
Proof.
  unfold hasQueryTerm. induction queryTokens as [|q rest IH]; [reflexivity|].
  cbn [existsb]. now rewrite IH.
Qed.

Lemma totalLength_from (documents : list BM25.BM25Document) :
  forall start : nat,
    fold_left (fun sum doc => (sum + length (BM25.tokens doc))%nat) documents start
    = (start + fold_left (fun sum doc => (sum + length (BM25.tokens doc))%nat)
                 documents 0)%nat.
Proof.
  induction documents as [|doc documents IH]; intros start; simpl; [lia|].
  rewrite (IH (start + _)%nat), (IH (length _)). lia.
Qed.

Lemma totalLength_bound (documents : list BM25.BM25Document) (doc : BM25.BM25Document) :
  In doc documents ->
  (length (BM25.tokens doc)
   <= fold_left (fun sum doc => (sum + length (BM25.tokens doc))%nat) documents 0)%nat.
Proof.
  induction documents as [|d documents IH]; intros Hin; [contradiction|].
  simpl. rewrite totalLength_from. destruct Hin as [-> | Hin]; [lia|].
  specialize (IH Hin). lia.
Qed.

Section CorpusScores.

Local Open Scope R_scope.

Variable docs : list (string * string).

Lemma idf_positive (term : string) : 0 < idfValue docs term.
Proof.
  unfold idfValue.
  pose proof (docFrequency_bound docs term) as Hbound. apply le_INR in Hbound.
  pose proof (pos_INR (default 0%nat (BM25.docFrequencies (BM25.new docs) !! term))) as Hpos.
  remember (INR (default 0%nat (BM25.docFrequencies (BM25.new docs) !! term))) as docFreq.
  remember (INR (length (BM25.documents (BM25.new docs)))) as N.
  assert (Hratio : 0 < (N - docFreq + 0.5) / (docFreq + 0.5)).
  { apply Rmult_lt_0_compat; [lra|]. apply Rinv_0_lt_compat. lra. }
  rewrite <- ln_1. apply ln_increasing; lra.
Qed.

Lemma contribution_positive (i l : R) (tf : nat) :
  0 < i -> 0 <= l -> tf <> 0%nat -> 0 < contribution i l tf.
Proof.
  intros Hi Hl Htf. unfold contribution.
  replace (tf =? 0)%nat with false by (symmetry; now apply Nat.eqb_neq).
  assert (1 <= INR tf) by (replace 1 with (INR 1) by reflexivity; apply le_INR; lia).
  apply Rmult_lt_0_compat; [exact Hi|].
  apply Rmult_lt_0_compat; [nra|]. apply Rinv_0_lt_compat. nra.
Qed.

Lemma scoreValue_nonneg (l : R) (docTokens queryTokens : list string) :
  0 <= l -> 0 <= scoreValue docs l docTokens queryTokens.
Proof.
  intros Hl. induction queryTokens as [|q rest IH]; cbn [scoreValue fold_right]; [lra|].
  fold (scoreValue docs l docTokens rest).
  pose proof (contribution_nonneg (idfValue docs q) l (BM25.termFrequency docTokens q)
                (Rlt_le _ _ (idf_positive q)) Hl). lra.
Qed.

Lemma scoreValue_positive (l : R) (docTokens queryTokens : list string) :
  0 <= l -> hasQueryTerm docTokens queryTokens = true ->
  0 < scoreValue docs l docTokens queryTokens.
Proof.
  intros Hl. unfold hasQueryTerm.
  induction queryTokens as [|q rest IH]; cbn [existsb scoreValue fold_right];
    [discriminate|].
  fold (scoreValue docs l docTokens rest).
  pose proof (scoreValue_nonneg l docTokens rest Hl) as Hrest.
  pose proof (contribution_nonneg (idfValue docs q) l (BM25.termFrequency docTokens q)
                (Rlt_le _ _ (idf_positive q)) Hl) as Hq.
  intros H. apply orb_true_iff in H. destruct H as [H | H].
  - apply negb_true_iff, Nat.eqb_neq in H.
    pose proof (contribution_positive _ l _ (idf_positive q) Hl H). lra.
  - specialize (IH H). lra.
Qed.

(** The average length of an index with a document that has tokens. *)
Lemma avgDocLength_positive (doc : BM25.BM25Document) :
  In doc (BM25.documents (BM25.new docs)) -> BM25.tokens doc <> [] ->
  (Num 0 <? BM25.avgDocLength (BM25.new docs))%num = true.
Proof.
  intros Hin Htokens. pose proof (totalLength_bound _ doc Hin) as Hbound.
  cbn [BM25.new BM25.avgDocLength BM25.documents] in *.
  set (documents := List.map _ docs) in *.
  set (total := fold_left _ documents 0%nat) in *.
  assert (Hlen : (0 < length (BM25.tokens doc))%nat)
    by (destruct (BM25.tokens doc); [contradiction | simpl; lia]).
  assert (HN : (0 < length documents)%nat)
    by (destruct documents; [contradiction | simpl; lia]).
  assert (0 < INR total) by (apply lt_0_INR; lia).
  assert (0 < INR (length documents)) by (apply lt_0_INR; lia).
  unfold Number.of_nat. rewrite div_Num by lra. apply ltb_Num.
  apply Rmult_lt_0_compat; [lra|]. apply Rinv_0_lt_compat. lra.
Qed.

(** In its own index a document has a finite score, which is positive
    exactly when the document has a query token. *)
Lemma scoreOf_value (query : string) (doc : BM25.BM25Document) :
  In doc (BM25.documents (BM25.new docs)) ->
  exists v : R,
    scoreOf (BM25.new docs) query doc = Num v
    /\ 0 <= v
    /\ (hasQueryTerm (BM25.tokens doc) (BM25.tokenize query) = true -> 0 < v).
Proof.
  intros Hin. unfold scoreOf.
  destruct (BM25.tokens doc) as [|token tokens] eqn:Htokens.
  - exists 0. rewrite score_no_match by apply hasQueryTerm_nil.
    split; [reflexivity|]. split; [lra|]. now rewrite hasQueryTerm_nil.
  - rewrite <- Htokens.
    assert (Hne : BM25.tokens doc <> []) by (rewrite Htokens; discriminate).
    pose proof (avgDocLength_positive doc Hin Hne) as Havg.
    destruct (lengthNorm_value docs (length (BM25.tokens doc)) Havg) as [l [Hl Hpos]].
    destruct (score_value docs (BM25.tokens doc) (BM25.tokenize query) _ l Hl Hpos)
      as [v [Hv ->]].
    eexists. split; [exact Hv|]. split.
    + now apply scoreValue_nonneg.
    + now apply scoreValue_positive.
Qed.

End CorpusScores.

(** ** The results of [search] *)

Lemma firstn_In {A : Type} (n : nat) (l : list A) (x : A) :
  In x (firstn n l) -> In x l.
Proof.
  revert l. induction n as [|n IH]; intros [|y l]; simpl; try tauto.
  intros [-> | H]; [now left | right; now apply IH].
Qed.

Lemma slice0_In {A : Type} (l : list A) (end_ : Z) (x : A) :
  In x (Array.slice0 l end_) -> In x l.
Proof. unfold Array.slice0. apply firstn_In. Qed.

Lemma slice0_all {A : Type} (l : list A) (end_ : Z) :
  Z.of_nat (length l) <= end_ -> Array.slice0 l end_ = l.
Proof.
  intros H. unfold Array.slice0.
  replace (end_ <? 0) with false by (symmetry; apply Z.ltb_ge; lia).
  apply firstn_all2. lia.
Qed.

Lemma filter_descending {A : Type} (key : A -> number) (p : A -> bool) (l : list A) :
  descending key l -> descending key (List.filter p l).
Proof.
  unfold descending. induction 1 as [|x l Hsorted IH Hx]; simpl; [constructor|].
  destruct (p x); [|exact IH]. constructor; [exact IH|].
  apply List.Forall_forall. intros y Hy. apply filter_In in Hy.
  rewrite List.Forall_forall in Hx. now apply Hx.
Qed.

Lemma search_In (self : BM25.BM25) (query : string) (topK : Z) (r : string * number) :
  In r (BM25.search self query topK) ->
  (exists doc, In doc (BM25.documents self)
               /\ r = (BM25.id doc, scoreOf self query doc))
  /\ (snd r >? Num 0)%num = true.
Proof.
  unfold BM25.search. intros Hin. apply filter_In in Hin. destruct Hin as [Hin Hpos].
  split; [|exact Hpos].
  apply slice0_In in Hin.
  apply (Permutation_in _ (sort_perm snd _)) in Hin.
  apply in_map_iff in Hin. destruct Hin as [doc [<- Hdoc]]. now exists doc.
Qed.

Lemma search_matching (self : BM25.BM25) (query : string) (topK : Z) :
  Forall (fun r => exists doc,
            In doc (BM25.documents self)
            /\ r = (BM25.id doc, scoreOf self query doc)
            /\ (scoreOf self query doc >? Num 0)%num = true
            /\ hasQueryTerm (BM25.tokens doc) (BM25.tokenize query) = true)
    (BM25.search self query topK).
Proof.
  apply List.Forall_forall. intros r Hin.
  destruct (search_In _ _ _ _ Hin) as [[doc [Hdoc ->]] Hpos]. cbn [snd] in Hpos.
  exists doc. split; [exact Hdoc|]. split; [reflexivity|]. split; [exact Hpos|].
  destruct (hasQueryTerm (BM25.tokens doc) (BM25.tokenize query)) eqn:Hmatch;
    [reflexivity|].
  unfold scoreOf in Hpos. rewrite score_no_match in Hpos by exact Hmatch.
  unfold Number.gtb, Number.ltb in Hpos. destruct (Rlt_dec 0 0); [lra | discriminate].
Qed.

Lemma search_length (self : BM25.BM25) (query : string) (topK : Z) :
  0 <= topK -> Z.of_nat (length (BM25.search self query topK)) <= topK.
Proof.
  intros HtopK. unfold BM25.search.
  match goal with |- context [List.filter ?p ?l] =>
    pose proof (filter_length_le p l) as Hfilter;
    pose proof (slice0_length (Array.sort (fun a b => (snd b - snd a)%num)
                  (List.map (fun doc => (BM25.id doc, scoreOf self query doc))
                     (BM25.documents self))) topK HtopK) as Hslice
  end.
  unfold scoreOf in Hslice. lia.
Qed.

Lemma search_descending (docs : list (string * string)) (query : string) (topK : Z) :
  descending snd (BM25.search (BM25.new docs) query topK).
Proof.
  unfold BM25.search. apply filter_descending. unfold Array.slice0.
  apply firstn_descending, sort_descending.
  apply List.Forall_forall. intros r Hin. apply in_map_iff in Hin.
  destruct Hin as [doc [<- Hdoc]]. cbn [snd].
  destruct (scoreOf_value docs query doc Hdoc) as [v [Hv _]].
  unfold scoreOf in Hv. rewrite Hv. discriminate.
Qed.

(** X11.  In an index built by the constructor, with [topK] at least the
    number of documents, [search] returns every document that has a
    token of the query among its tokens. *)
Theorem search_returns_every_match (docs : list (string * string)) (query : string) (topK : Z)
  (doc : BM25.BM25Document) :
  Z.of_nat (length docs) <= topK ->
  In doc (BM25.documents (BM25.new docs)) ->
  hasQueryTerm (BM25.tokens doc) (BM25.tokenize query) = true ->
  In (BM25.id doc, scoreOf (BM25.new docs) query doc)
    (BM25.search (BM25.new docs) query topK).
Proof.
  intros HtopK Hdoc Hmatch. unfold BM25.search. apply filter_In. split.
  - rewrite slice0_all.
    + apply (Permutation_in _ (Permutation_sym (sort_perm snd _))).
      apply in_map_iff. now exists doc.
    + erewrite Permutation_length by apply (sort_perm snd).
      rewrite length_map. cbn [BM25.new BM25.documents]. now rewrite length_map.
  - cbn [snd]. destruct (scoreOf_value docs query doc Hdoc) as [v [Hv [_ Hpos]]].
    rewrite Hv. apply ltb_Num. now apply Hpos.
Qed.

Lemma search_returns_every_match_witness :
  In ("A"%string,
      scoreOf (BM25.new twoChunkCorpus) "Bbb?"
        {| BM25.id := "A"; BM25.content := "aaa bbb";
           BM25.tokens := ["aaa"%string; "bbb"%string] |})
    (BM25.search (BM25.new twoChunkCorpus) "Bbb?" 10).
Proof.
  apply (search_returns_every_match twoChunkCorpus "Bbb?" 10
           {| BM25.id := "A"; BM25.content := "aaa bbb";
              BM25.tokens := ["aaa"%string; "bbb"%string] |}).
  - simpl. lia.
  - left. reflexivity.
  - reflexivity.
Defined.

(** ** Document frequencies *)

Lemma setOf_addTermDoc (docId : string) (termDocCount : gmap string (gset string))
  (term other : string) :
  setOf (BM25.addTermDoc docId termDocCount term) other
  = if decide (term = other) then {[docId]} ∪ setOf termDocCount other
    else setOf termDocCount other.
Proof.
  unfold setOf, BM25.addTermDoc. destruct (decide (term = other)) as [-> | Hne].
  - now rewrite lookup_insert_eq.
  - now rewrite lookup_insert_ne.
Qed.

Lemma setOf_addTerms (docId : string) (terms : list string) (other : string) :
  forall termDocCount : gmap string (gset string),
    setOf (fold_left (BM25.addTermDoc docId) terms termDocCount) other
    = if decide (other ∈ terms) then {[docId]} ∪ setOf termDocCount other
      else setOf termDocCount other.
Proof.
  induction terms as [|term terms IH]; intros termDocCount; cbn [fold_left].
  - rewrite decide_False by apply not_elem_of_nil. reflexivity.
  - rewrite IH, setOf_addTermDoc.
    destruct (decide (term = other)) as [-> | Hne].
    + rewrite (decide_True (P := other ∈ other :: terms)) by apply list_elem_of_here.
      destruct (decide (other ∈ terms)); [|reflexivity].
      now rewrite (assoc_L (∪)), (idemp_L (∪)).
    + destruct (decide (other ∈ terms)) as [Hin | Hout].
      * rewrite decide_True by now apply list_elem_of_further. reflexivity.
      * rewrite decide_False; [reflexivity|].
        intros H. apply elem_of_cons in H. destruct H as [-> | H]; contradiction.
Qed.

(** The ids recorded for a term are the ids of the documents that have
    the term among their tokens. *)
Lemma setOf_documents (documents : list BM25.BM25Document) (term : string) :
  forall termDocCount : gmap string (gset string),
    setOf
      (fold_left
         (fun termDocCount doc =>
            fold_left (BM25.addTermDoc (BM25.id doc))
              (remove_dups (BM25.tokens doc)) termDocCount)
         documents termDocCount) term
    = setOf termDocCount term
      ∪ list_to_set
          (List.map BM25.id
             (List.filter (fun doc => existsb (String.eqb term) (BM25.tokens doc))
                documents)).
Proof.
  induction documents as [|doc documents IH]; intros termDocCount; cbn [fold_left].
  - cbn [List.filter List.map list_to_set]. now rewrite (right_id_L ∅ (∪)).
  - rewrite IH, setOf_addTerms. cbn [List.filter].
    destruct (existsb (String.eqb term) (BM25.tokens doc)) eqn:Hhas.
    + apply existsb_exists in Hhas. destruct Hhas as [t [Hin Ht]].
      apply String.eqb_eq in Ht. subst t.
      rewrite decide_True by (apply elem_of_remove_dups, list_elem_of_In, Hin).
      cbn [List.map list_to_set].
      now rewrite (comm_L (∪) {[BM25.id doc]}), <- (assoc_L (∪)).
    + rewrite decide_False; [reflexivity|]. intros Hin.
      apply (proj1 (elem_of_remove_dups _ _)) in Hin.
      apply (proj1 (list_elem_of_In _ _)) in Hin.
      assert (existsb (String.eqb term) (BM25.tokens doc) = true); [|congruence].
      apply existsb_exists. exists term. split; [exact Hin | apply String.eqb_refl].
Qed.

Lemma setOf_empty (term : string) : setOf ∅ term = ∅.
Proof. unfold setOf. now rewrite lookup_empty. Qed.

Lemma lookup_fmap_size (termDocCount : gmap string (gset string)) (term : string) :
  default 0%nat ((size <$> termDocCount) !! term) = size (setOf termDocCount term).
Proof.
  unfold setOf. rewrite lookup_fmap.
  destruct (termDocCount !! term); [reflexivity|].
  change (0%nat = size (∅ : gset string)). now rewrite size_empty.
Qed.

Lemma NoDup_map_filter {A B : Type} (f : A -> B) (p : A -> bool) (l : list A) :
  NoDup (List.map f l) -> NoDup (List.map f (List.filter p l)).
Proof.
  induction l as [|x l IH]; simpl; [tauto|].
  intros H. apply NoDup_cons in H. destruct H as [Hx Hl].
  destruct (p x); [|now apply IH]. simpl. apply NoDup_cons. split; [|now apply IH].
  intros Hin. apply Hx. apply list_elem_of_In in Hin. apply list_elem_of_In.
  apply in_map_iff in Hin. destruct Hin as [y [Hy Hin]].
  apply filter_In in Hin. apply in_map_iff. exists y. tauto.
Qed.

(** X12.  In an index built by the constructor from documents with
    pairwise distinct ids, the document frequency of a term is the
    number of documents that have the term among their tokens. *)
Theorem docFrequency_counts_documents (docs : list (string * string)) (term : string) :
  NoDup (List.map fst docs) ->
  default 0%nat (BM25.docFrequencies (BM25.new docs) !! term)
  = length
      (List.filter (fun doc => existsb (String.eqb term) (BM25.tokenize (snd doc)))
         docs).
Proof.
  intros Hids. cbn [BM25.new BM25.docFrequencies].
  unfold BM25.calculateDocFrequencies. rewrite lookup_fmap_size.
  set (documents := List.map _ docs).
  rewrite (setOf_documents documents term ∅), setOf_empty, (left_id_L ∅ (∪)).
  rewrite size_list_to_set.
  2:{ apply NoDup_map_filter. unfold documents. rewrite List.map_map. exact Hids. }
  rewrite length_map. unfold documents.
  clear. induction docs as [|doc docs IH]; [reflexivity|].
  cbn [List.map List.filter BM25.tokens].
  destruct (existsb (String.eqb term) (BM25.tokenize (snd doc))); simpl; now rewrite IH.
Qed.

Lemma docFrequency_counts_documents_witness :
  default 0%nat (BM25.docFrequencies (BM25.new twoChunkCorpus) !! "bbb"%string)
  = length
      (List.filter (fun doc => existsb (String.eqb "bbb") (BM25.tokenize (snd doc)))
         twoChunkCorpus).
Proof.
  apply (docFrequency_counts_documents twoChunkCorpus "bbb").
  apply NoDup_cons. split; [|apply NoDup_singleton].
  intros H. apply list_elem_of_singleton in H. discriminate H.
Defined.

(** ** Rare terms *)

Section InverseDocumentFrequency.

Local Open Scope R_scope.

Lemma idfValue_antitone (docs : list (string * string)) (term term' : string) :
  (default 0%nat (BM25.docFrequencies (BM25.new docs) !! term)
   <= default 0%nat (BM25.docFrequencies (BM25.new docs) !! term'))%nat ->
  idfValue docs term' <= idfValue docs term.
Proof.
  intros Hle. unfold idfValue. apply le_INR in Hle.
  pose proof (docFrequency_bound docs term') as Hbound. apply le_INR in Hbound.
  pose proof (pos_INR (default 0%nat (BM25.docFrequencies (BM25.new docs) !! term))) as Hpos.
  remember (INR (default 0%nat (BM25.docFrequencies (BM25.new docs) !! term))) as d.
  remember (INR (default 0%nat (BM25.docFrequencies (BM25.new docs) !! term'))) as d'.
  remember (INR (length (BM25.documents (BM25.new docs)))) as N.
  assert (Hratio' : 0 < (N - d' + 0.5) / (d' + 0.5)).
  { apply Rmult_lt_0_compat; [lra|]. apply Rinv_0_lt_compat. lra. }
  assert (Hratio : (N - d' + 0.5) / (d' + 0.5) <= (N - d + 0.5) / (d + 0.5)).
  { apply Rmult_le_reg_r with (r := (d + 0.5) * (d' + 0.5)); [nra|].
    field_simplify; [|lra|lra]. nra. }
  destruct (Req_dec_T ((N - d' + 0.5) / (d' + 0.5)) ((N - d + 0.5) / (d + 0.5)))
    as [-> | Hne]; [lra|].
  left. apply ln_increasing; lra.
Qed.

End InverseDocumentFrequency.

(** ** The BM25 index, further *)

(** X13.  In an index built by the constructor the inverse document
    frequency of every term is a positive number, and a term that occurs
    in fewer documents has the larger one. *)
Theorem idf_larger_for_rarer_term (docs : list (string * string)) (term term' : string) :
  (default 0%nat (BM25.docFrequencies (BM25.new docs) !! term)
   <= default 0%nat (BM25.docFrequencies (BM25.new docs) !! term'))%nat ->
  (Num 0 <? BM25.idf (BM25.new docs) term')%num = true
  /\ (BM25.idf (BM25.new docs) term' <=? BM25.idf (BM25.new docs) term)%num = true.
Proof.
  intros Hle.
  destruct (idf_value docs term) as [-> _]. destruct (idf_value docs term') as [-> _].
  split.
  - apply ltb_Num, idf_positive.
  - pose proof (idfValue_antitone docs term term' Hle) as H.
    unfold Number.leb. now destruct (Rle_dec _ _).
Qed.

Lemma idf_larger_for_rarer_term_witness :
  (Num 0 <? BM25.idf (BM25.new twoChunkCorpus) "aaa")%num = true
  /\ (BM25.idf (BM25.new twoChunkCorpus) "aaa"
      <=? BM25.idf (BM25.new twoChunkCorpus) "bbb")%num = true.
Proof.
  apply (idf_larger_for_rarer_term twoChunkCorpus "bbb" "aaa").
  vm_compute. lia.
Defined.

(** X14.  In an index built by the constructor [search] returns its
    results in descending order of score, at most [topK] of them when
    [topK] is not negative, and each result is a document of the index
    with its score, which is positive, and with a token of the query
    among its tokens. *)
Theorem search_results_match_and_descend (docs : list (string * string))
  (query : string) (topK : Z) :
  descending snd (BM25.search (BM25.new docs) query topK)
  /\ (0 <= topK -> Z.of_nat (length (BM25.search (BM25.new docs) query topK)) <= topK)
  /\ Forall (fun r => exists doc,
               In doc (BM25.documents (BM25.new docs))
               /\ r = (BM25.id doc, scoreOf (BM25.new docs) query doc)
               /\ (scoreOf (BM25.new docs) query doc >? Num 0)%num = true
               /\ hasQueryTerm (BM25.tokens doc) (BM25.tokenize query) = true)
       (BM25.search (BM25.new docs) query topK).
Proof.
  split; [apply search_descending|]. split; [apply search_length|].
  apply search_matching.
Qed.

(** ** The catalog *)

Section JsMapFacts.

Context {V : Type}.

Lemma JsMap_get_set_same (m : JsMap.t V) (key : string) (value : V) :
  JsMap.get (JsMap.set m key value) key = Some value.
Proof.
  induction m as [|[k v] m IH]; simpl.
  - now rewrite String.eqb_refl.
  - destruct (String.eqb k key) eqn:Hk; simpl; now rewrite Hk.
Qed.

Lemma JsMap_set_In (m : JsMap.t V) (key : string) (value : V) :
  In (key, value) (JsMap.set m key value).
Proof.
  induction m as [|[k v] m IH]; simpl; [now left|].
  destruct (String.eqb_spec k key) as [-> | Hk]; [now left | now right].
Qed.

Lemma JsMap_get_set_other (m : JsMap.t V) (key other : string) (value : V) :
  other <> key -> JsMap.get (JsMap.set m key value) other = JsMap.get m other.
Proof.
  intros Hne. induction m as [|[k v] m IH]; simpl.
  - destruct (String.eqb_spec key other); [congruence | reflexivity].
  - destruct (String.eqb_spec k key) as [-> | Hk]; simpl.
    + destruct (String.eqb_spec key other); [congruence | reflexivity].
    + now rewrite IH.
Qed.

Lemma JsMap_get_In (m : JsMap.t V) (key : string) :
  JsMap.get m key = None <-> ~ In key (List.map fst m).
Proof.
  induction m as [|[k v] m IH]; simpl; [tauto|].
  destruct (String.eqb_spec k key) as [-> | Hk].
  - split; [discriminate | intros H; exfalso; apply H; now left].
  - rewrite IH. tauto.
Qed.

Lemma JsMap_set_absent (m : JsMap.t V) (key : string) (value : V) :
  JsMap.get m key = None -> JsMap.set m key value = m ++ [(key, value)].
Proof.
  induction m as [|[k v] m IH]; simpl; [reflexivity|].
  destruct (String.eqb k key); [discriminate|]. intros H. now rewrite IH.
Qed.

Lemma JsMap_set_present_keys (m : JsMap.t V) (key : string) (value : V) :
  JsMap.has m key = true ->
  List.map fst (JsMap.set m key value) = List.map fst m.
Proof.
  unfold JsMap.has. induction m as [|[k v] m IH]; simpl; [discriminate|].
  destruct (String.eqb k key); [reflexivity|]. intros H. simpl. now rewrite IH.
Qed.

Lemma JsMap_set_size (m : JsMap.t V) (key : string) (value : V) :
  JsMap.size (JsMap.set m key value)
  = if JsMap.has m key then JsMap.size m else S (JsMap.size m).
Proof.
  unfold JsMap.size, JsMap.has. induction m as [|[k v] m IH]; simpl; [reflexivity|].
  destruct (String.eqb k key); [reflexivity|]. simpl. rewrite IH.
  now destruct (JsMap.get m key).
Qed.

Lemma JsMap_set_keysUnique (m : JsMap.t V) (key : string) (value : V) :
  keysUnique m -> keysUnique (JsMap.set m key value).
Proof.
  unfold keysUnique. intros Hm.
  destruct (JsMap.has m key) eqn:Hhas.
  - now rewrite JsMap_set_present_keys.
  - unfold JsMap.has in Hhas. destruct (JsMap.get m key) eqn:Hget; [discriminate|].
    rewrite (JsMap_set_absent m key value Hget), List.map_app. simpl.
    apply (Permutation_NoDup (Permutation_cons_append (List.map fst m) key)).
    constructor; [now apply JsMap_get_In | exact Hm].
Qed.

Lemma JsMap_delete_keys_incl (m : JsMap.t V) (key other : string) :
  In other (List.map fst (JsMap.delete m key)) -> In other (List.map fst m).
Proof.
  induction m as [|[k v] m IH]; simpl; [tauto|].
  destruct (String.eqb k key); simpl; tauto.
Qed.

Lemma JsMap_delete_keysUnique (m : JsMap.t V) (key : string) :
  keysUnique m -> keysUnique (JsMap.delete m key).
Proof.
  unfold keysUnique. induction m as [|[k v] m IH]; simpl; [tauto|].
  intros Hm. inversion Hm as [|? ? Hk Hrest]; subst.
  destruct (String.eqb k key); [exact Hrest|]. simpl. constructor.
  - intros Hin. apply Hk. eapply JsMap_delete_keys_incl, Hin.
  - now apply IH.
Qed.

Lemma JsMap_get_delete_same (m : JsMap.t V) (key : string) :
  keysUnique m -> JsMap.get (JsMap.delete m key) key = None.
Proof.
  unfold keysUnique. induction m as [|[k v] m IH]; simpl; [reflexivity|].
  intros Hm. inversion Hm as [|? ? Hk Hrest]; subst.
  destruct (String.eqb_spec k key) as [-> | Hne].
  - now apply JsMap_get_In.
  - simpl. destruct (String.eqb_spec k key); [contradiction|]. now apply IH.
Qed.

Lemma JsMap_get_delete_other (m : JsMap.t V) (key other : string) :
  other <> key -> JsMap.get (JsMap.delete m key) other = JsMap.get m other.
Proof.
  intros Hne. induction m as [|[k v] m IH]; simpl; [reflexivity|].
  destruct (String.eqb_spec k key) as [-> | Hk]; simpl.
  - destruct (String.eqb_spec key other); [congruence | reflexivity].
  - now rewrite IH.
Qed.

Lemma JsMap_delete_size (m : JsMap.t V) (key : string) :
  JsMap.has m key = true -> S (JsMap.size (JsMap.delete m key)) = JsMap.size m.
Proof.
  unfold JsMap.size, JsMap.has. induction m as [|[k v] m IH]; simpl; [discriminate|].
  destruct (String.eqb k key); [reflexivity|]. simpl. intros H. now rewrite IH.
Qed.

Lemma JsMap_delete_set_absent (m : JsMap.t V) (key : string) (value : V) :
  JsMap.get m key = None -> JsMap.delete (JsMap.set m key value) key = m.
Proof.
  induction m as [|[k v] m IH]; simpl.
  - now rewrite String.eqb_refl.
  - destruct (String.eqb k key) eqn:Hk; [discriminate|]. intros H. simpl.
    now rewrite Hk, IH.
Qed.

Lemma JsMap_fold_set_keysUnique (loaded : list V) (key : V -> string) :
  forall m : JsMap.t V,
    keysUnique m ->
    keysUnique (fold_left (fun m value => JsMap.set m (key value) value) loaded m).
Proof.
  induction loaded as [|value loaded IH]; intros m Hm; simpl; [exact Hm|].
  apply IH, JsMap_set_keysUnique, Hm.
Qed.

End JsMapFacts.

Lemma JsMap_empty_keysUnique {V : Type} : keysUnique ([] : JsMap.t V).
Proof. constructor. Qed.

(** The chunks of a stored document and those of the others. *)
Lemma delete_chunks (m : JsMap.t Document) (id : string) (document : Document) :
  JsMap.get m id = Some document ->
  concat (List.map Document.chunks (JsMap.values m))
  ≡ₚ Document.chunks document
     ++ concat (List.map Document.chunks (JsMap.values (JsMap.delete m id))).
Proof.
  unfold JsMap.values. induction m as [|[k v] m IH]; simpl; [discriminate|].
  destruct (String.eqb k id).
  - now intros [= ->].
  - intros H. simpl. rewrite (IH H).
    rewrite !app_assoc. apply Permutation_app_tail, Permutation_app_comm.
Qed.

(** ** The keyword score and the occurrences of the terms *)

Lemma countMatches_includes (pattern s : string) :
  (0 < Str.countMatches pattern s)%nat <-> Str.includes s pattern = true.
Proof.
  unfold Str.countMatches. induction s as [|c s IH]; cbn [Str.countMatchesFrom Str.includes].
  - destruct (String.prefix pattern EmptyString); simpl; split; intros H;
      try reflexivity; try lia; discriminate.
  - destruct (String.prefix pattern (String c s)); cbn [orb].
    + split; intros _; [reflexivity | lia].
    + exact IH.
Qed.

Section KeywordPositive.

Local Open Scope R_scope.

Lemma sumLog_zero (freqs : list nat) :
  countMatched freqs = 0%nat -> sumLog freqs = 0.
Proof.
  induction freqs as [|freq freqs IH]; [reflexivity|].
  rewrite countMatched_cons, sumLog_cons. destruct freq as [|freq]; simpl Nat.ltb.
  - intros H. rewrite IH by exact H. rewrite ln_one_plus_zero. lra.
  - cbn [Nat.ltb Nat.leb]. intros H. lia.
Qed.

Lemma countMatched_positive (text : string) (terms : list string) :
  (0 < countMatched (List.map (termMatches text) terms))%nat
  <-> Exists (fun term => (3 <= String.length term)%nat
                          /\ Str.includes (Str.toLowerCase text) term = true) terms.
Proof.
  induction terms as [|term terms IH].
  - simpl. split; [intros H; unfold countMatched in H; simpl in H; lia
                  | intros H; inversion H].
  - cbn [List.map]. rewrite countMatched_cons, Exists_cons, <- IH.
    unfold termMatches at 1.
    destruct (String.length term <? 3)%nat eqn:Hlen.
    + apply Nat.ltb_lt in Hlen. cbn [Nat.ltb Nat.leb]. split; [intros H; right; lia|].
      intros [[H _] | H]; lia.
    + apply Nat.ltb_ge in Hlen.
      destruct (0 <? Str.countMatches term (Str.toLowerCase text))%nat eqn:Hcount.
      * apply Nat.ltb_lt, countMatches_includes in Hcount.
        split; [intros _; left; now split | intros _; lia].
      * split; [intros H; right; lia|].
        intros [[_ H] | H]; [|lia].
        apply countMatches_includes, Nat.ltb_lt in H. congruence.
Qed.

Lemma keywordFormula_positive (query text : string) :
  0 < keywordFormula query text
  <-> Exists (fun term => (3 <= String.length term)%nat
                          /\ Str.includes (Str.toLowerCase text) term = true)
        (queryTerms query).
Proof.
  rewrite <- countMatched_positive. unfold keywordFormula. cbv zeta.
  set (freqs := List.map (termMatches text) (queryTerms query)).
  pose proof (queryTerms_length query) as Hn.
  pose proof (sumLog_nonneg freqs) as Hsum.
  set (n := INR (length (queryTerms query))) in *.
  rewrite (Rmax_right 1 n) by exact Hn.
  assert (Hinv : 0 < / n) by (apply Rinv_0_lt_compat; lra).
  assert (Hfirst : 0 <= sumLog freqs / n * 0.5).
  { unfold Rdiv. apply Rmult_le_pos; [|lra]. apply Rmult_le_pos; lra. }
  destruct (countMatched freqs) as [|m] eqn:Hm.
  - rewrite (sumLog_zero freqs Hm). simpl INR.
    replace (0 / n * 0.5 + 0 / n * 0.5) with 0 by (unfold Rdiv; lra).
    rewrite Rmin_right by lra. split; [lra | lia].
  - split; [intros _; lia|]. intros _.
    assert (Hm1 : 1 <= INR (S m))
      by (replace 1 with (INR 1) by reflexivity; apply le_INR; lia).
    assert (0 < INR (S m) / n * 0.5).
    { unfold Rdiv. apply Rmult_lt_0_compat; [|lra]. apply Rmult_lt_0_compat; lra. }
    apply Rmin_glb_lt; lra.
Qed.

End KeywordPositive.

(** ** The chunks [hybridSearch] returns *)

Section HybridChunks.

Variable regExpMatches : string -> string -> result nat.

Lemma scoreChunk_chunk (query : string) (queryEmbedding : list number)
  (c : DocumentChunk) (r : SearchResult) :
  Store.scoreChunk regExpMatches query queryEmbedding c = Ok r -> chunk r = c.
Proof.
  unfold Store.scoreChunk.
  destruct (cosineSimilarity _ _); [|discriminate]. cbn [bind].
  destruct (Store.calculateKeywordScore _ _ _); [|discriminate]. cbn [bind].
  now intros [= <-].
Qed.

Lemma scoreChunks_chunks (query : string) (queryEmbedding : list number)
  (allChunks : list DocumentChunk) :
  forall results,
    Store.scoreChunks regExpMatches query queryEmbedding allChunks = Ok results ->
    List.map chunk results = allChunks.
Proof.
  induction allChunks as [|c rest IH]; intros results; cbn [Store.scoreChunks].
  - now intros [= <-].
  - destruct (Store.scoreChunk _ _ _ c) as [r|] eqn:Hr; [|discriminate]. cbn [bind].
    destruct (Store.scoreChunks _ _ _ rest) as [results'|]; [|discriminate]. cbn [bind].
    intros [= <-]. cbn [List.map]. now rewrite (IH results' eq_refl), (scoreChunk_chunk _ _ _ _ Hr).
Qed.

(** X15.  With a [topK] that is not negative [hybridSearch] returns
    [topK] results, or one for each chunk when the store has fewer; the
    chunks of the results are chunks of the store, none more often than
    the store has it. *)
Theorem hybridSearch_returns_chunks_of_store (self : DocumentStore) (query : string)
  (queryEmbedding : list number) (topK : Z) (results : list SearchResult) :
  Store.hybridSearch regExpMatches self query queryEmbedding topK = Ok results ->
  0 <= topK ->
  length results = Nat.min (Z.to_nat topK) (length (Store.getAllChunks self))
  /\ exists rest, Permutation (List.map chunk results ++ rest) (Store.getAllChunks self).
Proof.
  unfold Store.hybridSearch. intros H HtopK.
  destruct (length (Store.getAllChunks self) =? 0)%nat eqn:Hempty.
  - injection H as <-. apply Nat.eqb_eq in Hempty. rewrite Hempty.
    split; [simpl; lia|]. exists []. apply length_zero_iff_nil in Hempty.
    rewrite Hempty. constructor.
  - destruct (Store.scoreChunks _ _ _ _) as [scored|] eqn:Hscored; [|discriminate].
    cbn [bind] in H. injection H as <-.
    pose proof (scoreChunks_chunks _ _ _ _ Hscored) as Hchunks.
    pose proof (sort_perm score scored) as Hperm.
    set (sorted := Array.sort _ scored) in *.
    assert (Hlen : length sorted = length (Store.getAllChunks self)).
    { rewrite (Permutation_length Hperm), <- Hchunks. now rewrite length_map. }
    unfold Array.slice0.
    replace (topK <? 0) with false by (symmetry; apply Z.ltb_ge; lia).
    split; [rewrite length_firstn; lia|].
    set (k := Z.to_nat (Z.min topK (Z.of_nat (length sorted)))).
    exists (List.map chunk (skipn k sorted)).
    rewrite <- List.map_app, firstn_skipn, <- Hchunks. now apply Permutation_map.
Qed.

(** *** The dimension of the embeddings *)

Lemma scoreChunk_literal (query : string) (queryEmbedding : list number)
  (c : DocumentChunk) :
  literalTerms (queryTerms query) ->
  if (length queryEmbedding =? length (DocumentChunk.embedding c))%nat
  then exists r, Store.scoreChunk regExpMatches query queryEmbedding c = Ok r
  else Store.scoreChunk regExpMatches query queryEmbedding c = Throw dimensionMismatch.
Proof.
  intros Hliteral. unfold Store.scoreChunk, cosineSimilarity.
  destruct (length queryEmbedding =? length (DocumentChunk.embedding c))%nat;
    cbn [negb]; [|reflexivity].
  destruct (fold_left _ _ _) as [[dotProduct normA] normB]. cbn [bind].
  rewrite (calculateKeywordScore_value regExpMatches query _ Hliteral). cbn [bind].
  eauto.
Qed.

Lemma scoreChunks_returns (query : string) (queryEmbedding : list number)
  (allChunks : list DocumentChunk) :
  literalTerms (queryTerms query) ->
  Forall (fun c => length (DocumentChunk.embedding c) = length queryEmbedding) allChunks ->
  exists results,
    Store.scoreChunks regExpMatches query queryEmbedding allChunks = Ok results.
Proof.
  intros Hliteral. induction 1 as [|c rest Hc _ IH]; cbn [Store.scoreChunks]; [eauto|].
  pose proof (scoreChunk_literal query queryEmbedding c Hliteral) as Hr.
  replace (length queryEmbedding =? length (DocumentChunk.embedding c))%nat with true in Hr
    by (symmetry; apply Nat.eqb_eq; congruence).
  destruct Hr as [r ->]. destruct IH as [results ->]. cbn [bind]. eauto.
Qed.

Lemma scoreChunks_throws (query : string) (queryEmbedding : list number)
  (allChunks : list DocumentChunk) :
  literalTerms (queryTerms query) ->
  Exists (fun c => length (DocumentChunk.embedding c) <> length queryEmbedding) allChunks ->
  Store.scoreChunks regExpMatches query queryEmbedding allChunks = Throw dimensionMismatch.
Proof.
  intros Hliteral. induction allChunks as [|c rest IH]; intros Hex; [inversion Hex|].
  cbn [Store.scoreChunks].
  pose proof (scoreChunk_literal query queryEmbedding c Hliteral) as Hr.
  destruct (length queryEmbedding =? length (DocumentChunk.embedding c))%nat eqn:Hdim.
  - apply Nat.eqb_eq in Hdim. destruct Hr as [r ->]. cbn [bind].
    rewrite IH; [reflexivity|]. inversion Hex; subst; [congruence | assumption].
  - now rewrite Hr.
Qed.

(** X16.  For a query whose terms have no syntax characters,
    [hybridSearch] returns when the embedding of every chunk has the
    length of the query embedding, and throws the dimension error when
    some chunk's has not. *)
Theorem hybridSearch_throws_on_dimension (self : DocumentStore) (query : string)
  (queryEmbedding : list number) (topK : Z) :
  literalTerms (queryTerms query) ->
  (Forall (fun c => length (DocumentChunk.embedding c) = length queryEmbedding)
     (Store.getAllChunks self) ->
   exists results,
     Store.hybridSearch regExpMatches self query queryEmbedding topK = Ok results)
  /\ (Exists (fun c => length (DocumentChunk.embedding c) <> length queryEmbedding)
        (Store.getAllChunks self) ->
      Store.hybridSearch regExpMatches self query queryEmbedding topK
      = Throw dimensionMismatch).
Proof.
  intros Hliteral. unfold Store.hybridSearch. split.
  - intros Hall. destruct (length (Store.getAllChunks self) =? 0)%nat; [eauto|].
    destruct (scoreChunks_returns query queryEmbedding _ Hliteral Hall) as [results ->].
    cbn [bind]. eauto.
  - intros Hex. destruct (length (Store.getAllChunks self) =? 0)%nat eqn:Hempty.
    + apply Nat.eqb_eq, length_zero_iff_nil in Hempty. rewrite Hempty in Hex.
      inversion Hex.
    + now rewrite (scoreChunks_throws query queryEmbedding _ Hliteral Hex).
Qed.

(** *** The case of the query *)

Lemma calculateKeywordScore_toLowerCase (query text : string) :
  Store.calculateKeywordScore regExpMatches (Str.toLowerCase query) text
  = Store.calculateKeywordScore regExpMatches query text.
Proof. unfold Store.calculateKeywordScore. now rewrite toLowerCase_idempotent. Qed.

Lemma generateExplanation_toLowerCase (vectorScore keywordScore : number)
  (query content : string) :
  Store.generateExplanation vectorScore keywordScore (Str.toLowerCase query) content
  = Store.generateExplanation vectorScore keywordScore query content.
Proof. unfold Store.generateExplanation. now rewrite toLowerCase_idempotent. Qed.

Lemma scoreChunks_toLowerCase (query : string) (queryEmbedding : list number)
  (allChunks : list DocumentChunk) :
  Store.scoreChunks regExpMatches (Str.toLowerCase query) queryEmbedding allChunks
  = Store.scoreChunks regExpMatches query queryEmbedding allChunks.
Proof.
  induction allChunks as [|c rest IH]; cbn [Store.scoreChunks]; [reflexivity|].
  rewrite IH. unfold Store.scoreChunk.
  rewrite calculateKeywordScore_toLowerCase.
  destruct (cosineSimilarity _ _); [|reflexivity]. cbn [bind].
  destruct (Store.calculateKeywordScore _ _ _); [|reflexivity]. cbn [bind].
  now rewrite generateExplanation_toLowerCase.
Qed.

(** X17.  [hybridSearch] returns for a query what it returns for the
    query in lower case, scores and explanations included. *)
Theorem hybridSearch_ignores_case (self : DocumentStore) (query : string)
  (queryEmbedding : list number) (topK : Z) :
  Store.hybridSearch regExpMatches self (Str.toLowerCase query) queryEmbedding topK
  = Store.hybridSearch regExpMatches self query queryEmbedding topK.
Proof. unfold Store.hybridSearch. now rewrite scoreChunks_toLowerCase. Qed.

End HybridChunks.

Lemma hybridSearch_returns_chunks_of_store_witness :
  length [resultAt 1 1 (Num 1); resultAt 0 (-1) (Num (-1))]
  = Nat.min (Z.to_nat 3) (length (Store.getAllChunks twoChunkStore))
  /\ exists rest,
       Permutation
         (List.map chunk [resultAt 1 1 (Num 1); resultAt 0 (-1) (Num (-1))] ++ rest)
         (Store.getAllChunks twoChunkStore).
Proof.
  apply (hybridSearch_returns_chunks_of_store (fun _ _ => Ok 0%nat) twoChunkStore "zzz"
           [Num 1] 3).
  - apply hybridSearch_two_chunks.
  - lia.
Defined.

Lemma hybridSearch_throws_on_dimension_witness :
  (Forall (fun c => length (DocumentChunk.embedding c) = length [Num 1; Num 2])
     (Store.getAllChunks twoChunkStore) ->
   exists results,
     Store.hybridSearch (fun _ _ => Ok 0%nat) twoChunkStore "zzz" [Num 1; Num 2] 3
     = Ok results)
  /\ (Exists (fun c => length (DocumentChunk.embedding c) <> length [Num 1; Num 2])
        (Store.getAllChunks twoChunkStore) ->
      Store.hybridSearch (fun _ _ => Ok 0%nat) twoChunkStore "zzz" [Num 1; Num 2] 3
      = Throw dimensionMismatch).
Proof.
  apply (hybridSearch_throws_on_dimension (fun _ _ => Ok 0%nat) twoChunkStore "zzz"
           [Num 1; Num 2] 3).
  apply literalTerms_zzz.
Defined.

(** ** The catalog, further *)

(** X18.  After [add] the store returns the document for its id and
    what it returned before for every other id; the count grows by one
    when the id is new and stays when it is not; a document with a new
    id comes last in [getAll]. *)
Theorem add_then_get (self : DocumentStore) (document : Document) :
  Store.get (Store.add self document) (Document.id document) = Some document
  /\ (forall other, other <> Document.id document ->
        Store.get (Store.add self document) other = Store.get self other)
  /\ Store.count (Store.add self document)
     = (if JsMap.has (documents self) (Document.id document)
        then Store.count self else S (Store.count self))
  /\ (Store.get self (Document.id document) = None ->
      Store.getAll (Store.add self document) = Store.getAll self ++ [document]).
Proof.
  unfold Store.get, Store.count, Store.getAll, Store.add, Store.persist.
  cbn [documents]. split; [apply JsMap_get_set_same|].
  split; [intros other Hne; now apply JsMap_get_set_other|].
  split; [apply JsMap_set_size|].
  intros Hnew. rewrite (JsMap_set_absent _ _ _ Hnew). unfold JsMap.values.
  now rewrite List.map_app.
Qed.

(** X19.  In a store where no id is twice, [delete] leaves no document
    under the id and touches no other id, and the count falls by one
    when the id was there; and no id is twice after [delete], [add],
    [clear] and [initialize]. *)
Theorem delete_then_get (self : DocumentStore) (id : string) (document : Document)
  (loaded : list Document) :
  keysUnique (documents self) ->
  Store.get (snd (Store.delete self id)) id = None
  /\ (forall other, other <> id ->
        Store.get (snd (Store.delete self id)) other = Store.get self other)
  /\ (JsMap.has (documents self) id = true ->
      S (Store.count (snd (Store.delete self id))) = Store.count self)
  /\ keysUnique (documents (snd (Store.delete self id)))
  /\ keysUnique (documents (Store.add self document))
  /\ keysUnique (documents (Store.clear self))
  /\ keysUnique (documents (Store.initialize self loaded)).
Proof.
  intros Hunique.
  assert (Hdocs : documents (snd (Store.delete self id)) = JsMap.delete (documents self) id).
  { unfold Store.delete. now destruct (JsMap.has (documents self) id). }
  unfold Store.get, Store.count. rewrite Hdocs.
  split; [now apply JsMap_get_delete_same|].
  split; [intros other Hne; now apply JsMap_get_delete_other|].
  split; [apply JsMap_delete_size|].
  split; [now apply JsMap_delete_keysUnique|].
  split; [unfold Store.add, Store.persist; cbn [documents]; now apply JsMap_set_keysUnique|].
  split; [apply JsMap_empty_keysUnique|].
  unfold Store.initialize. destruct (JsMap.size (documents self) =? 0)%nat; [|exact Hunique].
  cbn [documents]. now apply (JsMap_fold_set_keysUnique loaded Document.id).
Qed.

Lemma delete_then_get_witness :
  Store.get (snd (Store.delete sampleStore "doc_1")) "doc_1" = None
  /\ (forall other, other <> "doc_1"%string ->
        Store.get (snd (Store.delete sampleStore "doc_1")) other
        = Store.get sampleStore other)
  /\ (JsMap.has (documents sampleStore) "doc_1" = true ->
      S (Store.count (snd (Store.delete sampleStore "doc_1"))) = Store.count sampleStore)
  /\ keysUnique (documents (snd (Store.delete sampleStore "doc_1")))
  /\ keysUnique (documents (Store.add sampleStore sampleDocument))
  /\ keysUnique (documents (Store.clear sampleStore))
  /\ keysUnique (documents (Store.initialize sampleStore [sampleDocument])).
Proof.
  apply (delete_then_get sampleStore "doc_1" sampleDocument [sampleDocument]).
  repeat constructor. simpl. tauto.
Defined.

(** X20.  The chunks of a store are those of a stored document together
    with the chunks the store has after that document is deleted. *)
Theorem delete_removes_chunks_of_document (self : DocumentStore) (id : string)
  (document : Document) :
  Store.get self id = Some document ->
  Permutation (Store.getAllChunks self)
    (Document.chunks document ++ Store.getAllChunks (snd (Store.delete self id))).
Proof.
  intros Hget. unfold Store.getAllChunks.
  assert (Hdocs : documents (snd (Store.delete self id)) = JsMap.delete (documents self) id).
  { unfold Store.delete. now destruct (JsMap.has (documents self) id). }
  rewrite Hdocs. now apply delete_chunks.
Qed.

Lemma delete_removes_chunks_of_document_witness :
  Permutation (Store.getAllChunks twoChunkStore)
    ([chunkAt 0 (-1); chunkAt 1 1]
     ++ Store.getAllChunks (snd (Store.delete twoChunkStore "doc_1"))).
Proof.
  apply (delete_removes_chunks_of_document twoChunkStore "doc_1"
           {| Document.id := "doc_1"; Document.title := "abc.txt";
              Document.content := "abc"; Document.fileType := "TXT";
              Document.uploadedAt := 0;
              Document.chunks := [chunkAt 0 (-1); chunkAt 1 1] |}).
  reflexivity.
Defined.

(** X21.  Adding a document under a new id and deleting that id again
    leaves the documents of the store as they were; [delete] returns
    true, and the two calls have saved twice. *)
Theorem add_then_delete_restores (self : DocumentStore) (document : Document) :
  Store.get self (Document.id document) = None ->
  Store.delete (Store.add self document) (Document.id document)
  = (true,
     {| documents := documents self;
        saved := Store.getAll self
                 :: (Store.getAll self ++ [document]) :: saved self |}).
Proof.
  intros Hnew. unfold Store.delete, Store.add, Store.persist, Store.getAll, Store.get in *.
  cbn [documents saved]. unfold JsMap.has. rewrite JsMap_get_set_same.
  rewrite (JsMap_delete_set_absent _ _ _ Hnew), (JsMap_set_absent _ _ _ Hnew).
  unfold JsMap.values. now rewrite List.map_app.
Qed.

Lemma add_then_delete_restores_witness :
  Store.delete (Store.add {| documents := []; saved := [] |} sampleDocument) "doc_1"
  = (true, {| documents := []; saved := [[]; [sampleDocument]] |}).
Proof.
  apply (add_then_delete_restores {| documents := []; saved := [] |} sampleDocument).
  reflexivity.
Defined.

Section HybridSearchFurther.

Variable regExpMatches : string -> string -> result nat.

Local Open Scope R_scope.

(** X22.  For a query whose terms have no syntax characters, the keyword
    score is 0 unless a term of the query with at least 3 characters
    occurs in the text (case apart), and positive when one does. *)
Theorem keywordScore_positive_iff_term_occurs (query text : string) :
  literalTerms (queryTerms query) ->
  exists v : R,
    Store.calculateKeywordScore regExpMatches query text = Ok (Num v)
    /\ 0 <= v
    /\ (0 < v <->
        Exists (fun term => (3 <= String.length term)%nat
                            /\ Str.includes (Str.toLowerCase text) term = true)
          (queryTerms query)).
Proof.
  intros Hliteral. exists (keywordFormula query text).
  split; [now apply calculateKeywordScore_value|].
  split; [apply keywordFormula_range | apply keywordFormula_positive].
Qed.

End HybridSearchFurther.

Lemma keywordScore_positive_iff_term_occurs_witness :
  exists v : R,
    Store.calculateKeywordScore (fun _ _ => Ok 0%nat) "is cat" "cat" = Ok (Num v)
    /\ (0 <= v)%R
    /\ ((0 < v)%R <->
        Exists (fun term => (3 <= String.length term)%nat
                            /\ Str.includes (Str.toLowerCase "cat") term = true)
          (queryTerms "is cat")).
Proof.
  apply (keywordScore_positive_iff_term_occurs (fun _ _ => Ok 0%nat) "is cat" "cat").
  apply literalTerms_is_cat.
Defined.

(** ** The file parser *)

Lemma unsupported_message (what : string) :
  String.append "Unsupported file type: " what
  = String "U" (String.append "nsupported file type: " what).
Proof. reflexivity. Qed.

Lemma parsePDF_throws (file : File) (e : error) :
  parsePDF file = Throw e -> e = Error "Failed to parse PDF file".
Proof. unfold parsePDF. destruct (File.pdfText file); [discriminate|]. now intros [= <-]. Qed.

Lemma parseText_throws (file : File) (e : error) :
  parseText file = Throw e -> e = Error "Failed to parse text file".
Proof. unfold parseText. destruct (File.text file); [discriminate|]. now intros [= <-]. Qed.

Lemma getFileType_unknown (file : File) :
  getFileType file = "Unknown"%string
  <-> Str.endsWith (Str.toLowerCase (File.name file)) ".pdf" = false
      /\ Str.endsWith (Str.toLowerCase (File.name file)) ".txt" = false
      /\ Str.endsWith (Str.toLowerCase (File.name file)) ".md" = false.
Proof.
  unfold getFileType. cbv zeta.
  destruct (Str.endsWith _ ".pdf"); [split; [discriminate | intros [H _]; discriminate]|].
  destruct (Str.endsWith _ ".txt"); [split; [discriminate | intros [_ [H _]]; discriminate]|].
  destruct (Str.endsWith _ ".md"); [split; [discriminate | intros [_ [_ H]]; discriminate]|].
  tauto.
Qed.

Lemma parseFile_unsupported (file : File) :
  (exists what, parseFile file = Throw (Error (String.append "Unsupported file type: " what)))
  <-> knownMediaType (File.type file) = false /\ getFileType file = "Unknown"%string.
Proof.
  rewrite getFileType_unknown. unfold parseFile, knownMediaType. cbv zeta.
  destruct (String.eqb (File.type file) "application/pdf") eqn:Hpdf; cbn [orb].
  { split; [|intros [H _]; discriminate]. intros [what H].
    apply parsePDF_throws in H. rewrite unsupported_message in H. discriminate. }
  destruct (Str.endsWith (Str.toLowerCase (File.name file)) ".pdf") eqn:Hpdf'.
  { split; [|intros [_ [H _]]; discriminate]. intros [what H].
    apply parsePDF_throws in H. rewrite unsupported_message in H. discriminate. }
  destruct (String.eqb (File.type file) "text/plain") eqn:Htxt; cbn [orb].
  { split; [|intros [H _]; discriminate]. intros [what H].
    apply parseText_throws in H. rewrite unsupported_message in H. discriminate. }
  destruct (Str.endsWith (Str.toLowerCase (File.name file)) ".txt") eqn:Htxt'.
  { split; [|intros [_ [_ [H _]]]; discriminate]. intros [what H].
    apply parseText_throws in H. rewrite unsupported_message in H. discriminate. }
  destruct (String.eqb (File.type file) "text/markdown") eqn:Hmd; cbn [orb].
  { split; [|intros [H _]; discriminate]. intros [what H].
    apply parseText_throws in H. rewrite unsupported_message in H. discriminate. }
  destruct (Str.endsWith (Str.toLowerCase (File.name file)) ".md") eqn:Hmd'.
  { split; [|intros [_ [_ [_ H]]]; discriminate]. intros [what H].
    apply parseText_throws in H. rewrite unsupported_message in H. discriminate. }
  split; [tauto|]. intros _. eauto.
Qed.

Lemma parseFile_reads (file : File) (content : string) :
  parseFile file = Ok content ->
  File.pdfText file = Ok content \/ File.text file = Ok content.
Proof.
  unfold parseFile, parsePDF, parseText. cbv zeta.
  repeat match goal with
         | |- context [if ?c then _ else _] => destruct c
         end;
    try discriminate;
    [destruct (File.pdfText file) | destruct (File.text file) | destruct (File.text file)];
    intros [= <-]; auto.
Qed.

(** ** Uploads *)

Section UploadRoute.

Variable embeddingsCreate : list string -> result (list (list number)).

Lemma caught_status (e : error) : Upload.status (Upload.caught e) = 500.
Proof. reflexivity. Qed.

(** What [POST] answers, and what it does to the store. *)
Lemma POST_outcome (formFile : option File) (now : Z) (random : string)
  (uploadedAt : Z) (store store' : DocumentStore) (response : Upload.Response) :
  Upload.POST embeddingsCreate formFile now random uploadedAt store
  = Some (response, store') ->
  (Upload.status response <> 200 /\ store' = store)
  \/ exists file content textChunks embeddings,
       formFile = Some file
       /\ File.size file <= 10 * 1024 * 1024
       /\ parseFile file = Ok content
       /\ Str.trim content <> EmptyString
       /\ chunkText content defaultOptions = Some textChunks
       /\ (length textChunks <= 1000)%nat
       /\ generateEmbeddings embeddingsCreate textChunks = Ok embeddings
       /\ response
          = {| Upload.status := 200;
               Upload.body :=
                 Upload.DocumentBody (documentIdOf now random) (File.name file)
                   (getFileType file) uploadedAt (Z.of_nat (length textChunks))
                   (Str.len content) |}
       /\ store'
          = Store.add store
              (documentOf file (documentIdOf now random) content uploadedAt
                 (chunksOf (documentIdOf now random) (File.name file)
                    textChunks embeddings)).
Proof.
  unfold Upload.POST. destruct formFile as [file|].
  2:{ intros [= <- <-]. left. split; [discriminate | reflexivity]. }
  cbv zeta. destruct (10 * 1024 * 1024 <? File.size file) eqn:Hsize.
  { intros [= <- <-]. left. split; [discriminate | reflexivity]. }
  apply Z.ltb_ge in Hsize.
  destruct (parseFile file) as [content|e] eqn:Hparse.
  2:{ intros [= <- <-]. left. split; [discriminate | reflexivity]. }
  destruct (String.eqb content EmptyString || (Str.len (Str.trim content) =? 0))
    eqn:Hguard.
  { intros [= <- <-]. left. split; [discriminate | reflexivity]. }
  destruct (chunkText content defaultOptions) as [textChunks|] eqn:Hchunks;
    [|discriminate].
  destruct (1000 <? length textChunks)%nat eqn:Hcount.
  { intros [= <- <-]. left. split; [discriminate | reflexivity]. }
  apply Nat.ltb_ge in Hcount.
  destruct (generateEmbeddings embeddingsCreate textChunks) as [embeddings|e] eqn:Hembed.
  2:{ intros [= <- <-]. left. split; [discriminate | reflexivity]. }
  intros [= <- <-]. right. exists file, content, textChunks, embeddings.
  split; [reflexivity|]. split; [exact Hsize|]. split; [exact Hparse|].
  split.
  { intros H. apply chunkText_guard in H. rewrite H in Hguard. discriminate. }
  split; [exact Hchunks|]. split; [exact Hcount|]. split; [exact Hembed|].
  split; [|reflexivity]. now rewrite length_imap.
Qed.

Lemma POST_returns (formFile : option File) (now : Z) (random : string)
  (uploadedAt : Z) (store : DocumentStore) :
  exists response store',
    Upload.POST embeddingsCreate formFile now random uploadedAt store
    = Some (response, store').
Proof.
  unfold Upload.POST. destruct formFile as [file|]; [|eauto]. cbv zeta.
  destruct (10 * 1024 * 1024 <? File.size file); [eauto|].
  destruct (parseFile file) as [content|e]; [|eauto].
  destruct (String.eqb content EmptyString || (Str.len (Str.trim content) =? 0));
    [eauto|].
  destruct (chunkText_returns content defaultOptions) as [textChunks ->];
    [simpl; lia|].
  destruct (1000 <? length textChunks)%nat; [eauto|].
  destruct (generateEmbeddings embeddingsCreate textChunks); eauto.
Qed.

(** *** The chunks of the stored document *)

Lemma chunksOf_lookup (documentId title : string) (textChunks : list string)
  (embeddings : list (list number)) (index : nat) (c : DocumentChunk) :
  chunksOf documentId title textChunks embeddings !! index = Some c ->
  exists text,
    textChunks !! index = Some text
    /\ c = {| DocumentChunk.id :=
                String.append documentId (String.append "_chunk_" (pretty index));
              DocumentChunk.documentId := documentId;
              DocumentChunk.documentTitle := title;
              DocumentChunk.content := text;
              DocumentChunk.embedding := nth index embeddings [];
              DocumentChunk.chunkIndex := Z.of_nat index |}.
Proof. unfold chunksOf. intros H. now apply list_lookup_imap_Some in H. Qed.

Lemma imap_content (make : nat -> string -> DocumentChunk) (textChunks : list string) :
  (forall index text, DocumentChunk.content (make index text) = text) ->
  List.map DocumentChunk.content (imap make textChunks) = textChunks.
Proof.
  revert make. induction textChunks as [|text rest IH]; intros make Hmake; [reflexivity|].
  cbn [imap List.map]. rewrite Hmake. f_equal. apply IH. intros index text'. apply Hmake.
Qed.

Lemma chunksOf_content (documentId title : string) (textChunks : list string)
  (embeddings : list (list number)) :
  List.map DocumentChunk.content (chunksOf documentId title textChunks embeddings)
  = textChunks.
Proof. unfold chunksOf. now apply imap_content. Qed.

Lemma chunksOf_id_inj (documentId title : string) (textChunks : list string)
  (embeddings : list (list number)) (i j : nat) (c c' : DocumentChunk) :
  chunksOf documentId title textChunks embeddings !! i = Some c ->
  chunksOf documentId title textChunks embeddings !! j = Some c' ->
  DocumentChunk.id c = DocumentChunk.id c' -> i = j.
Proof.
  intros Hi Hj. apply chunksOf_lookup in Hi, Hj.
  destruct Hi as [text [_ ->]], Hj as [text' [_ ->]]. cbn [DocumentChunk.id].
  intros H. apply (inj (String.append documentId)) in H.
  apply (inj (String.append "_chunk_")) in H. now apply (inj pretty) in H.
Qed.

End UploadRoute.

(** *** The service answers *)

Lemma generateEmbeddings_returns
  (embeddingsCreate : list string -> result (list (list number)))
  (texts : list string) :
  (forall batch, (1 <= length batch <= 100)%nat ->
                 exists vectors, embeddingsCreate batch = Ok vectors) ->
  exists embeddings, generateEmbeddings embeddingsCreate texts = Ok embeddings.
Proof.
  intros Hcreate. unfold generateEmbeddings. cbv zeta.
  set (count := Nat.div (length texts + 100 - 1) 100).
  assert (Hcount : (count * 100 < length texts + 100)%nat).
  { unfold count.
    pose proof (Nat.div_mod (length texts + 100 - 1) 100 ltac:(lia)) as Hdiv.
    pose proof (Nat.mod_upper_bound (length texts + 100 - 1) 100 ltac:(lia)). lia. }
  assert (Hfold : forall n first (acc : list (list number)),
             ((first + n) * 100 < length texts + 100)%nat ->
             exists embeddings,
               fold_left
                 (fun acc i =>
                    let* embeddings := acc in
                    let* response := embeddingsCreate (firstn 100 (skipn i texts)) in
                    Ok (embeddings ++ response))
                 (List.map (fun k => (k * 100)%nat) (seq first n)) (Ok acc)
               = Ok embeddings).
  { induction n as [|n IH]; intros first acc Hn; [simpl; eauto|].
    cbn [seq List.map fold_left bind].
    destruct (Hcreate (firstn 100 (skipn (first * 100) texts))) as [vectors ->].
    { rewrite length_firstn, length_skipn. lia. }
    cbn [bind]. apply (IH (S first)). lia. }
  destruct (Hfold count 0%nat [] Hcount) as [embeddings ->]. eauto.
Qed.

(** ** The file parser, further *)

(** X23.  [parseFile] rejects a file as unsupported exactly when its
    media type is none of the three it knows and its name has none of
    the three extensions, which is when [getFileType] says "Unknown";
    every other error it throws is one of the two parse errors. *)
Theorem parseFile_unsupported_iff_unknown (file : File) :
  ((exists what,
      parseFile file = Throw (Error (String.append "Unsupported file type: " what)))
   <-> knownMediaType (File.type file) = false
       /\ getFileType file = "Unknown"%string)
  /\ (forall e, parseFile file = Throw e ->
        e = Error "Failed to parse PDF file"
        \/ e = Error "Failed to parse text file"
        \/ exists what, e = Error (String.append "Unsupported file type: " what)).
Proof.
  split; [apply parseFile_unsupported|].
  intros e. unfold parseFile. cbv zeta.
  repeat match goal with
         | |- context [if ?c then _ else _] => destruct c
         end;
    try (intros H; apply parsePDF_throws in H; now left);
    try (intros H; apply parseText_throws in H; right; now left);
    intros [= <-]; right; right; eauto.
Qed.

(** ** Uploads, further *)

Section UploadFurther.

Variable embeddingsCreate : list string -> result (list (list number)).

(** X24.  [POST] always answers, and it leaves the store as it was
    unless it answers 200; with the answer 200 the store has had one
    [add], of a document that the store then returns for the id in the
    answer. *)
Theorem POST_answers_and_adds_only_with_200 (formFile : option File) (now : Z)
  (random : string) (uploadedAt : Z) (store : DocumentStore) :
  exists response store',
    Upload.POST embeddingsCreate formFile now random uploadedAt store
    = Some (response, store')
    /\ (Upload.status response <> 200 -> store' = store)
    /\ (Upload.status response = 200 ->
        exists document,
          store' = Store.add store document
          /\ Store.get store' (documentIdOf now random) = Some document
          /\ Upload.body response = Upload.summary document).
Proof.
  destruct (POST_returns embeddingsCreate formFile now random uploadedAt store)
    as [response [store' HPOST]].
  exists response, store'. split; [exact HPOST|].
  destruct (POST_outcome _ _ _ _ _ _ _ _ HPOST)
    as [[Hstatus ->] | [file [content [textChunks [embeddings H]]]]].
  - split; [reflexivity | contradiction].
  - destruct H as [_ [_ [_ [_ [_ [_ [_ [-> ->]]]]]]]].
    split; [intros H; now contradiction H|]. intros _.
    eexists. split; [reflexivity|]. split.
    + unfold Store.get, Store.add, Store.persist. cbn [documents documentOf Document.id].
      apply JsMap_get_set_same.
    + unfold Upload.summary, documentOf, chunksOf. cbn.
      now rewrite length_imap.
Qed.

(** X25.  With the answer 200, the chunks of the stored document carry
    the chunks of the text in order: there are between 1 and 1000 of
    them, the chunk at position [i] has the index [i], the [i]-th chunk
    of the text as its content and the document's id, and no two chunks
    have the same id. *)
Theorem POST_stores_chunks_in_order (file : File) (now : Z) (random : string)
  (uploadedAt : Z) (store store' : DocumentStore) (response : Upload.Response) :
  Upload.POST embeddingsCreate (Some file) now random uploadedAt store
  = Some (response, store') ->
  Upload.status response = 200 ->
  exists content textChunks document,
    parseFile file = Ok content
    /\ chunkText content defaultOptions = Some textChunks
    /\ Store.get store' (documentIdOf now random) = Some document
    /\ (1 <= length (Document.chunks document) <= 1000)%nat
    /\ List.map DocumentChunk.content (Document.chunks document) = textChunks
    /\ (forall i c, Document.chunks document !! i = Some c ->
          DocumentChunk.chunkIndex c = Z.of_nat i
          /\ DocumentChunk.documentId c = Document.id document)
    /\ (forall i j c c',
          Document.chunks document !! i = Some c ->
          Document.chunks document !! j = Some c' ->
          DocumentChunk.id c = DocumentChunk.id c' -> i = j).
Proof.
  intros HPOST Hstatus.
  destruct (POST_outcome _ _ _ _ _ _ _ _ HPOST)
    as [[Hne _] | [file' [content [textChunks [embeddings H]]]]]; [contradiction|].
  destruct H as [[= <-] [_ [Hparse [Htext [Hchunks [Hcount [_ [_ ->]]]]]]]].
  exists content, textChunks. eexists.
  split; [exact Hparse|]. split; [exact Hchunks|].
  split.
  { unfold Store.get, Store.add, Store.persist. cbn [documents documentOf Document.id].
    apply JsMap_get_set_same. }
  cbn [documentOf Document.chunks Document.id].
  split.
  { unfold chunksOf. rewrite length_imap. split; [|exact Hcount].
    destruct (chunkText_first content defaultOptions Htext ltac:(simpl; lia))
      as [chunk [chunks [Hsome _]]].
    rewrite Hsome in Hchunks. injection Hchunks as <-. simpl. lia. }
  split; [apply chunksOf_content|].
  split.
  - intros i c Hc. apply chunksOf_lookup in Hc. destruct Hc as [text [_ ->]].
    split; reflexivity.
  - intros i j c c'. apply chunksOf_id_inj.
Qed.

(** X26.  A file of at most 10 MB that parses to a text with a character
    that is not whitespace and at most 601794 characters is answered
    with 200 whenever the embedding service answers: the limit of 1000
    chunks does not reject it. *)
Theorem POST_accepts_text_within_limits (file : File) (content : string) (now : Z)
  (random : string) (uploadedAt : Z) (store : DocumentStore) :
  File.size file <= 10 * 1024 * 1024 ->
  parseFile file = Ok content ->
  Str.trim content <> EmptyString ->
  Str.len content <= 601794 ->
  (forall batch, (1 <= length batch <= 100)%nat ->
                 exists vectors, embeddingsCreate batch = Ok vectors) ->
  exists response store',
    Upload.POST embeddingsCreate (Some file) now random uploadedAt store
    = Some (response, store')
    /\ Upload.status response = 200.
Proof.
  intros Hsize Hparse Htext Hlen Hservice. unfold Upload.POST. cbv zeta.
  replace (10 * 1024 * 1024 <? File.size file) with false
    by (symmetry; apply Z.ltb_ge, Hsize).
  rewrite Hparse.
  destruct (String.eqb content EmptyString || (Str.len (Str.trim content) =? 0))
    eqn:Hguard.
  { apply chunkText_guard in Hguard. contradiction. }
  destruct (chunkText_returns content defaultOptions) as [textChunks Hchunks];
    [simpl; lia|].
  rewrite Hchunks.
  pose proof (chunkText_count_bound content defaultOptions textChunks
                ltac:(simpl; lia) ltac:(simpl; lia) Hchunks) as Hbound.
  pose proof (normalize_len content) as Hnormal.
  change (default 1000 (maxChunkSize defaultOptions)) with 1000 in Hbound.
  change (default 200 (overlapSize defaultOptions)) with 200 in Hbound.
  replace (1000 <? length textChunks)%nat with false
    by (symmetry; apply Nat.ltb_ge; lia).
  destruct (generateEmbeddings_returns embeddingsCreate textChunks Hservice)
    as [embeddings ->].
  eauto.
Qed.

End UploadFurther.

Lemma POST_stores_chunks_in_order_witness :
  exists content textChunks document,
    parseFile helloFile = Ok content
    /\ chunkText content defaultOptions = Some textChunks
    /\ Store.get (Store.add emptyStore
                    (documentOf helloFile (documentIdOf 7 "abc") "hello" 8
                       (chunksOf (documentIdOf 7 "abc") "a.txt" ["hello"%string]
                          [[Num 1]])))
         (documentIdOf 7 "abc") = Some document
    /\ (1 <= length (Document.chunks document) <= 1000)%nat
    /\ List.map DocumentChunk.content (Document.chunks document) = textChunks
    /\ (forall i c, Document.chunks document !! i = Some c ->
          DocumentChunk.chunkIndex c = Z.of_nat i
          /\ DocumentChunk.documentId c = Document.id document)
    /\ (forall i j c c',
          Document.chunks document !! i = Some c ->
          Document.chunks document !! j = Some c' ->
          DocumentChunk.id c = DocumentChunk.id c' -> i = j).
Proof.
  apply (POST_stores_chunks_in_order unitService helloFile 7 "abc" 8 emptyStore _
           {| Upload.status := 200;
              Upload.body := Upload.DocumentBody (documentIdOf 7 "abc") "a.txt" "TXT"
                               8 1 5 |}).
  - reflexivity.
  - reflexivity.
Defined.

Lemma POST_accepts_text_within_limits_witness :
  exists response store',
    Upload.POST unitService (Some helloFile) 7 "abc" 8 emptyStore
    = Some (response, store')
    /\ Upload.status response = 200.
Proof.
  apply (POST_accepts_text_within_limits unitService helloFile "hello").
  - simpl. lia.
  - reflexivity.
  - vm_compute. discriminate.
  - vm_compute. discriminate.
  - intros batch Hbatch. eexists. now apply unitService_batch.
Defined.

(** X27.  [GET] lists one summary for each stored document, and after a
    [POST] answered with 200 the summary of that answer is in the
    list. *)
Theorem GET_lists_uploaded_document
  (embeddingsCreate : list string -> result (list (list number)))
  (formFile : option File) (now : Z) (random : string) (uploadedAt : Z)
  (store store' : DocumentStore) (response : Upload.Response) :
  Upload.POST embeddingsCreate formFile now random uploadedAt store
  = Some (response, store') ->
  Upload.status response = 200 ->
  In (Upload.body response) (Upload.GET store')
  /\ length (Upload.GET store') = Store.count store'.
Proof.
  intros HPOST Hstatus. split.
  2:{ unfold Upload.GET, Store.getAll, Store.count, JsMap.values, JsMap.size.
      now rewrite !length_map. }
  destruct (POST_outcome _ _ _ _ _ _ _ _ HPOST)
    as [[Hne _] | [file [content [textChunks [embeddings H]]]]]; [contradiction|].
  destruct H as [_ [_ [_ [_ [_ [_ [_ [-> ->]]]]]]]].
  unfold Upload.GET. apply in_map_iff.
  eexists. split.
  2:{ unfold Store.getAll, Store.add, Store.persist, JsMap.values. cbn [documents].
      apply in_map_iff. eexists (_, _). split; [reflexivity|].
      apply JsMap_set_In. }
  unfold Upload.summary, documentOf, chunksOf. cbn. now rewrite length_imap.
Qed.

Lemma GET_lists_uploaded_document_witness :
  In (Upload.DocumentBody (documentIdOf 7 "abc") "a.txt" "TXT" 8 1 5)
    (Upload.GET
       (Store.add emptyStore
          (documentOf helloFile (documentIdOf 7 "abc") "hello" 8
             (chunksOf (documentIdOf 7 "abc") "a.txt" ["hello"%string] [[Num 1]]))))
  /\ length
       (Upload.GET
          (Store.add emptyStore
             (documentOf helloFile (documentIdOf 7 "abc") "hello" 8
                (chunksOf (documentIdOf 7 "abc") "a.txt" ["hello"%string] [[Num 1]]))))
     = Store.count
         (Store.add emptyStore
            (documentOf helloFile (documentIdOf 7 "abc") "hello" 8
               (chunksOf (documentIdOf 7 "abc") "a.txt" ["hello"%string] [[Num 1]]))).
Proof.
  apply (GET_lists_uploaded_document unitService (Some helloFile) 7 "abc" 8 emptyStore _
           {| Upload.status := 200;
              Upload.body := Upload.DocumentBody (documentIdOf 7 "abc") "a.txt" "TXT"
                               8 1 5 |}).
  - reflexivity.
  - reflexivity.
Defined.

(** ** Sessions *)

Lemma register_fresh (requestId : string) (st : Chat.State) :
  Chat.aborted st !! fst (Chat.register requestId st) = None.
Proof.
  unfold Chat.register. cbn [fst]. apply not_elem_of_dom, is_fresh.
Qed.

Lemma register_lookup (requestId : string) (st : Chat.State) :
  requestId <> EmptyString ->
  Chat.activeRequests (snd (Chat.register requestId st)) !! requestId
  = Some (fst (Chat.register requestId st)).
Proof.
  intros Hne. unfold Chat.register. cbn [fst snd Chat.activeRequests].
  destruct (String.eqb_spec requestId EmptyString); [contradiction|].
  apply lookup_insert_eq.
Qed.

Lemma register_signal (requestId : string) (st : Chat.State) :
  Chat.aborted (snd (Chat.register requestId st)) !! fst (Chat.register requestId st)
  = Some false.
Proof. unfold Chat.register. cbn [fst snd Chat.aborted]. apply lookup_insert_eq. Qed.

Lemma register_others (requestId : string) (st : Chat.State) (other : nat) :
  other <> fst (Chat.register requestId st) ->
  Chat.aborted (snd (Chat.register requestId st)) !! other = Chat.aborted st !! other.
Proof.
  intros Hne. unfold Chat.register in *. cbn [fst snd Chat.aborted] in *.
  now apply lookup_insert_ne.
Qed.

Lemma DELETE_registered (requestId : string) (st : Chat.State) (controller : nat) :
  Chat.activeRequests st !! requestId = Some controller ->
  Chat.DELETE requestId st
  = (cancelled,
     {| Chat.activeRequests := delete requestId (Chat.activeRequests st);
        Chat.aborted := <[controller := true]> (Chat.aborted st) |}).
Proof. intros H. unfold Chat.DELETE. now rewrite H. Qed.

Lemma DELETE_unregistered (requestId : string) (st : Chat.State) :
  Chat.activeRequests st !! requestId = None ->
  Chat.DELETE requestId st = (notFound, st).
Proof. intros H. unfold Chat.DELETE. now rewrite H. Qed.

Lemma register_controllersKnown (requestId : string) (st : Chat.State) :
  controllersKnown st -> controllersKnown (snd (Chat.register requestId st)).
Proof.
  intros Hst id controller. unfold Chat.register. cbn [snd Chat.activeRequests Chat.aborted].
  set (c := fresh (dom (Chat.aborted st))).
  destruct (decide (controller = c)) as [-> | Hc].
  { intros _. rewrite lookup_insert_eq. eauto. }
  rewrite lookup_insert_ne by congruence.
  destruct (String.eqb requestId EmptyString); [apply Hst|].
  destruct (decide (id = requestId)) as [-> | Hid].
  - rewrite lookup_insert_eq. congruence.
  - rewrite lookup_insert_ne by congruence. apply Hst.
Qed.

Lemma DELETE_controllersKnown (requestId : string) (st : Chat.State) :
  controllersKnown st -> controllersKnown (snd (Chat.DELETE requestId st)).
Proof.
  intros Hst id controller. unfold Chat.DELETE.
  destruct (Chat.activeRequests st !! requestId) as [c|] eqn:Hc; cbn [snd];
    [|apply Hst].
  cbn [Chat.activeRequests Chat.aborted]. intros H.
  apply lookup_delete_Some in H. destruct H as [_ H]. apply Hst in H.
  destruct (decide (controller = c)) as [-> | Hne].
  - rewrite lookup_insert_eq. eauto.
  - now rewrite lookup_insert_ne by congruence.
Qed.

Lemma cleanup_controllersKnown (requestId : string) (st : Chat.State) :
  controllersKnown st -> controllersKnown (Chat.cleanup requestId st).
Proof.
  intros Hst id controller. unfold Chat.cleanup.
  destruct (String.eqb requestId EmptyString); [apply Hst|].
  cbn [Chat.activeRequests Chat.aborted]. intros H.
  apply lookup_delete_Some in H. destruct H as [_ H]. now apply Hst in H.
Qed.

(** A controller that is not registered keeps its signal through a
    cancellation. *)
Lemma DELETE_unregistered_signal (requestId : string) (st : Chat.State) (controller : nat) :
  (forall id, Chat.activeRequests st !! id <> Some controller) ->
  Chat.aborted (snd (Chat.DELETE requestId st)) !! controller
  = Chat.aborted st !! controller.
Proof.
  intros Hfree. unfold Chat.DELETE.
  destruct (Chat.activeRequests st !! requestId) as [c|] eqn:Hc; cbn [snd]; [|reflexivity].
  cbn [Chat.aborted]. apply lookup_insert_ne. intros ->. now apply (Hfree requestId).
Qed.

(** ** Sessions, further *)

(** X28.  A request registered under an id that is not empty is
    cancelled by [DELETE] on that id.  When a second request registers
    under the same id, [DELETE] aborts the controller of the second and
    leaves the signal of the first as it was, and the id is gone from
    the registry: the first request can no longer be cancelled. *)
Theorem DELETE_cancels_latest_registration (requestId : string) (st : Chat.State) :
  requestId <> EmptyString ->
  let first := Chat.register requestId st in
  let second := Chat.register requestId (snd first) in
  (fst (Chat.DELETE requestId (snd first)) = cancelled
   /\ Chat.aborted (snd (Chat.DELETE requestId (snd first))) !! fst first = Some true)
  /\ fst first <> fst second
  /\ fst (Chat.DELETE requestId (snd second)) = cancelled
  /\ Chat.aborted (snd (Chat.DELETE requestId (snd second))) !! fst second = Some true
  /\ Chat.aborted (snd (Chat.DELETE requestId (snd second))) !! fst first = Some false
  /\ Chat.DELETE requestId (snd (Chat.DELETE requestId (snd second)))
     = (notFound, snd (Chat.DELETE requestId (snd second))).
Proof.
  intros Hne first second.
  pose proof (register_lookup requestId st Hne) as Hfirst.
  pose proof (register_lookup requestId (snd first) Hne) as Hsecond.
  fold first in Hfirst. fold second in Hsecond.
  assert (Hdistinct : fst first <> fst second).
  { intros Heq. pose proof (register_fresh requestId (snd first)) as Hfresh.
    fold second in Hfresh. rewrite <- Heq in Hfresh. unfold first in Hfresh.
    rewrite register_signal in Hfresh. discriminate. }
  rewrite (DELETE_registered _ _ _ Hfirst), (DELETE_registered _ _ _ Hsecond).
  cbn [fst snd Chat.aborted]. split.
  { split; [reflexivity | apply lookup_insert_eq]. }
  split; [exact Hdistinct|]. split; [reflexivity|].
  split; [apply lookup_insert_eq|]. split.
  - rewrite lookup_insert_ne by congruence. unfold second.
    rewrite register_others by exact Hdistinct. apply register_signal.
  - apply DELETE_unregistered. cbn [Chat.activeRequests]. apply lookup_delete_eq.
Qed.

Lemma DELETE_cancels_latest_registration_witness :
  let first := Chat.register "req-1" noSession in
  let second := Chat.register "req-1" (snd first) in
  (fst (Chat.DELETE "req-1" (snd first)) = cancelled
   /\ Chat.aborted (snd (Chat.DELETE "req-1" (snd first))) !! fst first = Some true)
  /\ fst first <> fst second
  /\ fst (Chat.DELETE "req-1" (snd second)) = cancelled
  /\ Chat.aborted (snd (Chat.DELETE "req-1" (snd second))) !! fst second = Some true
  /\ Chat.aborted (snd (Chat.DELETE "req-1" (snd second))) !! fst first = Some false
  /\ Chat.DELETE "req-1" (snd (Chat.DELETE "req-1" (snd second)))
     = (notFound, snd (Chat.DELETE "req-1" (snd second))).
Proof.
  apply (DELETE_cancels_latest_registration "req-1" noSession). discriminate.
Defined.

(** A controller that no request id leads to, with its signal not
    tripped, in a state where every registered controller is one the
    server has created. *)
Lemma unregistered_after_call (controller : nat) (st : Chat.State) (call : sessionCall) :
  Chat.aborted st !! controller = Some false ->
  (forall id, Chat.activeRequests st !! id <> Some controller) ->
  controllersKnown st ->
  Chat.aborted (afterCall st call) !! controller = Some false
  /\ (forall id, Chat.activeRequests (afterCall st call) !! id <> Some controller)
  /\ controllersKnown (afterCall st call).
Proof.
  intros Hsignal Hfree Hknown. destruct call as [requestId | requestId | requestId];
    cbn [afterCall].
  - assert (Hfresh : fst (Chat.register requestId st) <> controller).
    { intros Heq. pose proof (register_fresh requestId st) as H.
      rewrite Heq, Hsignal in H. discriminate. }
    split; [|split].
    + rewrite register_others by congruence. exact Hsignal.
    + intros id. unfold Chat.register in *. cbn [fst snd Chat.activeRequests] in *.
      destruct (String.eqb requestId EmptyString); [apply Hfree|].
      destruct (decide (id = requestId)) as [-> | Hne].
      * rewrite lookup_insert_eq. congruence.
      * rewrite lookup_insert_ne by congruence. apply Hfree.
    + now apply register_controllersKnown.
  - split; [|split].
    + unfold Chat.cleanup. now destruct (String.eqb requestId EmptyString).
    + intros id. unfold Chat.cleanup.
      destruct (String.eqb requestId EmptyString); [apply Hfree|].
      cbn [Chat.activeRequests]. intros H. apply lookup_delete_Some in H.
      destruct H as [_ H]. now apply (Hfree id).
    + now apply cleanup_controllersKnown.
  - split; [|split].
    + now rewrite DELETE_unregistered_signal.
    + intros id. unfold Chat.DELETE.
      destruct (Chat.activeRequests st !! requestId); cbn [snd]; [|apply Hfree].
      cbn [Chat.activeRequests]. intros H. apply lookup_delete_Some in H.
      destruct H as [_ H]. now apply (Hfree id).
    + now apply DELETE_controllersKnown.
Qed.

Lemma unregistered_after_calls (controller : nat) (calls : list sessionCall) :
  forall st : Chat.State,
    Chat.aborted st !! controller = Some false ->
    (forall id, Chat.activeRequests st !! id <> Some controller) ->
    controllersKnown st ->
    Chat.aborted (afterCalls calls st) !! controller = Some false
    /\ controllersKnown (afterCalls calls st).
Proof.
  unfold afterCalls. induction calls as [|call calls IH]; intros st Hsignal Hfree Hknown;
    cbn [fold_left]; [now split|].
  destruct (unregistered_after_call controller st call Hsignal Hfree Hknown)
    as [Hsignal' [Hfree' Hknown']].
  now apply IH.
Qed.

Lemma controllersKnown_noSession : controllersKnown noSession.
Proof. intros id controller H. cbn in H. rewrite lookup_empty in H. discriminate. Qed.

(** Every registered controller is one the server has created, in every
    state the server reaches from its start. *)
Lemma afterCalls_controllersKnown (calls : list sessionCall) :
  controllersKnown (afterCalls calls noSession).
Proof.
  unfold afterCalls. generalize controllersKnown_noSession. generalize noSession.
  induction calls as [|call calls IH]; intros st Hknown; cbn [fold_left]; [exact Hknown|].
  apply IH. destruct call; cbn [afterCall].
  - now apply register_controllersKnown.
  - now apply cleanup_controllersKnown.
  - now apply DELETE_controllersKnown.
Qed.

(** X29.  A request that gives no request id is not registered: the
    registry stays as it was.  In a state where every registered
    controller is one the server has created, as it is in every state
    the server reaches from its start ([afterCalls_controllersKnown]),
    the controller of that request is never aborted by what follows: its
    signal is not tripped after any sequence of registrations, clean-ups
    and [DELETE]s. *)
Theorem request_without_id_is_never_cancelled (st : Chat.State)
  (later : list sessionCall) :
  controllersKnown st ->
  Chat.activeRequests (snd (Chat.register EmptyString st)) = Chat.activeRequests st
  /\ Chat.aborted (afterCalls later (snd (Chat.register EmptyString st)))
       !! fst (Chat.register EmptyString st) = Some false
  /\ controllersKnown (afterCalls later (snd (Chat.register EmptyString st))).
Proof.
  intros Hknown. split; [reflexivity|].
  apply unregistered_after_calls.
  - apply register_signal.
  - intros id H. change (Chat.activeRequests st !! id
                         = Some (fst (Chat.register EmptyString st))) in H.
    apply Hknown in H. rewrite register_fresh in H. now destruct H.
  - now apply register_controllersKnown.
Qed.

(** The request without an id comes after the registration of "req-1";
    then "req-2" registers, both are cancelled, and the stream of
    "req-2" is cleaned up: the two registered controllers are aborted,
    the one without an id is not. *)
Lemma request_without_id_is_never_cancelled_witness :
  (Chat.activeRequests (snd (Chat.register EmptyString sampleSession))
   = Chat.activeRequests sampleSession
   /\ Chat.aborted
        (afterCalls [Registers "req-2"; Deletes "req-1"; Deletes "req-2";
                     CleansUp "req-2"; Deletes EmptyString]
           (snd (Chat.register EmptyString sampleSession)))
        !! fst (Chat.register EmptyString sampleSession) = Some false
   /\ controllersKnown
        (afterCalls [Registers "req-2"; Deletes "req-1"; Deletes "req-2";
                     CleansUp "req-2"; Deletes EmptyString]
           (snd (Chat.register EmptyString sampleSession))))
  /\ Chat.aborted
       (afterCalls [Registers "req-2"; Deletes "req-1"; Deletes "req-2";
                    CleansUp "req-2"; Deletes EmptyString]
          (snd (Chat.register EmptyString sampleSession)))
       !! fst (Chat.register "req-1" noSession) = Some true.
Proof.
  split.
  - apply (request_without_id_is_never_cancelled sampleSession
             [Registers "req-2"; Deletes "req-1"; Deletes "req-2";
              CleansUp "req-2"; Deletes EmptyString]).
    apply (afterCalls_controllersKnown [Registers "req-1"]).
  - vm_compute. reflexivity.
Defined.

(** X30.  After the clean-up of a stream, [DELETE] on its request id
    answers "not found" and aborts nothing; and the clean-up after a
    [DELETE] on the id changes nothing. *)
Theorem DELETE_after_cleanup_not_found (requestId : string) (st : Chat.State) :
  requestId <> EmptyString ->
  Chat.DELETE requestId (Chat.cleanup requestId st)
  = (notFound, Chat.cleanup requestId st)
  /\ Chat.cleanup requestId (snd (Chat.DELETE requestId st))
     = snd (Chat.DELETE requestId st).
Proof.
  intros Hne. unfold Chat.cleanup.
  destruct (String.eqb_spec requestId EmptyString); [contradiction|]. split.
  - apply DELETE_unregistered. cbn [Chat.activeRequests]. apply lookup_delete_eq.
  - unfold Chat.DELETE.
    destruct (Chat.activeRequests st !! requestId) as [controller|] eqn:Hc;
      cbn [snd Chat.activeRequests Chat.aborted].
    + now rewrite delete_delete_eq.
    + destruct st as [requests signals]. cbn [Chat.activeRequests Chat.aborted] in *.
      now rewrite delete_id.
Qed.

Lemma DELETE_after_cleanup_not_found_witness :
  Chat.DELETE "req-1" (Chat.cleanup "req-1" sampleSession)
  = (notFound, Chat.cleanup "req-1" sampleSession)
  /\ Chat.cleanup "req-1" (snd (Chat.DELETE "req-1" sampleSession))
     = snd (Chat.DELETE "req-1" sampleSession).
Proof.
  apply (DELETE_after_cleanup_not_found "req-1" sampleSession). discriminate.
Defined.
